(** * neural_net.cpp: a shallow embedding and its properties

  The development follows the source file top to bottom: the thread pool
  helpers, the data pipeline of [create_data], the activation functions,
  the histogram of [create_histogram], and the training / evaluation
  engine of [main] (forward and backward pass, the barrier completion
  function [combine_updates] and the worker body [iterate]).

  Numbers.  [double] is modelled by the real numbers [R]: rounding,
  infinities and NaN are outside the model.  [std::size_t],
  [std::ptrdiff_t] and [unsigned] are modelled by [Z] with the wrap-around
  of their width written out; container sizes and positions are [nat].

  Effects.  Code that prints, ends the process or reads the console is a
  function from a state to a [Process.run] of states; what is printed is a
  list of events in the state.  The calls [loop_threaded] makes are taken
  one after the other in an order given from outside, and [Loop] has the
  threads that make them, interleaved by a schedule; a call of
  [std::exit] in one thread does not stop the others.  The threads of
  [iterate] are interleaved by a step function [Net.iterate_step] on the
  shared state and the place of every thread in its loop, each operation on
  the atomic [reps] being one step; the barrier is a step of its own,
  possible when every thread has arrived. *)

From Stdlib Require Import Reals Lra Lia ZArith List String Ascii Permutation.
From stdpp Require Import base list.
Import ListNotations.

(** ** Machine integers *)

Module Machine.

(** unsigned arithmetic on [w] bits *)
Definition wrap (w : Z) (x : Z) : Z := (x mod 2 ^ w)%Z.

(** two's complement arithmetic on [w] bits *)
Definition swrap (w : Z) (x : Z) : Z :=
  ((x + 2 ^ (w - 1)) mod 2 ^ w - 2 ^ (w - 1))%Z.

(** [unsigned]: 32 bits *)
Definition u32_sub (a b : Z) : Z := wrap 32 (a - b).

(** [std::size_t]: 64 bits *)
Definition size_add (a b : Z) : Z := wrap 64 (a + b).
Definition size_of_ptrdiff (r : Z) : Z := wrap 64 r.

(** [std::ptrdiff_t] and [long]: 64 bits, signed *)
Definition ptrdiff_add (a b : Z) : Z := swrap 64 (a + b).
Definition ptrdiff_sub (a b : Z) : Z := swrap 64 (a - b).

(** [std::max(a, b)] returns [b] when [a < b] and [a] otherwise;
    [std::min(a, b)] returns [b] when [b < a] and [a] otherwise *)
Definition std_max (a b : Z) : Z := if (a <? b)%Z then b else a.
Definition std_min (a b : Z) : Z := if (b <? a)%Z then b else a.

End Machine.

(** ** The thread pool (lines 42-88) *)

Module Threads.
Import Machine.

(** [const std::size_t thread_count{std::max(1u, std::thread::hardware_concurrency() - 1)};]
    The argument is what [hardware_concurrency()] returned, an [unsigned]. *)
Definition thread_count (hardware_concurrency : Z) : Z :=
  std_max 1 (u32_sub hardware_concurrency 1).

End Threads.

(** ** Processes *)

Module Process.

Definition EXIT_FAILURE : Z := 1%Z.
Definition EXIT_SUCCESS : Z := 0%Z.

(** Where a computation on a state [S] stands: it goes on, or it has ended
    the process with [std::exit(status)], or it has left the defined
    behaviour of the language (a read past the end of an array, the maximum
    of an empty range), or it waits for input that does not come. *)
Inductive run (S : Type) : Type :=
| Continue (s : S)
| Exit (status : Z) (s : S)
| Undefined
| Blocked.
Arguments Continue {S} s.
Arguments Exit {S} status s.
Arguments Undefined {S}.
Arguments Blocked {S}.

Definition and_then {S T : Type} (r : run S) (k : S -> run T) (at_exit : S -> T) : run T :=
  match r with
  | Continue s => k s
  | Exit status s => Exit status (at_exit s)
  | Undefined => Undefined
  | Blocked => Blocked
  end.

(** What the rest of a run comes to once a call has ended the process with
    [status]: [std::exit] does not stop the other threads, which go on until
    the process is gone; the state is the one they leave, and the status that
    of the first call of [std::exit] (every call of it in this program
    passes the same status). *)
Definition exiting {S : Type} (status : Z) (r : run S) : run S :=
  match r with
  | Continue s => Exit status s
  | Exit _ s => Exit status s
  | Undefined => Undefined
  | Blocked => Blocked
  end.

(** [loop_threaded(func, n)] calls [func] on every value of [0, n - 1] from
    [thread_count] threads, in no fixed order.  The calls are taken here one
    after the other, each as a whole, in the order [order] in which the
    threads make them: a permutation of [seq 0 n] when every call returns.
    This is what the threads give for tasks that work on parts of the state
    of their own, as the columns of [normalize_variable] and of
    [read_variable] are; the one place where a task of this program looks
    at what another may be changing, the test of [read_variable] on the
    size of [data], is taken step by step in [Loop.run_readers].  A call
    that ends the process does not return and does not stop the other
    threads: the calls after it in [order] are the ones they still make
    before the process is gone, and they keep their effects.  (No task of
    this program waits for input; a call that does is not followed
    further.) *)
Fixpoint loop_threaded {S : Type} (func : nat -> S -> run S) (order : list nat) (s : S) : run S :=
  match order with
  | [] => Continue s
  | index :: rest =>
      match func index s with
      | Continue s' => loop_threaded func rest s'
      | Exit status s' => exiting status (loop_threaded func rest s')
      | Undefined => Undefined
      | Blocked => Blocked
      end
  end.

End Process.

(** ** The data pipeline: [create_data] (lines 91-182) *)

Module Data.
Import Process.
Local Open Scope R_scope.

Definition variable_names : list string :=
  [ "Lres_IPCHI2_OWNPV"; "h1_P"; "h1_PT"; "h2_P"; "h2_PT"; "Lres_FD_OWNPV";
    "Jpsi_FD_OWNPV"; "Lres_TAUCHI2"; "Lb_IP_OWNPV"; "Jpsi_P";
    "Jpsi_ENDVERTEX_CHI2"; "Lres_ENDVERTEX_CHI2"; "Lb_M" ]%string.

Definition full_variable_count : nat := length variable_names.
Definition variable_count : nat := (full_variable_count - 1)%nat.

(** One element of [data], a [std::array<double, full_variable_count + 1>]:
    the variables in the order of [variable_names], then the score. *)
Definition sample : Type := list R.

Definition zero_sample : sample := repeat 0 (full_variable_count + 1).

(** Comparisons of [double]s, and the conversions between [bool] and
    [double] that C++ inserts. *)
Definition Rltb (x y : R) : bool := if Rlt_dec x y then true else false.
Definition Reqb (x y : R) : bool := if Req_dec_T x y then true else false.
Definition double_of_bool (b : bool) : R := if b then 1 else 0.
Definition bool_of_double (x : R) : bool := negb (Reqb x 0).

(** A [movency::root::file]: its path and, for every variable name, the
    column [uncompress<double>] returns. *)
Record file : Type := { get_path : string; uncompress : string -> list R }.

(** What the pipeline prints. *)
Inductive event : Type :=
| reading_from_file (path : string)
| inconsistent_variable_counts
    (path : string) (previous_count variable_size expected_total : nat)
    (variable : string)
| read_values (count : nat) (simulated : bool) (variable : string)
| blank_line
| created_data (real_count simulated_count : nat).

Record loader : Type := { data : list sample; output : list event }.

Definition print (e : event) (w : loader) : loader :=
  {| data := data w; output := output w ++ [e] |}.

(** [data.resize(n)] *)
Definition resize (d : list sample) (n : nat) : list sample :=
  take n d ++ repeat zero_sample (n - length d).

(** [for (i = 0; i < variables.size(); ++i) data[old_size + i][variable_index] = variables[i];] *)
Definition store_column (old_size variable_index : nat) (variables : list R) (d : list sample) : list sample :=
  fold_left
    (fun d i => alter (fun e => <[variable_index := nth i variables 0]> e) (old_size + i)%nat d)
    (seq 0 (length variables)) d.

(** The lambda [read_variable] of [read_from_file] (lines 113-137). *)
Definition read_variable (f : file) (score : bool) (old_size : nat) (variable_index : nat) (w : loader) : run loader :=
  let name := nth variable_index variable_names ""%string in
  let variables := uncompress f name in
  let resized :=
    if (length (data w) =? old_size)%nat
    then resize (data w) (old_size + length variables)
    else data w in
  let w1 := {| data := resized; output := output w |} in
  if negb (old_size + length variables =? length resized)%nat then
    Exit EXIT_FAILURE
      (print (inconsistent_variable_counts (get_path f) old_size
                (length variables) (length resized) name) w1)
  else
    let w2 := print (read_values (length variables) score name) w1 in
    Continue {| data := store_column old_size variable_index variables (data w2);
                output := output w2 |}.

(** The two parts of [read_variable], for the run of its threads: lines
    115-122, the column and the resize under [resize_lock]; and lines
    124-136, the test, which is made outside the lock, with the diagnostic
    and [std::exit], or the line printed and the stores. *)
Definition resize_under_lock (f : file) (old_size : nat) (variable_index : nat) (w : loader) : loader :=
  let name := nth variable_index variable_names ""%string in
  let variables := uncompress f name in
  {| data :=
       if (length (data w) =? old_size)%nat
       then resize (data w) (old_size + length variables)
       else data w;
     output := output w |}.

Definition test_and_store (f : file) (score : bool) (old_size : nat) (variable_index : nat) (w : loader) : run loader :=
  let name := nth variable_index variable_names ""%string in
  let variables := uncompress f name in
  if negb (old_size + length variables =? length (data w))%nat then
    Exit EXIT_FAILURE
      (print (inconsistent_variable_counts (get_path f) old_size
                (length variables) (length (data w)) name) w)
  else
    let w2 := print (read_values (length variables) score name) w in
    Continue {| data := store_column old_size variable_index variables (data w2);
                output := output w2 |}.

(** [for (i = old_size; i < data.size(); ++i) data[i][full_variable_count] = score;] *)
Definition store_score (old_size : nat) (score : bool) (d : list sample) : list sample :=
  fold_left
    (fun d i => alter (fun e => <[full_variable_count := double_of_bool score]> e) i d)
    (seq old_size (length d - old_size)) d.

(** The lambda [read_from_file] of [create_data] (lines 104-145). *)
Definition read_from_file (order : list nat) (f : file) (score : bool) (w : loader) : run loader :=
  let w0 := print (reading_from_file (get_path f)) w in
  let old_size := length (data w0) in
  and_then (loop_threaded (read_variable f score old_size) order w0)
    (fun w1 =>
       Continue (print blank_line
                   {| data := store_score old_size score (data w1);
                      output := output w1 |}))
    (fun w1 => w1).

(** [std::erase_if] and [std::ranges::count_if] *)
Definition erase_if {A : Type} (pred : A -> bool) (l : list A) : list A :=
  List.filter (fun e => negb (pred e)) l.

Definition count_if {A : Type} (pred : A -> bool) (l : list A) : nat :=
  length (List.filter pred l).

(** The lambda passed to [erase_if] (line 162):
    [(std::abs(e[full_variable_count - 1] - 5619.60) < 300.0) != e[full_variable_count]] *)
Definition in_window (e : sample) : bool :=
  Rltb (Rabs (nth (full_variable_count - 1) e 0 - 5619.60)) 300.0.

Definition window_differs_from_score (e : sample) : bool :=
  negb (Reqb (double_of_bool (in_window e)) (nth full_variable_count e 0)).

(** The lambda passed to [count_if] (line 164): [!e[full_variable_count]] *)
Definition is_real (e : sample) : bool :=
  negb (bool_of_double (nth full_variable_count e 0)).

(** [std::ranges::max(r, {}, proj)]: the first element whose projection is
    not less than any other; no result on an empty range. *)
Definition ranges_max {A : Type} (proj : A -> R) (r : list A) : option A :=
  match r with
  | [] => None
  | e :: rest =>
      Some (fold_left (fun best x => if Rlt_dec (proj best) (proj x) then x else best) rest e)
  end.

(** The lambda [normalize_variable] (lines 169-175). *)
Definition normalize_variable (variable_index : nat) (d : list sample) : run (list sample) :=
  match ranges_max (fun e => nth variable_index e 0) d with
  | None => Undefined
  | Some m =>
      let div := nth variable_index m 0 in
      Continue (map (fun e => <[variable_index := nth variable_index e 0 / div]> e) d)
  end.

(** What [create_data] takes from outside: the files, the order in which the
    threads of each [loop_threaded] take their indices, and the permutation
    [std::ranges::shuffle] draws from the generator. *)
Record environment : Type := {
  open_file : string -> file;
  read_order : string -> list nat;
  normalize_order : list nat;
  shuffle : list sample -> list sample
}.

Definition sources : list (string * bool) :=
  [ ("../data/Lb2pKmm_mgUp_2018.root", false);
    ("../data/Lb2pKmm_sim_mgUp_2018.root", true);
    ("../data/Lb2pKmm_mgDn_2018.root", false);
    ("../data/Lb2pKmm_sim_mgDn_2018.root", true) ]%string.

Fixpoint read_all (env : environment) (files : list (string * bool)) (w : loader) : run loader :=
  match files with
  | [] => Continue w
  | (path, score) :: rest =>
      and_then (read_from_file (read_order env path) (open_file env path) score w)
        (read_all env rest) (fun w' => w')
  end.

(** [create_data] (lines 99-182); the result is the pair it returns. *)
Definition create_data (env : environment) : run (loader * R) :=
  and_then (read_all env sources {| data := []; output := [] |})
    (fun w =>
       let filtered := erase_if window_differs_from_score (data w) in
       let real_count := count_if is_real filtered in
       let shuffled := shuffle env filtered in
       and_then (loop_threaded normalize_variable (normalize_order env) shuffled)
         (fun normalized =>
            Continue
              (print (created_data real_count (length normalized - real_count))
                     {| data := normalized; output := output w |},
               INR real_count / INR (length normalized)))
         (fun d => ({| data := d; output := output w |}, 0)))
    (fun w => (w, 0)).

End Data.

(** ** The activation function (lines 29-39 and 185-200) *)

Module Activation.
Local Open Scope R_scope.

(** [pow<P>(x)]: [P % 2] is the last binary digit of [P] and [P / 2] the
    digits before it, so the recursion of the template is the recursion on
    the binary representation of [P]. *)
Fixpoint pow_pos (P : positive) (x : R) : R :=
  match P with
  | xH => x * 1 * 1
  | xO p => pow_pos p x * pow_pos p x
  | xI p => x * pow_pos p x * pow_pos p x
  end.

Definition pow (P : N) (x : R) : R :=
  match P with
  | N0 => 1
  | Npos p => pow_pos p x
  end.

Definition logistic (val : R) : R := 1.0 / (1.0 + exp (- val)) - 0.5.

Definition derivative_logistic (val : R) : R :=
  let exp_val := exp val in
  exp_val / pow 2 (1.0 + exp_val).

Definition derivative_logistic_from_logistic (val : R) : R :=
  (0.5 + val) * (0.5 - val).

End Activation.

(** ** The score histogram: [create_histogram] (lines 206-255) *)

Module Histogram.
Import Process Data.
Local Open Scope R_scope.

(** [static_cast<std::size_t>(x)] on a [double]: the fractional part is
    dropped; there is a result only if the integer left fits the type. *)
Definition truncate (x : R) : Z :=
  if Rle_dec 0 x then Int_part x else (- Int_part (- x))%Z.

Definition size_of_double (x : R) : option nat :=
  let t := truncate x in
  if ((0 <=? t) && (t <? 2 ^ 64))%Z then Some (Z.to_nat t) else None.

Definition bucket_count : nat := 1000.

(** [std::array<std::array<double, 2>, bucket_count> histogram{};] *)
Definition histogram_t : Type := list (list R).
Definition empty_histogram : histogram_t := repeat (repeat 0 2%nat) bucket_count.

(** The first index of the access on line 229. *)
Definition bucket_of (prediction : R) : option nat :=
  size_of_double (prediction * INR bucket_count).

(** One turn of the loop of lines 223-230:
    [histogram[bucket][static_cast<std::size_t>(target)] += bias]. *)
Definition add_prediction (fraction_background : R) (h : histogram_t) (prediction : R) (e : sample) : run histogram_t :=
  let target := nth full_variable_count e 0 in
  let bias := if bool_of_double target then fraction_background else 1 - fraction_background in
  match bucket_of prediction, size_of_double target with
  | Some b, Some t =>
      if ((b <? bucket_count) && (t <? 2))%nat
      then Continue (alter (alter (fun x => x + bias) t) b h)
      else Undefined
  | _, _ => Undefined
  end.

Fixpoint fill (fraction_background : R) (h : histogram_t) (predictions : list R) (d : list sample) : run histogram_t :=
  match predictions, d with
  | prediction :: predictions', e :: d' =>
      match add_prediction fraction_background h prediction e with
      | Continue h' => fill fraction_background h' predictions' d'
      | stopped => stopped
      end
  | _, _ => Continue h
  end.

(** [create_histogram], up to the filled histogram; drawing it and saving
    the picture are left out. *)
Definition create_histogram (predictions : list R) (d : list sample) : run histogram_t :=
  if negb (length predictions =? length d)%nat then Exit 1 empty_histogram
  else
    let fraction_background := INR (count_if is_real d) / INR (length d) in
    fill fraction_background empty_histogram predictions d.

End Histogram.

(** ** The network: [main] (lines 346-552) *)

Module Net.
Import Machine Process Data Activation.
Local Open Scope R_scope.

Definition depth : nat := 5.

(** A row of [nodes] or [errors], and the type of [connections]: an
    [std::array] of [depth - 1] square matrices of side [variable_count]. *)
Definition layer : Type := list R.
Definition connections_t : Type := list (list (list R)).

Definition tabulate {A : Type} (n : nat) (f : nat -> A) : list A := map f (seq 0 n).

Definition at3 (c : connections_t) (i j k : nat) : R :=
  nth k (nth j (nth i c []) []) 0.

(** A three-fold loop over [i < depth - 1], [j, k < variable_count] that
    assigns every element. *)
Definition for_all_connections (f : nat -> nat -> nat -> R) : connections_t :=
  tabulate (depth - 1) (fun i =>
    tabulate variable_count (fun j =>
      tabulate variable_count (fun k => f i j k))).

(** [decltype(connections){}] *)
Definition zero_connections : connections_t := for_all_connections (fun _ _ _ => 0).

(** [c[i][j][k] += u[i][j][k]] for all [i], [j], [k] *)
Definition add_connections (c u : connections_t) : connections_t :=
  for_all_connections (fun i j k => at3 c i j k + at3 u i j k).

(** *** One sample: forward and backward pass (lines 473-536) *)

(** [for (k ...) acc += a[k] * b[k]], from [acc = 0] *)
Definition accumulate (term : nat -> R) : R :=
  fold_left (fun acc k => acc + term k) (seq 0 variable_count) 0.

Definition input_nodes (e : sample) : layer :=
  tabulate variable_count (fun i => nth i e 0).

Definition next_nodes (weights : list (list R)) (previous : layer) : layer :=
  tabulate variable_count (fun j =>
    logistic (accumulate (fun k => nth k previous 0 * nth k (nth j weights []) 0))).

(** [nodes], all [depth] rows of it *)
Definition forward (connections : connections_t) (e : sample) : list layer :=
  fold_left
    (fun nodes i => nodes ++ [next_nodes (nth (i - 1) connections []) (nth (i - 1) nodes [])])
    (seq 1 (depth - 1)) [input_nodes e].

(** [nodes.back()] *)
Definition back (rows : list layer) : layer := nth (depth - 1) rows [].

Definition score_of (nodes : list layer) : R :=
  logistic (accumulate (fun i => nth i (back nodes) 0)) + 0.5.

Definition output_error (fraction_background : R) (e : sample) (score : R) : R :=
  let fraction_signal := 1.0 - fraction_background in
  let target := nth full_variable_count e 0 in
  let bias := if bool_of_double target then fraction_background else fraction_signal in
  (target - score) * bias * derivative_logistic_from_logistic (score - 0.5).

(** [errors], rows 1 to [depth - 1]; row 0 is never written nor read. *)
Definition backward (connections : connections_t) (nodes : list layer) (error : R) : list layer :=
  let last :=
    tabulate variable_count (fun i =>
      error / INR variable_count * derivative_logistic_from_logistic (nth i (back nodes) 0)) in
  fold_left
    (fun errors i =>
       tabulate variable_count (fun j =>
         accumulate (fun k => nth k (hd [] errors) 0 * at3 connections i k j)
         * derivative_logistic_from_logistic (nth j (nth i nodes []) 0))
       :: errors)
    (rev (seq 1 (depth - 2))) [last].

(** [errors[i + 1][j] * nodes[i][k]], where [errors_from_1] holds the rows
    of [errors] from row 1 on *)
Definition gradient (errors_from_1 nodes : list layer) : connections_t :=
  for_all_connections (fun i j k =>
    nth j (nth i errors_from_1 []) 0 * nth k (nth i nodes []) 0).

(** *** The state shared by the threads *)

(** The operator's input, as the extractions [std::cin >> input] and
    [std::cin >> excess_reps] return it. *)
Inductive token : Type :=
| key (c : ascii)
| number (n : Z).

Inductive message : Type :=
| ask_command
| ask_rep_count
| invalid_input
| print_connections (c : connections_t)
| histogram_saved (name : string) (h : Histogram.histogram_t)
| ROC_curve_saved (name : string).

(** What [create_data] returned, and [train_cutoff_index]; constant. *)
Record dataset : Type := { samples : list sample; fraction_background : R }.

Definition size (ds : dataset) : Z := Z.of_nat (length (samples ds)).

Definition train_cutoff_index (ds : dataset) : Z :=
  (wrap 64 (size ds * 9) / 10)%Z.

Record shared : Type := {
  connections : connections_t;
  train : bool;
  updates : list connections_t;
  predictions : list R;
  reps : Z;
  excess_reps : Z;
  cin : list token;
  cout : list message
}.

Definition say (m : message) (s : shared) : shared :=
  {| connections := connections s; train := train s; updates := updates s;
     predictions := predictions s; reps := reps s; excess_reps := excess_reps s;
     cin := cin s; cout := cout s ++ [m] |}.

Definition set_updates (u : list connections_t) (s : shared) : shared :=
  {| connections := connections s; train := train s; updates := u;
     predictions := predictions s; reps := reps s; excess_reps := excess_reps s;
     cin := cin s; cout := cout s |}.

Definition set_reps (r : Z) (s : shared) : shared :=
  {| connections := connections s; train := train s; updates := updates s;
     predictions := predictions s; reps := r; excess_reps := excess_reps s;
     cin := cin s; cout := cout s |}.

(** The state [main] sets up before it starts the threads; the random
    [connections] are given. *)
Definition initial (ds : dataset) (thread_count : nat) (random : connections_t) (input : list token) : shared :=
  {| connections := random;
     train := true;
     updates := repeat zero_connections thread_count;
     predictions := repeat 0 (Z.to_nat (size ds - train_cutoff_index ds));
     reps := 0;
     excess_reps := 0;
     cin := input;
     cout := [] |}.

(** *** The completion function of the barrier: [combine_updates] (lines 380-440) *)

(** The loop of lines 382-386. *)
Definition apply_updates (s : shared) : shared :=
  {| connections := fold_left add_connections (updates s) (connections s);
     train := train s; updates := updates s; predictions := predictions s;
     reps := reps s; excess_reps := excess_reps s; cin := cin s; cout := cout s |}.

(** The [while (true)] of lines 399-432: one turn for each token taken. *)
Fixpoint ask (input : list token) (s : shared) : run shared :=
  match input with
  | key c :: rest =>
      let s := say ask_command s in
      if Ascii.eqb c "P" then ask rest (say (print_connections (connections s)) s)
      else if Ascii.eqb c "E" then
        Continue
          {| connections := connections s; train := false; updates := updates s;
             predictions := predictions s; reps := 0; excess_reps := excess_reps s;
             cin := rest; cout := cout s |}
      else if Ascii.eqb c "R" then
        match rest with
        | number n :: rest' =>
            Continue
              {| connections := connections s; train := true; updates := updates s;
                 predictions := predictions s; reps := reps s; excess_reps := n;
                 cin := rest'; cout := cout s ++ [ask_rep_count] |}
        | _ => Blocked
        end
      else ask rest (say invalid_input s)
  | _ => Blocked
  end.

(** Lines 390-395: the two pictures of the evaluation. *)
Definition diagnostics (ds : dataset) (s : shared) : run shared :=
  let suffix := drop (Z.to_nat (train_cutoff_index ds)) (samples ds) in
  and_then (Histogram.create_histogram (predictions s) suffix)
    (fun h => Continue (say (ROC_curve_saved "ROC_curve") (say (histogram_saved "log_predictions" h) s)))
    (fun _ => s).

(** Lines 435-437. *)
Definition next_budget (s : shared) : shared :=
  let r := std_min (excess_reps s) 100 in
  {| connections := connections s; train := train s; updates := updates s;
     predictions := predictions s; reps := r;
     excess_reps := ptrdiff_sub (excess_reps s) r;
     cin := cin s; cout := cout s |}.

Definition combine_updates (ds : dataset) (s : shared) : run shared :=
  let s := apply_updates s in
  and_then
    (if (excess_reps s =? 0)%Z then
       and_then (if negb (train s) then diagnostics ds s else Continue s)
         (fun s => ask (cin s) s) (fun s => s)
     else Continue s)
    (fun s => Continue (next_budget s))
    (fun s => s).

(** *** The worker: [iterate] (lines 444-545) *)

Inductive claim : Type :=
| leave
| work (index : Z).

(** Lines 452-471: the atomic operation on [reps], and what the thread
    decides from the value it returned.  [draw] is the value the generator
    returns on line 458. *)
Definition claim_index (ds : dataset) (draw : Z) (s : shared) : claim * shared :=
  if train s then
    let r := reps s in
    let s' := set_reps (ptrdiff_sub r 1) s in
    let index := draw in
    if (r <=? 0)%Z then (leave, s') else (work index, s')
  else
    let r := reps s in
    let s' := set_reps (ptrdiff_add r 1) s in
    let index := size_add (train_cutoff_index ds) (size_of_ptrdiff r) in
    if (index >=? size ds)%Z then (leave, s') else (work index, s').

(** Lines 473-538: the work on [data[index]]. *)
Definition process_index (ds : dataset) (thread_no : nat) (index : Z) (s : shared) : shared :=
  let e := nth (Z.to_nat index) (samples ds) zero_sample in
  let nodes := forward (connections s) e in
  let score := score_of nodes in
  if train s then
    let error := output_error (fraction_background ds) e score in
    let errors := backward (connections s) nodes error in
    set_updates
      (alter (fun u => add_connections u (gradient errors nodes)) thread_no (updates s)) s
  else
    {| connections := connections s; train := train s; updates := updates s;
       predictions := <[Z.to_nat (index - train_cutoff_index ds) := score]> (predictions s);
       reps := reps s; excess_reps := excess_reps s; cin := cin s; cout := cout s |}.

(** Where a thread stands in [iterate]. *)
Inductive position : Type :=
| at_claim
| at_work (index : Z)
| at_barrier
| at_reset.

Record pool : Type := { state : shared; threads : list position }.

(** What a step lets an observer see: the slot of [predictions] written. *)
Inductive label : Type :=
| silent
| recorded (slot : nat).

(** One step of the thread [thread_no]: the atomic operation of line 456
    or 465 with the test that follows it, or the work on the index it
    took, or line 543 once the barrier has let it go.  A thread at the
    barrier has no step of its own. *)
Definition iterate_step (ds : dataset) (thread_no : nat) (draw : Z) (p : pool) : option (label * pool) :=
  match threads p !! thread_no with
  | Some at_claim =>
      let (c, s') := claim_index ds draw (state p) in
      let next := match c with leave => at_barrier | work index => at_work index end in
      Some (silent, {| state := s'; threads := <[thread_no := next]> (threads p) |})
  | Some (at_work index) =>
      Some (if train (state p) then silent
            else recorded (Z.to_nat (index - train_cutoff_index ds)),
            {| state := process_index ds thread_no index (state p);
               threads := <[thread_no := at_claim]> (threads p) |})
  | Some at_reset =>
      Some (silent,
            {| state := set_updates (<[thread_no := zero_connections]> (updates (state p))) (state p);
               threads := <[thread_no := at_claim]> (threads p) |})
  | Some at_barrier => None
  | None => None
  end.

Definition waiting (t : position) : bool :=
  match t with
  | at_barrier => true
  | _ => false
  end.

(** The step of the barrier: when every thread has arrived, the completion
    function runs, and its return lets all of them go. *)
Definition barrier_step (ds : dataset) (p : pool) : option (run pool) :=
  if forallb waiting (threads p) then
    Some (and_then (combine_updates ds (state p))
            (fun s => Continue {| state := s; threads := map (fun _ => at_reset) (threads p) |})
            (fun s => {| state := s; threads := threads p |}))
  else None.

(** A run of the threads alone, along a schedule of thread numbers and
    draws, with the labels it shows. *)
Fixpoint run_threads (ds : dataset) (schedule : list (nat * Z)) (p : pool) : option (list label * pool) :=
  match schedule with
  | [] => Some ([], p)
  | (thread_no, draw) :: rest =>
      match iterate_step ds thread_no draw p with
      | Some (l, p') =>
          match run_threads ds rest p' with
          | Some (ls, p'') => Some (l :: ls, p'')
          | None => None
          end
      | None => None
      end
  end.

End Net.

(** ** [create_ROC_curve] (lines 258-321) *)

Module ROC.
Import Process Data.
Local Open Scope R_scope.

Definition point_count : nat := Z.to_nat 10000.

(** Lines 271-275: the predictions of the simulated and of the real
    events, in the order of the data. *)
Fixpoint split_predictions (predictions : list R) (d : list sample) : list R * list R :=
  match predictions, d with
  | prediction :: predictions', e :: d' =>
      let (signal, background) := split_predictions predictions' d' in
      if bool_of_double (nth full_variable_count e 0)
      then (prediction :: signal, background)
      else (signal, prediction :: background)
  | _, _ => ([], [])
  end.

(** The variables of the loop of lines 292-308 and the points added to
    the graph. *)
Record curve : Type := {
  signal_predictions : list R;
  background_predictions : list R;
  area : R;
  prev_signal : R;
  prev_background : R;
  graph : list (R * R)
}.

(** One turn of the loop, for the index [i].  With no event in a class the
    code divides zero by zero; the quotient written here has no meaning
    then. *)
Definition add_point (orig_signal_count orig_background_count : R) (c : curve) (i : nat) : curve :=
  let cut := INR i / INR point_count in
  let signal := erase_if (fun v => Rltb v cut) (signal_predictions c) in
  let background := erase_if (fun v => Rltb v cut) (background_predictions c) in
  let next_signal := INR (length signal) / orig_signal_count in
  let next_background := INR (length background) / orig_background_count in
  {| signal_predictions := signal;
     background_predictions := background;
     area := area c + (prev_background c - next_background) * (next_signal + prev_signal c) / 2;
     prev_signal := next_signal;
     prev_background := next_background;
     graph := graph c ++ [(next_background, next_signal)] |}.

Definition first_curve (signal background : list R) : curve :=
  {| signal_predictions := signal; background_predictions := background;
     area := 0; prev_signal := 1; prev_background := 1; graph := [] |}.

(** [create_ROC_curve], up to the graph and the area written on it;
    drawing and saving the picture are left out. *)
Definition create_ROC_curve (predictions : list R) (d : list sample) : run curve :=
  if negb (length predictions =? length d)%nat then Exit 1 (first_curve [] [])
  else
    let (signal, background) := split_predictions predictions d in
    let orig_signal_count := INR (length signal) in
    let orig_background_count := INR (length background) in
    Continue (fold_left (add_point orig_signal_count orig_background_count)
                (seq 1 point_count) (first_curve signal background)).

End ROC.

(** ** The threads of [do_threaded] and [loop_threaded] (lines 48-88) *)

Module Loop.
Import Machine Process Data.

(** Where a thread stands in [do_next_index]: before the [fetch_add] of
    line 78; before the call [func(index)] of line 83 with the index it
    took; inside a call of [read_variable], past the lock and before the
    test of line 124; past the [break], where the thread has ended; or
    inside [std::exit], from which it does not come back. *)
Inductive place : Type :=
| at_fetch
| at_call (index : Z)
| at_test (index : Z)
| at_return
| at_exit.

(** [global_index], the threads [do_threaded] made, and what [func] works
    on. *)
Record workers (S : Type) : Type := {
  global_index : Z;
  loop_threads : list place;
  target : S
}.
Arguments Build_workers {S} _ _ _.
Arguments global_index {S} w.
Arguments loop_threads {S} w.
Arguments target {S} w.

(** [do_threaded(do_next_index)] with [global_index{0}]: [thread_count]
    threads, each at the top of its loop. *)
Definition start {S : Type} (thread_count : nat) (s : S) : workers S :=
  {| global_index := 0; loop_threads := repeat at_fetch thread_count; target := s |}.

(** Lines 78-81: [index = global_index.fetch_add(1)], then the test
    [index >= n]. *)
Definition fetch_add {S : Type} (n : Z) (thread_no : nat) (w : workers S) : workers S :=
  let index := global_index w in
  {| global_index := wrap 64 (index + 1);
     loop_threads :=
       <[thread_no := if (n <=? index)%Z then at_return else at_call index]> (loop_threads w);
     target := target w |}.

(** The return of [func(index)] to the top of the loop. *)
Definition returned {S : Type} (thread_no : nat) (s : S) (w : workers S) : workers S :=
  {| global_index := global_index w;
     loop_threads := <[thread_no := at_fetch]> (loop_threads w);
     target := s |}.

(** The call of [std::exit] inside [func(index)]: the thread stays there. *)
Definition exited {S : Type} (thread_no : nat) (s : S) (w : workers S) : workers S :=
  {| global_index := global_index w;
     loop_threads := <[thread_no := at_exit]> (loop_threads w);
     target := s |}.

(** A run of the threads along a schedule of thread numbers, with the
    indices [func] was called on, in the order of the calls; a call of
    [func] is one step of its thread.  A thread that has ended, or that is
    inside [std::exit], does nothing when its turn comes.  A call that ends
    the process leaves its thread inside [std::exit] and the others
    running: the rest of the schedule is what they still do before the
    process is gone. *)
Fixpoint run_workers {S : Type} (func : nat -> S -> run S) (n : Z) (schedule : list nat) (w : workers S) : run (workers S) * list nat :=
  match schedule with
  | [] => (Continue w, [])
  | thread_no :: rest =>
      match loop_threads w !! thread_no with
      | Some at_fetch => run_workers func n rest (fetch_add n thread_no w)
      | Some (at_call index) =>
          let i := Z.to_nat index in
          match func i (target w) with
          | Continue s =>
              let (r, calls) := run_workers func n rest (returned thread_no s w) in
              (r, i :: calls)
          | Exit status s =>
              let (r, calls) := run_workers func n rest (exited thread_no s w) in
              (exiting status r, i :: calls)
          | Undefined => (Undefined, [i])
          | Blocked => (Blocked, [i])
          end
      | _ => run_workers func n rest w
      end
  end.

(** The entry of a thread into [read_variable]: lines 115-122, which end
    with the release of [resize_lock]. *)
Definition past_lock (thread_no : nat) (index : Z) (s : loader) (w : workers loader) : workers loader :=
  {| global_index := global_index w;
     loop_threads := <[thread_no := at_test index]> (loop_threads w);
     target := s |}.

(** The threads of [loop_threaded(read_variable, full_variable_count)]
    (line 139), with a call of [read_variable] in two steps: the part under
    the lock, and the test of line 124 with what follows it.  Between the
    two steps of a thread the others may take theirs. *)
Fixpoint run_readers (f : file) (score : bool) (old_size : nat) (schedule : list nat) (w : workers loader) : run (workers loader) :=
  match schedule with
  | [] => Continue w
  | thread_no :: rest =>
      match loop_threads w !! thread_no with
      | Some at_fetch =>
          run_readers f score old_size rest
            (fetch_add (Z.of_nat full_variable_count) thread_no w)
      | Some (at_call index) =>
          run_readers f score old_size rest
            (past_lock thread_no index
               (resize_under_lock f old_size (Z.to_nat index) (target w)) w)
      | Some (at_test index) =>
          match test_and_store f score old_size (Z.to_nat index) (target w) with
          | Continue s => run_readers f score old_size rest (returned thread_no s w)
          | Exit status s =>
              exiting status (run_readers f score old_size rest (exited thread_no s w))
          | Undefined => Undefined
          | Blocked => Blocked
          end
      | _ => run_readers f score old_size rest w
      end
  end.

Definition ended (t : place) : bool :=
  match t with
  | at_return => true
  | _ => false
  end.

(** The destructors of the [std::jthread]s have joined every thread:
    [do_threaded] returns. *)
Definition joined {S : Type} (w : workers S) : bool := forallb ended (loop_threads w).

(** What is left of a run for the caller of [loop_threaded]. *)
Definition outcome {S : Type} (r : run (workers S)) : run S :=
  match r with
  | Continue w => Continue (target w)
  | Exit status w => Exit status (target w)
  | Undefined => Undefined
  | Blocked => Blocked
  end.

End Loop.

(** * Properties *)

Section ThreadCount.
Import Machine Threads.
Local Open Scope Z_scope.

Lemma u32_sub_one_pos hc : 1 <= hc < 2 ^ 32 -> u32_sub hc 1 = hc - 1.
Proof.
  intros H. unfold u32_sub, wrap. apply Z.mod_small. lia.
Qed.

Lemma u32_sub_one_zero : u32_sub 0 1 = 4294967295.
Proof. reflexivity. Qed.

(** C8: for every value [hc] that [hardware_concurrency()] can return, the
    pool size is the larger of 1 and [hc - 1], the subtraction being taken
    modulo 2^32 first: [hc - 1] for [hc >= 2], 1 for [hc = 1], and, because
    of the wrap, 4294967295 for [hc = 0]. *)
Theorem thread_count_spec (hc : Z) :
  0 <= hc < 2 ^ 32 ->
  thread_count hc = Z.max 1 ((hc - 1) mod 2 ^ 32)
  /\ 1 <= thread_count hc
  /\ (hc = 0 -> thread_count hc = 2 ^ 32 - 1)
  /\ (hc = 1 -> thread_count hc = 1)
  /\ (2 <= hc -> thread_count hc = hc - 1).
Proof.
  intros Hr. unfold thread_count, std_max.
  destruct (Z.eq_dec hc 0) as [-> | Hnz].
  - rewrite u32_sub_one_zero. cbn. repeat split; intros; lia.
  - rewrite u32_sub_one_pos by lia.
    rewrite (Z.mod_small (hc - 1)) by lia.
    destruct (1 <? hc - 1) eqn:E;
      [apply Z.ltb_lt in E | apply Z.ltb_ge in E];
      repeat split; intros; lia.
Qed.

Lemma thread_count_spec_witness :
  thread_count 8 = 7 /\ thread_count 0 = 4294967295.
Proof.
  split.
  - destruct (thread_count_spec 8 ltac:(lia)) as (_ & _ & _ & _ & H).
    rewrite H; lia.
  - destruct (thread_count_spec 0 ltac:(lia)) as (_ & _ & H & _).
    rewrite H; reflexivity.
Defined.

End ThreadCount.

(** ** Comparisons on [double] *)

Section Comparisons.
Import Data.
Local Open Scope R_scope.

Lemma Rltb_true x y : Rltb x y = true <-> x < y.
Proof. unfold Rltb. destruct (Rlt_dec x y); split; intros; try easy. Qed.

Lemma Rltb_false x y : Rltb x y = false <-> y <= x.
Proof.
  unfold Rltb. destruct (Rlt_dec x y); split; intros; try easy; lra.
Qed.

Lemma Reqb_true x y : Reqb x y = true <-> x = y.
Proof. unfold Reqb. destruct (Req_dec_T x y); split; intros; try easy. Qed.

Lemma Reqb_false x y : Reqb x y = false <-> x <> y.
Proof. unfold Reqb. destruct (Req_dec_T x y); split; intros; try easy. Qed.

Lemma double_of_bool_one b : double_of_bool b = 1 <-> b = true.
Proof. destruct b; cbn; split; intros; try easy; lra. Qed.

Lemma double_of_bool_zero b : double_of_bool b = 0 <-> b = false.
Proof. destruct b; cbn; split; intros; try easy; lra. Qed.

End Comparisons.

(** ** The label filter of [create_data] *)

Section LabelFilter.
Import Data.
Local Open Scope R_scope.

Definition score_of_sample (e : sample) : R := nth full_variable_count e 0.

Lemma erase_if_In {A : Type} (pred : A -> bool) (l : list A) (e : A) :
  In e (erase_if pred l) <-> In e l /\ pred e = false.
Proof.
  unfold erase_if. rewrite filter_In.
  destruct (pred e); cbn; intuition congruence.
Qed.

Lemma window_differs_false e :
  window_differs_from_score e = false <->
  double_of_bool (in_window e) = score_of_sample e.
Proof.
  unfold window_differs_from_score, score_of_sample.
  rewrite negb_false_iff. apply Reqb_true.
Qed.

(** C1, as amended: a sample survives the filter exactly when the truth
    value of "the discriminant is inside the window" equals its score; so a
    retained sample is inside the window if and only if its score is 1
    (simulated, signal), and outside if and only if its score is 0 (real,
    background). *)
Theorem filter_keeps_window_iff_signal (d : list sample) (e : sample) :
  In e (erase_if window_differs_from_score d) ->
  In e d
  /\ (in_window e = true <-> score_of_sample e = 1)
  /\ (in_window e = false <-> score_of_sample e = 0)
  /\ (in_window e = true <->
      Rabs (nth (full_variable_count - 1) e 0 - 5619.60) < 300.0).
Proof.
  rewrite erase_if_In, window_differs_false. intros [Hin Heq].
  split; [exact Hin |]. rewrite <- Heq.
  rewrite double_of_bool_one, double_of_bool_zero.
  split; [tauto |]. split; [tauto |]. apply Rltb_true.
Qed.

(** Samples whose window membership and score disagree are the ones
    dropped. *)
Lemma filter_drops_disagreeing (d : list sample) (e : sample) :
  In e d ->
  double_of_bool (in_window e) <> score_of_sample e ->
  ~ In e (erase_if window_differs_from_score d).
Proof.
  intros _ Hne. rewrite erase_if_In, window_differs_false. tauto.
Qed.

(** A simulated event at the centre of the window, and a real one there. *)
Definition signal_at_peak : sample :=
  [0; 0; 0; 0; 0; 0; 0; 0; 0; 0; 0; 0; 5619.60; 1].
Definition background_at_peak : sample :=
  [0; 0; 0; 0; 0; 0; 0; 0; 0; 0; 0; 0; 5619.60; 0].

Lemma peak_in_window e :
  nth (full_variable_count - 1) e 0 = 5619.60 -> in_window e = true.
Proof.
  intros H. unfold in_window. rewrite H. apply Rltb_true.
  replace (5619.60 - 5619.60) with 0 by lra. rewrite Rabs_R0. lra.
Qed.

Lemma signal_at_peak_kept :
  erase_if window_differs_from_score [signal_at_peak; background_at_peak]
  = [signal_at_peak].
Proof.
  unfold erase_if, List.filter.
  assert (Hs : window_differs_from_score signal_at_peak = false).
  { apply window_differs_false. rewrite peak_in_window by reflexivity.
    reflexivity. }
  assert (Hb : window_differs_from_score background_at_peak = true).
  { apply not_false_iff_true. rewrite window_differs_false.
    rewrite peak_in_window by reflexivity. cbn. lra. }
  rewrite Hs, Hb. reflexivity.
Qed.

(** C1 as stated does not hold: the retained sample [signal_at_peak] is
    inside the window and its label is not background (score 0); the
    background sample at the same place is the one dropped. *)
Lemma filter_keeps_window_iff_background_fails :
  ~ (forall (d : list sample) (e : sample),
       In e (erase_if window_differs_from_score d) ->
       (in_window e = true <-> score_of_sample e = 0)).
Proof.
  intros H.
  specialize (H [signal_at_peak; background_at_peak] signal_at_peak).
  rewrite signal_at_peak_kept in H.
  destruct (H (or_introl eq_refl)) as [H1 _].
  specialize (H1 (peak_in_window signal_at_peak eq_refl)).
  unfold score_of_sample in H1. cbn in H1. lra.
Qed.

Lemma filter_keeps_window_iff_signal_witness :
  In signal_at_peak
    (erase_if window_differs_from_score [signal_at_peak; background_at_peak])
  /\ (in_window signal_at_peak = true <-> score_of_sample signal_at_peak = 1).
Proof.
  assert (Hin : In signal_at_peak
    (erase_if window_differs_from_score [signal_at_peak; background_at_peak])).
  { rewrite signal_at_peak_kept. left. reflexivity. }
  split; [exact Hin |].
  exact (proj1 (proj2 (filter_keeps_window_iff_signal _ _ Hin))).
Defined.

End LabelFilter.

(** ** Loading: the consistency check of [read_variable] *)

Section Loading.
Import Process Data Loop.

Lemma exiting_not_continue {S : Type} (status : Z) (r : run S) (s : S) :
  exiting status r <> Continue s.
Proof. destruct r; discriminate. Qed.

Lemma loop_threaded_app {S : Type} (func : nat -> S -> run S) (pre post : list nat) (s s1 : S) :
  loop_threaded func pre s = Continue s1 ->
  loop_threaded func (pre ++ post) s = loop_threaded func post s1.
Proof.
  revert s. induction pre as [| i pre IH]; intros s H; cbn in *.
  - congruence.
  - destruct (func i s); try discriminate; [now apply IH |].
    now apply exiting_not_continue in H.
Qed.

Lemma loop_threaded_stops {S : Type} (func : nat -> S -> run S) (pre post : list nat) (i : nat) (s s1 s2 : S) (status : Z) :
  loop_threaded func pre s = Continue s1 ->
  func i s1 = Exit status s2 ->
  loop_threaded func (pre ++ i :: post) s = exiting status (loop_threaded func post s2).
Proof.
  intros Hpre Hi. rewrite (loop_threaded_app _ _ _ _ _ Hpre). cbn.
  now rewrite Hi.
Qed.


(** The block size a call of [read_variable] finds or establishes, and the
    test it makes on it. *)
Definition established (old_size : nat) (variables : list R) (d : list sample) : list sample :=
  if (length d =? old_size)%nat then resize d (old_size + length variables) else d.

Definition mismatch (f : file) (old_size variable_index : nat) (d : list sample) : Prop :=
  let variables := uncompress f (nth variable_index variable_names ""%string) in
  (old_size + length variables)%nat <> length (established old_size variables d).

Definition diagnostic (f : file) (old_size variable_index : nat) (d : list sample) : event :=
  let name := nth variable_index variable_names ""%string in
  let variables := uncompress f name in
  inconsistent_variable_counts (get_path f) old_size (length variables)
    (length (established old_size variables d)) name.

Lemma length_resize d n : (length d <= n)%nat -> length (resize d n) = n.
Proof.
  intros H. unfold resize.
  rewrite length_app, length_take, repeat_length. lia.
Qed.

Lemma mismatch_keeps_data f old_size variable_index d :
  mismatch f old_size variable_index d ->
  established old_size (uncompress f (nth variable_index variable_names ""%string)) d = d
  /\ length d <> old_size.
Proof.
  unfold mismatch, established. cbv zeta.
  destruct (Nat.eqb_spec (length d) old_size) as [E | E]; [| easy].
  intros H. exfalso. apply H. rewrite length_resize; lia.
Qed.

Lemma read_variable_mismatch f score old_size variable_index w :
  mismatch f old_size variable_index (data w) ->
  read_variable f score old_size variable_index w
  = Exit EXIT_FAILURE
      {| data := data w;
         output := output w ++ [diagnostic f old_size variable_index (data w)] |}.
Proof.
  intros H. destruct (mismatch_keeps_data _ _ _ _ H) as [Hd Hne].
  unfold mismatch in H. cbv zeta in H.
  unfold read_variable, diagnostic, established in *. cbv zeta.
  set (name := nth variable_index variable_names ""%string) in *.
  set (variables := uncompress f name) in *.
  apply Nat.eqb_neq in H. rewrite H. cbn [negb].
  unfold print. cbn [data output]. now rewrite Hd.
Qed.

(** A call of [read_variable] is its part under the lock followed by its
    test and what comes after it. *)
Lemma read_variable_parts f score old_size variable_index w :
  read_variable f score old_size variable_index w
  = test_and_store f score old_size variable_index
      (resize_under_lock f old_size variable_index w).
Proof. reflexivity. Qed.

(** What the calls of [read_variable] for the file [f] print: the line of a
    column read, or the diagnostic. *)
Definition column_event (f : file) (e : event) : Prop :=
  match e with
  | read_values _ _ _ => True
  | inconsistent_variable_counts path _ _ _ _ => path = get_path f
  | _ => False
  end.

(** The test and what follows it print one line, and either go on or end
    the process with [EXIT_FAILURE]. *)
Lemma test_and_store_total f score old_size variable_index w :
  exists w' e,
    (test_and_store f score old_size variable_index w = Continue w'
     \/ test_and_store f score old_size variable_index w = Exit EXIT_FAILURE w')
    /\ output w' = output w ++ [e]
    /\ column_event f e.
Proof.
  unfold test_and_store. cbv zeta.
  destruct (negb _); do 2 eexists.
  - split; [right; reflexivity |]. split; reflexivity.
  - split; [left; reflexivity |]. split; [reflexivity | exact I].
Qed.

Lemma read_columns_total f score old_size (order : list nat) :
  forall w,
    exists w' events,
      (loop_threaded (read_variable f score old_size) order w = Continue w'
       \/ loop_threaded (read_variable f score old_size) order w = Exit EXIT_FAILURE w')
      /\ output w' = output w ++ events
      /\ Forall (column_event f) events.
Proof.
  induction order as [| i order IH]; intros w.
  - exists w, []. split; [now left |]. split; [now rewrite app_nil_r | constructor].
  - cbn [loop_threaded]. rewrite read_variable_parts.
    destruct (test_and_store_total f score old_size i (resize_under_lock f old_size i w))
      as (w1 & e & Hcall & Hout1 & He).
    destruct (IH w1) as (w' & events & Hrest & Hout & Hev).
    exists w', (e :: events).
    split; [| split; [| now constructor]].
    + destruct Hcall as [-> | ->]; [exact Hrest |].
      right. destruct Hrest as [-> | ->]; reflexivity.
    + rewrite Hout, Hout1. cbn [resize_under_lock output].
      now rewrite <- app_assoc.
Qed.




(** A first file whose column [h1_P] holds one value where the others hold
    two; the threads take the variables in their order. *)
Definition uneven_env : environment :=
  {| open_file := fun path =>
       {| get_path := path;
          uncompress := fun name =>
            if String.eqb name "h1_P" then [1%R] else [1%R; 2%R] |};
     read_order := fun _ => seq 0 full_variable_count;
     normalize_order := seq 0 variable_count;
     shuffle := fun d => d |}.

Definition uneven_path : string := "../data/Lb2pKmm_mgUp_2018.root".

Definition uneven_start : loader :=
  print (reading_from_file uneven_path) {| data := []; output := [] |}.


(** Two threads on that file: the first has taken the first column and
    enlarged [data] by its two values, the second has taken [h1_P]; both
    are past the lock. *)
Definition uneven_readers : workers loader :=
  {| global_index := 2;
     loop_threads := [at_test 0; at_test 1];
     target := {| data := [zero_sample; zero_sample];
                  output := [reading_from_file uneven_path] |} |}.

Lemma uneven_readers_reached :
  run_readers (open_file uneven_env uneven_path) false 0 [0; 1; 0; 1]%nat
    (start 2 uneven_start)
  = Continue uneven_readers.
Proof. reflexivity. Qed.



End Loading.

(** ** Normalization *)

Section Normalization.
Import Process Data.
Local Open Scope R_scope.

(** The values of one variable over the dataset, and what it means for [M]
    to be their maximum, or their minimum. *)
Definition column (variable_index : nat) (d : list sample) : list R :=
  map (fun e => nth variable_index e 0) d.

Definition is_max (M : R) (l : list R) : Prop :=
  In M l /\ Forall (fun x => x <= M) l.

Definition is_min (m : R) (l : list R) : Prop :=
  In m l /\ Forall (fun x => m <= x) l.

Definition well_formed (d : list sample) : Prop :=
  Forall (fun e => length e = S full_variable_count) d.

Lemma is_max_unique M M' l : is_max M l -> is_max M' l -> M = M'.
Proof.
  intros [H1 H2] [H3 H4]. rewrite List.Forall_forall in H2, H4.
  apply H2 in H3. apply H4 in H1. lra.
Qed.

Lemma fold_max_spec {A : Type} (proj : A -> R) (rest : list A) (e : A) :
  let m := fold_left (fun best x => if Rlt_dec (proj best) (proj x) then x else best) rest e in
  (m = e \/ In m rest) /\ proj e <= proj m /\ Forall (fun x => proj x <= proj m) rest.
Proof.
  revert e. induction rest as [| x rest IH]; intros e; cbn.
  - repeat split; [now left | lra | constructor].
  - destruct (Rlt_dec (proj e) (proj x)) as [Hlt | Hge].
    + destruct (IH x) as (Hin & Hle & Hall). repeat split.
      * right. destruct Hin; [left; congruence | now right].
      * lra.
      * constructor; assumption.
    + destruct (IH e) as (Hin & Hle & Hall). repeat split.
      * destruct Hin; [now left | right; now right].
      * exact Hle.
      * constructor; [lra | assumption].
Qed.

Lemma ranges_max_spec {A : Type} (proj : A -> R) (r : list A) :
  r <> [] ->
  exists m, ranges_max proj r = Some m /\ is_max (proj m) (map proj r).
Proof.
  destruct r as [| e rest]; [easy | intros _]. cbn.
  eexists. split; [reflexivity |].
  destruct (fold_max_spec proj rest e) as (Hin & Hle & Hall).
  cbv zeta in *.
  set (m := fold_left _ rest e) in *. split.
  - destruct Hin as [-> | Hin]; [now left | right].
    apply in_map_iff. now exists m.
  - constructor; [exact Hle |]. rewrite List.Forall_forall in *.
    intros y Hy. apply in_map_iff in Hy as (x & <- & Hx). now apply Hall.
Qed.

Lemma nth_insert_same (e : sample) (i : nat) (v : R) :
  (i < length e)%nat -> nth i (<[i := v]> e) 0 = v.
Proof.
  revert i. induction e as [| x e IH]; intros [| i] H; cbn in *; try lia.
  - reflexivity.
  - apply IH. lia.
Qed.

Lemma nth_insert_other (e : sample) (i j : nat) (v : R) :
  i <> j -> nth j (<[i := v]> e) 0 = nth j e 0.
Proof.
  revert i j. induction e as [| x e IH]; intros [| i] [| j] H; cbn; try easy.
  apply IH. lia.
Qed.

Lemma normalize_variable_spec (i : nat) (d : list sample) (M : R) :
  well_formed d -> (i <= full_variable_count)%nat ->
  is_max M (column i d) ->
  exists d',
    normalize_variable i d = Continue d'
    /\ well_formed d'
    /\ column i d' = map (fun x => x / M) (column i d)
    /\ forall j, j <> i -> column j d' = column j d.
Proof.
  intros Hwf Hi HM.
  assert (Hne : d <> []) by (destruct HM as [H _]; now destruct d).
  destruct (ranges_max_spec (fun e => nth i e 0) d Hne) as (m & Hm & Hmax).
  unfold normalize_variable. rewrite Hm. cbv zeta.
  rewrite (is_max_unique _ _ _ Hmax HM).
  eexists. split; [reflexivity |]. unfold well_formed, column in *.
  split; [| split].
  - rewrite List.Forall_forall in *. intros e He.
    apply in_map_iff in He as (x & <- & Hx).
    rewrite length_insert. now apply Hwf.
  - rewrite !map_map. apply map_ext_in. intros e He.
    apply nth_insert_same. rewrite List.Forall_forall in Hwf.
    rewrite (Hwf _ He). lia.
  - intros j Hj. rewrite map_map. apply map_ext. intros e.
    apply nth_insert_other. congruence.
Qed.

Lemma column_has_max (i : nat) (d : list sample) :
  d <> [] -> exists M, is_max M (column i d).
Proof.
  intros Hne.
  destruct (ranges_max_spec (fun e => nth i e 0) d Hne) as (m & _ & Hmax).
  now exists (nth i m 0).
Qed.

Lemma column_nil_iff (i : nat) (d : list sample) : column i d = [] <-> d = [].
Proof. unfold column. destruct d; cbn; split; intros; congruence. Qed.

(** The whole loop: whatever the order in which the variables are taken,
    each variable of the order is divided by its own maximum, and the other
    positions of the samples are left alone. *)
Lemma normalize_loop_spec (order : list nat) (d : list sample) :
  well_formed d -> d <> [] -> List.NoDup order ->
  Forall (fun i => (i <= full_variable_count)%nat) order ->
  exists d',
    loop_threaded normalize_variable order d = Continue d'
    /\ well_formed d'
    /\ d' <> []
    /\ (forall i M, In i order -> is_max M (column i d) ->
          column i d' = map (fun x => x / M) (column i d))
    /\ (forall j, ~ In j order -> column j d' = column j d).
Proof.
  revert d. induction order as [| i order IH]; intros d Hwf Hne Hnd Hr.
  - exists d. cbn. repeat split; try assumption; easy.
  - inversion Hnd as [| ? ? Hni Hnd']; subst.
    inversion Hr as [| ? ? Hi Hr']; subst.
    destruct (column_has_max i d Hne) as (Mi & HMi).
    destruct (normalize_variable_spec i d Mi Hwf Hi HMi)
      as (d1 & Hrun & Hwf1 & Hcol & Hother).
    assert (Hne1 : d1 <> []).
    { intros ->. apply Hne. apply (column_nil_iff i).
      apply (f_equal (@length R)) in Hcol. rewrite length_map in Hcol.
      now destruct (column i d). }
    destruct (IH d1 Hwf1 Hne1 Hnd' Hr') as (d' & Hloop & Hwf' & Hne' & Hin & Hout).
    exists d'. cbn. rewrite Hrun. repeat split; try assumption.
    + intros j M [<- | Hj] HM.
      * rewrite (Hout i Hni), Hcol. now rewrite (is_max_unique _ _ _ HM HMi).
      * assert (j <> i) by (intros ->; contradiction).
        rewrite <- (Hother j H) in HM |- *. now apply Hin.
    + intros j Hj. cbn in Hj.
      rewrite Hout by tauto. apply Hother. intros ->. tauto.
Qed.

Lemma is_max_div_pos (M : R) (l : list R) :
  is_max M l -> 0 < M -> is_max 1 (map (fun x => x / M) l).
Proof.
  intros [Hin Hall] HM. split.
  - apply in_map_iff. exists M. split; [field; lra | assumption].
  - rewrite List.Forall_forall in *. intros y Hy.
    apply in_map_iff in Hy as (x & <- & Hx). apply Hall in Hx.
    apply Rmult_le_reg_r with M; [lra |].
    unfold Rdiv. rewrite Rmult_assoc, Rinv_l by lra. lra.
Qed.

Lemma is_max_div_neg (M : R) (l : list R) :
  is_max M l -> M < 0 -> is_min 1 (map (fun x => x / M) l).
Proof.
  intros [Hin Hall] HM. split.
  - apply in_map_iff. exists M. split; [field; lra | assumption].
  - rewrite List.Forall_forall in *. intros y Hy.
    apply in_map_iff in Hy as (x & <- & Hx). apply Hall in Hx.
    apply Rmult_le_reg_r with (- M); [lra |].
    unfold Rdiv. replace (x * / M * - M) with (- x * (/ M * M)) by ring.
    rewrite Rinv_l by lra. lra.
Qed.

(** C4, as amended: after the normalization loop, whatever the order of its
    tasks, every value of every model-input variable has been divided by
    the maximum [M] that variable had over the dataset (sign kept); when
    [M] is positive the maximum of the variable is then exactly 1, and when
    [M] is negative it is the minimum that is exactly 1.  The discriminant
    and the score are not touched. *)
Theorem normalization_divides_by_maximum
    (order : list nat) (d : list sample) (i : nat) (M : R) :
  well_formed d ->
  Permutation order (seq 0 variable_count) ->
  (i < variable_count)%nat ->
  is_max M (column i d) ->
  M <> 0 ->
  exists d',
    loop_threaded normalize_variable order d = Continue d'
    /\ length d' = length d
    /\ column i d' = map (fun x => x / M) (column i d)
    /\ (0 < M -> is_max 1 (column i d'))
    /\ (M < 0 -> is_min 1 (column i d'))
    /\ column (full_variable_count - 1) d' = column (full_variable_count - 1) d
    /\ column full_variable_count d' = column full_variable_count d.
Proof.
  intros Hwf Hperm Hi HM Hnz.
  assert (Hne : d <> []) by (destruct HM as [H _]; now destruct d).
  assert (Hnd : List.NoDup order).
  { apply (Permutation_NoDup (Permutation_sym Hperm)), seq_NoDup. }
  assert (Hmem : forall j, In j order <-> (j < variable_count)%nat).
  { intros j. split; intros H.
    - apply (Permutation_in _ Hperm), in_seq in H. lia.
    - apply (Permutation_in _ (Permutation_sym Hperm)), in_seq. lia. }
  assert (Hr : Forall (fun j => (j <= full_variable_count)%nat) order).
  { apply List.Forall_forall. intros j Hj. apply Hmem in Hj.
    unfold variable_count in Hj. lia. }
  destruct (normalize_loop_spec order d Hwf Hne Hnd Hr)
    as (d' & Hloop & _ & _ & Hin & Hout).
  assert (Hcol : column i d' = map (fun x => x / M) (column i d))
    by (apply Hin; [now apply Hmem | assumption]).
  exists d'. repeat split.
  - exact Hloop.
  - apply (f_equal (@length R)) in Hcol.
    unfold column in Hcol. now rewrite !length_map in Hcol.
  - exact Hcol.
  - rewrite Hcol. now apply is_max_div_pos.
  - rewrite Hcol. now apply is_max_div_pos.
  - rewrite Hcol. now apply is_max_div_neg.
  - rewrite Hcol. now apply is_max_div_neg.
  - apply Hout. rewrite Hmem. unfold variable_count. lia.
  - apply Hout. rewrite Hmem. unfold variable_count, full_variable_count. cbn. lia.
Qed.

(** Two samples whose first variable is negative throughout, and two whose
    first variable is positive; every other variable is 1. *)
Definition negative_data : list sample :=
  [ [-1; 1; 1; 1; 1; 1; 1; 1; 1; 1; 1; 1; 5000; 0];
    [-2; 1; 1; 1; 1; 1; 1; 1; 1; 1; 1; 1; 5000; 0] ].

Definition positive_data : list sample :=
  [ [1; 1; 1; 1; 1; 1; 1; 1; 1; 1; 1; 1; 5000; 0];
    [2; 1; 1; 1; 1; 1; 1; 1; 1; 1; 1; 1; 5000; 0] ].

Lemma negative_data_well_formed : well_formed negative_data.
Proof. repeat constructor. Qed.

Lemma negative_data_max : is_max (-1) (column 0 negative_data).
Proof.
  cbv [column negative_data map nth].
  split; [now left |].
  constructor; [lra |]. constructor; [lra |]. constructor.
Qed.

(** C4 as stated does not hold: the first variable of [negative_data] has
    maximum -1; the loop divides by it, the values become 1 and 2, and the
    maximum after normalization is 2. *)
Lemma normalized_maximum_not_one :
  exists d',
    loop_threaded normalize_variable (seq 0 variable_count) negative_data = Continue d'
    /\ column 0 d' = [1; 2]
    /\ ~ is_max 1 (column 0 d').
Proof.
  destruct (normalize_loop_spec (seq 0 variable_count) negative_data)
    as (d' & Hloop & _ & _ & Hin & _).
  - exact negative_data_well_formed.
  - discriminate.
  - apply seq_NoDup.
  - apply List.Forall_forall. intros j Hj. apply in_seq in Hj.
    unfold variable_count in Hj. lia.
  - exists d'. split; [exact Hloop |].
    assert (Hcol : column 0 d' = [1; 2]).
    { rewrite (Hin 0%nat (-1)); [| apply in_seq; cbn; lia | exact negative_data_max].
      cbn. f_equal; [| f_equal]; field. }
    split; [exact Hcol |]. rewrite Hcol. intros [_ Hall].
    inversion Hall as [| ? ? _ Hall']; subst.
    inversion Hall' as [| ? ? H2 _]; subst. lra.
Qed.

Lemma normalization_divides_by_maximum_witness :
  is_max 2 (column 0 positive_data)
  /\ exists d',
      loop_threaded normalize_variable (seq 0 variable_count) positive_data = Continue d'
      /\ column 0 d' = map (fun x => x / 2) (column 0 positive_data)
      /\ is_max 1 (column 0 d').
Proof.
  assert (Hmax : is_max 2 (column 0 positive_data)).
  { cbv [column positive_data map nth].
    split; [right; now left |].
    constructor; [lra |]. constructor; [lra |]. constructor. }
  split; [exact Hmax |].
  destruct (normalization_divides_by_maximum (seq 0 variable_count) positive_data 0 2)
    as (d' & Hloop & _ & Hcol & Hpos & _).
  - repeat constructor.
  - reflexivity.
  - cbn. lia.
  - exact Hmax.
  - lra.
  - exists d'. repeat split; try assumption; apply Hpos; lra.
Defined.

End Normalization.

(** ** The shifted logistic and its derivative *)

Section Logistic.
Import Activation.
Local Open Scope R_scope.

Lemma literal_half : 0.5 = / 2.
Proof. lra. Qed.

Lemma literal_one : 1.0 = 1.
Proof. lra. Qed.

Lemma pow_2 x : Activation.pow 2 x = x * x.
Proof. cbn. ring. Qed.

Lemma logistic_closed x : logistic x = exp x / (1 + exp x) - / 2.
Proof.
  unfold logistic. rewrite exp_Ropp, literal_half, literal_one.
  pose proof (exp_pos x). field. split; lra.
Qed.

Lemma derivative_logistic_closed x :
  derivative_logistic x = exp x / (1 + exp x) ^ 2.
Proof.
  unfold derivative_logistic. cbv zeta. rewrite pow_2, literal_one.
  pose proof (exp_pos x). field. lra.
Qed.

Lemma logistic_bounds x : - / 2 < logistic x < / 2.
Proof.
  rewrite logistic_closed. pose proof (exp_pos x) as He.
  assert (0 < exp x / (1 + exp x) < 1).
  { split.
    - apply Rdiv_lt_0_compat; lra.
    - apply Rmult_lt_reg_r with (1 + exp x); [lra |].
      unfold Rdiv. rewrite Rmult_assoc, Rinv_l by lra. lra. }
  lra.
Qed.

(** The quotient rule on [exp / (1 + exp) - 1/2], then the closed form of
    [logistic] at every point near [x]. *)
Lemma logistic_derivable x :
  derivable_pt_lim logistic x (derivative_logistic x).
Proof.
  pose proof (exp_pos x) as Hx.
  set (g := (exp / (fct_cte 1 + exp) - fct_cte (/ 2))%F).
  assert (Hg : derivable_pt_lim g x (derivative_logistic x)).
  { unfold g.
    replace (derivative_logistic x)
      with ((exp x * (fct_cte 1 + exp)%F x - (0 + exp x) * exp x)
            / Rsqr ((fct_cte 1 + exp)%F x) - 0).
    - apply derivable_pt_lim_minus.
      + apply derivable_pt_lim_div.
        * apply derivable_pt_lim_exp.
        * apply derivable_pt_lim_plus;
            [apply derivable_pt_lim_const | apply derivable_pt_lim_exp].
        * unfold plus_fct, fct_cte. lra.
      + apply derivable_pt_lim_const.
    - rewrite derivative_logistic_closed.
      unfold plus_fct, fct_cte, Rsqr. field. lra. }
  intros eps Heps. destruct (Hg eps Heps) as [delta Hd].
  exists delta. intros h Hh Hlt. specialize (Hd h Hh Hlt).
  unfold g, minus_fct, div_fct, plus_fct, fct_cte in Hd.
  rewrite !logistic_closed. exact Hd.
Qed.

(** C9: for every real [x], the derivative computed from the output,
    [derivative_logistic_from_logistic (logistic x)], is
    [derivative_logistic x], which is [e^x / (1 + e^x)^2], the derivative
    of [logistic] at [x]. *)
Theorem derivative_from_logistic_agrees (x : R) :
  derivative_logistic_from_logistic (logistic x) = derivative_logistic x
  /\ derivative_logistic x = exp x / (1 + exp x) ^ 2
  /\ derivable_pt_lim logistic x (derivative_logistic x).
Proof.
  split; [| split].
  - rewrite derivative_logistic_closed, logistic_closed.
    unfold derivative_logistic_from_logistic. rewrite literal_half.
    pose proof (exp_pos x). field. lra.
  - apply derivative_logistic_closed.
  - apply logistic_derivable.
Qed.

End Logistic.

(** ** The forward pass *)

Section Forward.
Import Data Activation Net.
Local Open Scope R_scope.

Definition sum_of (l : list R) : R := fold_right Rplus 0 l.

Lemma fold_nth_sum (l pre : list R) (acc : R) :
  fold_left (fun a k => a + nth k (pre ++ l) 0) (seq (length pre) (length l)) acc
  = acc + sum_of l.
Proof.
  revert pre acc. induction l as [| x l IH]; intros pre acc; cbn [length seq fold_left].
  - unfold sum_of. cbn. lra.
  - rewrite app_nth2, Nat.sub_diag by lia. cbn [nth].
    replace (pre ++ x :: l) with ((pre ++ [x]) ++ l) by now rewrite <- app_assoc.
    replace (S (length pre)) with (length (pre ++ [x])) by (rewrite length_app; cbn; lia).
    rewrite IH. unfold sum_of. cbn [fold_right]. lra.
Qed.

Lemma accumulate_sum (l : list R) :
  length l = variable_count -> accumulate (fun i => nth i l 0) = sum_of l.
Proof.
  intros H. unfold accumulate. rewrite <- H.
  pose proof (fold_nth_sum l [] 0) as Hs. cbn [app length] in Hs.
  rewrite Hs. lra.
Qed.

Lemma length_tabulate {A : Type} (n : nat) (f : nat -> A) : length (tabulate n f) = n.
Proof. unfold tabulate. now rewrite length_map, length_seq. Qed.

Lemma back_forward (c : connections_t) (e : sample) :
  exists previous,
    back (forward c e) = next_nodes (nth (depth - 2) c []) previous.
Proof. eexists. reflexivity. Qed.

Lemma length_back_forward (c : connections_t) (e : sample) :
  length (back (forward c e)) = variable_count.
Proof.
  destruct (back_forward c e) as [previous ->].
  unfold next_nodes. apply length_tabulate.
Qed.

(** Every node after the input row lies strictly between -1/2 and 1/2. *)
Lemma back_forward_bounds (c : connections_t) (e : sample) :
  Forall (fun x => - / 2 < x < / 2) (back (forward c e)).
Proof.
  destruct (back_forward c e) as [previous ->].
  unfold next_nodes, tabulate. apply List.Forall_forall. intros x Hx.
  apply in_map_iff in Hx as (j & <- & _). apply logistic_bounds.
Qed.

Lemma logistic_increasing x y : x < y -> logistic x < logistic y.
Proof.
  intros H. rewrite !logistic_closed.
  pose proof (exp_pos x). pose proof (exp_pos y).
  pose proof (exp_increasing x y H).
  assert (exp x / (1 + exp x) < exp y / (1 + exp y)); [| lra].
  apply Rmult_lt_reg_r with ((1 + exp x) * (1 + exp y)); [nra |].
  replace (exp x / (1 + exp x) * ((1 + exp x) * (1 + exp y)))
    with (exp x * (1 + exp y)) by (field; lra).
  replace (exp y / (1 + exp y) * ((1 + exp x) * (1 + exp y)))
    with (exp y * (1 + exp x)) by (field; lra).
  nra.
Qed.

Lemma sum_of_bounds (l : list R) :
  l <> [] -> Forall (fun x => - / 2 < x < / 2) l ->
  - INR (length l) / 2 < sum_of l < INR (length l) / 2.
Proof.
  intros Hne Hall.
  assert (H : - INR (length l) / 2 <= sum_of l <= INR (length l) / 2
              /\ (l <> [] -> - INR (length l) / 2 < sum_of l < INR (length l) / 2)).
  { clear Hne. induction Hall as [| x l Hx Hall [IH1 IH2]].
    - cbn. split; [lra | easy].
    - change (sum_of (x :: l)) with (x + sum_of l).
      change (length (x :: l)) with (S (length l)). rewrite S_INR.
      split; [lra | intros _; lra]. }
  now apply H.
Qed.

(** C5: for every sample and every value of [connections], the score of
    the forward pass is the shifted logistic of the sum of the
    [variable_count] nodes of the last row, plus 0.5, and it lies strictly
    between 0 and 1.  More precisely the sum lies strictly between
    [- variable_count / 2] and [variable_count / 2], and the score between
    the values of the logistic there. *)
Theorem score_is_logistic_of_sum (c : connections_t) (e : sample) :
  let last_row := back (forward c e) in
  let W := INR variable_count in
  length last_row = variable_count
  /\ score_of (forward c e) = logistic (sum_of last_row) + 0.5
  /\ logistic (sum_of last_row) = 1 / (1 + exp (- sum_of last_row)) - 0.5
  /\ 0 < score_of (forward c e) < 1
  /\ - W / 2 < sum_of last_row < W / 2
  /\ logistic (- W / 2) + 0.5 < score_of (forward c e) < logistic (W / 2) + 0.5.
Proof.
  intros last_row W.
  assert (Hlen : length last_row = variable_count) by apply length_back_forward.
  assert (Hscore : score_of (forward c e) = logistic (sum_of last_row) + 0.5).
  { unfold score_of. fold last_row. now rewrite accumulate_sum. }
  assert (Hsum : - W / 2 < sum_of last_row < W / 2).
  { unfold W. rewrite <- Hlen. apply sum_of_bounds.
    - intros H. rewrite H in Hlen. discriminate.
    - apply back_forward_bounds. }
  split; [exact Hlen |]. split; [exact Hscore |]. split; [| split; [| split]].
  - unfold logistic. now rewrite !literal_one.
  - rewrite Hscore, literal_half.
    pose proof (logistic_bounds (sum_of last_row)). lra.
  - exact Hsum.
  - rewrite Hscore.
    pose proof (logistic_increasing _ _ (proj1 Hsum)).
    pose proof (logistic_increasing _ _ (proj2 Hsum)). lra.
Qed.

End Forward.

(** ** The histogram *)

Section HistogramBounds.
Import Process Data Histogram.
Local Open Scope R_scope.

Lemma truncate_nonneg (x : R) (z : Z) :
  0 <= x -> IZR z <= x < IZR z + 1 -> truncate x = z.
Proof.
  intros Hx Hz. unfold truncate.
  destruct (Rle_dec 0 x) as [_ | H]; [| contradiction].
  symmetry. apply Int_part_spec. lra.
Qed.

Lemma size_of_double_nat (x : R) (n : nat) :
  (Z.of_nat n < 2 ^ 64)%Z -> INR n <= x < INR n + 1 ->
  size_of_double x = Some n.
Proof.
  intros Hn Hx. unfold size_of_double. cbv zeta.
  rewrite INR_IZR_INZ in Hx.
  assert (0 <= x) by (pose proof (IZR_le 0 (Z.of_nat n) ltac:(lia)); lra).
  rewrite (truncate_nonneg x (Z.of_nat n)) by assumption.
  destruct (Z.leb_spec 0 (Z.of_nat n)); [| lia].
  destruct (Z.ltb_spec (Z.of_nat n) (2 ^ 64)); [| lia].
  cbn [andb]. now rewrite Nat2Z.id.
Qed.

Lemma INR_bucket_count : INR bucket_count = 1000.
Proof. rewrite INR_IZR_INZ. reflexivity. Qed.

(** The bucket of a prediction in [0, 1): the integer part of a thousand
    times the prediction, which is below 1000. *)
Lemma bucket_of_unit_interval (p : R) :
  0 <= p < 1 ->
  exists b, bucket_of p = Some b /\ (b < bucket_count)%nat
            /\ INR b <= p * 1000 < INR b + 1.
Proof.
  intros Hp. unfold bucket_of. rewrite INR_bucket_count.
  set (x := p * 1000). assert (Hx : 0 <= x < 1000) by (unfold x; lra).
  destruct (base_Int_part x) as [Hlo Hhi].
  assert (Hz : (0 <= Int_part x < 1000)%Z).
  { split.
    - apply le_IZR. apply Rnot_lt_le. intros Hneg.
      assert (IZR (Int_part x) <= -1)
        by (apply IZR_le; apply lt_IZR in Hneg; lia).
      lra.
    - apply lt_IZR. lra. }
  exists (Z.to_nat (Int_part x)).
  assert (Hb : INR (Z.to_nat (Int_part x)) = IZR (Int_part x))
    by (rewrite INR_IZR_INZ, Z2Nat.id; [reflexivity | lia]).
  split; [| split].
  - apply size_of_double_nat; [rewrite Z2Nat.id; lia | rewrite Hb; lra].
  - unfold bucket_count. lia.
  - rewrite Hb. lra.
Qed.

Lemma bucket_of_one : bucket_of 1 = Some bucket_count.
Proof.
  unfold bucket_of. apply size_of_double_nat.
  - unfold bucket_count. lia.
  - rewrite INR_bucket_count. lra.
Qed.

Lemma size_of_double_score (x : R) :
  x = 0 \/ x = 1 -> exists t, size_of_double x = Some t /\ (t < 2)%nat.
Proof.
  intros [-> | ->].
  - exists 0%nat. split; [apply size_of_double_nat; cbn; try lia; lra | lia].
  - exists 1%nat. split; [apply size_of_double_nat; cbn; try lia; lra | lia].
Qed.

Lemma fill_in_bounds (fb : R) (predictions : list R) (d : list sample) (h : histogram_t) :
  Forall (fun p => 0 <= p < 1) predictions ->
  Forall (fun e => nth full_variable_count e 0 = 0 \/ nth full_variable_count e 0 = 1) d ->
  exists h', fill fb h predictions d = Continue h'.
Proof.
  intros Hp. revert d h.
  induction Hp as [| p predictions Hp0 Hp IH]; intros d h Hd.
  - exists h. reflexivity.
  - destruct Hd as [| e d He Hd]; [exists h; reflexivity |].
    cbn [fill]. unfold add_prediction. cbv zeta.
    destruct (bucket_of_unit_interval p Hp0) as (b & -> & Hb & _).
    destruct (size_of_double_score _ He) as (t & -> & Ht).
    apply Nat.ltb_lt in Hb, Ht. rewrite Hb, Ht. cbn [andb].
    apply IH, Hd.
Qed.

(** C10: when every prediction lies in [0, 1), every bucket index of
    [create_histogram] is below [bucket_count] = 1000, and (the scores of
    the samples being 0 or 1) the loop makes no access outside the
    histogram; the prediction 1.0 gives the index 1000, one past the end,
    and the call then has no defined result. *)
Theorem histogram_buckets_in_bounds (predictions : list R) (d : list sample) :
  Forall (fun p => 0 <= p < 1) predictions ->
  Forall (fun p => exists b, bucket_of p = Some b /\ (b < bucket_count)%nat
                             /\ INR b <= p * 1000 < INR b + 1) predictions
  /\ (length predictions = length d ->
      Forall (fun e => nth full_variable_count e 0 = 0 \/ nth full_variable_count e 0 = 1) d ->
      exists h, create_histogram predictions d = Continue h)
  /\ bucket_of 1 = Some bucket_count
  /\ (forall e, create_histogram [1] [e] = Undefined).
Proof.
  intros Hp. split; [| split; [| split]].
  - apply List.Forall_forall. intros p Hin.
    apply bucket_of_unit_interval.
    rewrite List.Forall_forall in Hp. now apply Hp.
  - intros Hlen Hd. unfold create_histogram.
    apply Nat.eqb_eq in Hlen. rewrite Hlen. cbn [negb].
    now apply fill_in_bounds.
  - apply bucket_of_one.
  - intros e. unfold create_histogram. cbn [length Nat.eqb negb fill].
    unfold add_prediction. cbv zeta. rewrite bucket_of_one.
    destruct (size_of_double (nth full_variable_count e 0));
      [rewrite Nat.ltb_irrefl |]; reflexivity.
Qed.

Definition two_samples : list sample :=
  [ [0; 0; 0; 0; 0; 0; 0; 0; 0; 0; 0; 0; 5000; 0];
    [0; 0; 0; 0; 0; 0; 0; 0; 0; 0; 0; 0; 5600; 1] ].

Lemma histogram_buckets_in_bounds_witness :
  Forall (fun p => 0 <= p < 1) [0; 0.9995]
  /\ exists h, create_histogram [0; 0.9995] two_samples = Continue h.
Proof.
  assert (Hp : Forall (fun p => 0 <= p < 1) [0; 0.9995]).
  { constructor; [lra |]. constructor; [lra |]. constructor. }
  split; [exact Hp |].
  destruct (histogram_buckets_in_bounds [0; 0.9995] two_samples Hp) as (_ & H & _).
  apply H; [reflexivity |].
  constructor; [now left |]. constructor; [now right |]. constructor.
Defined.

End HistogramBounds.

(** ** Train mode: taking a sample from the budget *)

Section TrainClaim.
Import Machine Process Data Net.
Local Open Scope Z_scope.

Lemma swrap_small (x : Z) : - 2 ^ 63 <= x < 2 ^ 63 -> swrap 64 x = x.
Proof.
  intros H. unfold swrap.
  change (2 ^ (64 - 1)) with (2 ^ 63). change (2 ^ 64) with (2 * 2 ^ 63).
  rewrite Z.mod_small; lia.
Qed.

Lemma wrap_small (x : Z) : 0 <= x < 2 ^ 64 -> wrap 64 x = x.
Proof. intros H. unfold wrap. now apply Z.mod_small. Qed.

Lemma train_claim (ds : dataset) (draw : Z) (s : shared) :
  train s = true ->
  claim_index ds draw s
  = (if reps s <=? 0 then leave else work draw, set_reps (ptrdiff_sub (reps s) 1) s).
Proof.
  intros Ht. unfold claim_index. rewrite Ht. cbv zeta.
  now destruct (reps s <=? 0).
Qed.

(** C3, as amended: in Train mode a thread at the top of its inner loop
    subtracts 1 from [reps], which wraps from the least value of its type
    to the greatest, and looks at the value [reps] had before the
    subtraction ([fetch_sub] returns it).  It goes on to the forward and
    backward pass on the drawn index if and only if that earlier value is
    greater than 0; unless the earlier value was the least one, -2^63, that
    is the case if and only if the value left in [reps] is at least 0.
    Otherwise it goes to the barrier, where it has no further step of its
    own.  The pass adds the gradient of the drawn sample to the buffer of
    the thread and changes nothing else. *)
Theorem train_step_tests_value_before_decrement
    (ds : dataset) (thread_no : nat) (draw : Z) (p : pool) :
  train (state p) = true ->
  threads p !! thread_no = Some at_claim ->
  - 2 ^ 63 <= reps (state p) < 2 ^ 63 ->
  exists p',
    iterate_step ds thread_no draw p = Some (silent, p')
    /\ reps (state p') = ptrdiff_sub (reps (state p)) 1
    /\ (- 2 ^ 63 < reps (state p) -> reps (state p') = reps (state p) - 1)
    /\ (reps (state p) = - 2 ^ 63 -> reps (state p') = 2 ^ 63 - 1)
    /\ (threads p' !! thread_no = Some (at_work draw) <-> 0 < reps (state p))
    /\ (- 2 ^ 63 < reps (state p) ->
        (threads p' !! thread_no = Some (at_work draw) <-> 0 <= reps (state p')))
    /\ (threads p' !! thread_no = Some at_barrier <-> reps (state p) <= 0)
    /\ (threads p' !! thread_no = Some at_barrier ->
        forall draw', iterate_step ds thread_no draw' p' = None)
    /\ (threads p' !! thread_no = Some (at_work draw) ->
        exists p'',
          iterate_step ds thread_no draw p' = Some (silent, p'')
          /\ threads p'' !! thread_no = Some at_claim
          /\ state p'' = process_index ds thread_no draw (state p')
          /\ connections (state p'') = connections (state p')
          /\ reps (state p'') = reps (state p')).
Proof.
  intros Ht Hpos Hr. unfold iterate_step. rewrite Hpos, (train_claim _ _ _ Ht).
  assert (Hlt : (thread_no < length (threads p))%nat)
    by (apply lookup_lt_is_Some; eauto).
  assert (Hsub : - 2 ^ 63 < reps (state p) ->
                 ptrdiff_sub (reps (state p)) 1 = reps (state p) - 1)
    by (intros Hmin; unfold ptrdiff_sub; apply swrap_small; lia).
  assert (Hwrap : reps (state p) = - 2 ^ 63 ->
                  ptrdiff_sub (reps (state p)) 1 = 2 ^ 63 - 1)
    by (intros ->; reflexivity).
  destruct (Z.leb_spec (reps (state p)) 0) as [Hle | Hgt];
    (eexists; split; [reflexivity |]); cbn [state threads set_reps reps];
    rewrite list_lookup_insert_eq by exact Hlt.
  - split; [reflexivity |]. split; [exact Hsub |]. split; [exact Hwrap |].
    split; [split; [discriminate | lia] |].
    split; [intros Hmin; rewrite (Hsub Hmin); split; [discriminate | lia] |].
    split; [split; [lia | reflexivity] |].
    split; [| discriminate].
    intros _ draw'. reflexivity.
  - split; [reflexivity |]. split; [exact Hsub |]. split; [exact Hwrap |].
    split; [split; [lia | reflexivity] |].
    split; [intros Hmin; rewrite (Hsub Hmin); split; [lia | reflexivity] |].
    split; [split; [discriminate | lia] |].
    split; [discriminate |].
    intros _. unfold process_index, set_reps. cbn [train]. rewrite Ht.
    eexists. split; [reflexivity |]. cbn [state threads].
    rewrite list_lookup_insert_eq by (now rewrite length_insert).
    repeat split.
Qed.

(** Ten samples after the filter and the normalization, half of them
    real. *)
Definition ten : dataset :=
  {| samples :=
       repeat [1; 1; 1; 1; 1; 1; 1; 1; 1; 1; 1; 1; 5000; 0]%R 5
       ++ repeat [1; 1; 1; 1; 1; 1; 1; 1; 1; 1; 1; 1; 5619.60; 1]%R 5;
     fraction_background := 0.5%R |}.

(** One thread at the top of its inner loop, one sample left in the budget. *)
Definition one_left : pool :=
  {| state := set_reps 1 (initial ten 1 zero_connections []);
     threads := [at_claim] |}.

Lemma one_left_step (draw : Z) :
  iterate_step ten 0 draw one_left
  = Some (silent,
          {| state := set_reps 0 (initial ten 1 zero_connections []);
             threads := [at_work draw] |}).
Proof. reflexivity. Qed.

(** C3 as stated does not hold: with 1 in [reps] the subtraction leaves 0,
    which is not greater than 0, and the thread goes on to the forward and
    backward pass on the sample it drew. *)
Lemma train_step_works_when_decrement_leaves_zero :
  exists p',
    iterate_step ten 0 3 one_left = Some (silent, p')
    /\ reps (state p') = 0
    /\ threads p' !! 0%nat = Some (at_work 3)
    /\ ~ (threads p' !! 0%nat = Some (at_work 3) <-> 0 < reps (state p')).
Proof.
  eexists. split; [apply one_left_step |]. cbn [state threads set_reps reps].
  split; [reflexivity |]. split; [reflexivity |].
  intros [H _]. specialize (H eq_refl). lia.
Qed.

(** One thread at the top of its inner loop, [reps] at the least value of
    its type. *)
Definition at_least_value : pool :=
  {| state := set_reps (- 2 ^ 63) (initial ten 1 zero_connections []);
     threads := [at_claim] |}.

Lemma train_step_tests_value_before_decrement_witness :
  (exists p',
     iterate_step ten 0 3 one_left = Some (silent, p')
     /\ reps (state p') = 0
     /\ (threads p' !! 0%nat = Some (at_work 3) <-> 0 <= reps (state p')))
  /\ (exists p',
        iterate_step ten 0 3 at_least_value = Some (silent, p')
        /\ reps (state p') = 2 ^ 63 - 1
        /\ threads p' !! 0%nat = Some at_barrier).
Proof.
  assert (Hone : - 2 ^ 63 <= 1 < 2 ^ 63) by lia.
  assert (Hleast : - 2 ^ 63 <= - 2 ^ 63 < 2 ^ 63) by lia.
  assert (Hin : - 2 ^ 63 < 1) by lia.
  assert (Hout : - 2 ^ 63 <= 0) by lia.
  split.
  - destruct (train_step_tests_value_before_decrement ten 0 3 one_left
                eq_refl eq_refl Hone)
      as (p' & Hstep & _ & Hreps & _ & _ & Hiff & _).
    exists p'. split; [exact Hstep |]. split; [exact (Hreps Hin) | exact (Hiff Hin)].
  - destruct (train_step_tests_value_before_decrement ten 0 3 at_least_value
                eq_refl eq_refl Hleast)
      as (p' & Hstep & _ & _ & Hreps & _ & _ & Hbarrier & _).
    exists p'. split; [exact Hstep |].
    split; [exact (Hreps eq_refl) | exact (proj2 Hbarrier Hout)].
Defined.

End TrainClaim.

(** ** The barrier and its completion function *)

Section Barrier.
Import Machine Process Data Net.
Local Open Scope R_scope.

(** What the operator is shown after [s]: the messages added, and the
    connections any of them prints. *)
Definition shows_only (c : connections_t) (msgs : list message) : Prop :=
  Forall (fun m => forall c', m = print_connections c' -> c' = c) msgs.

Definition same_network (s s' : shared) : Prop :=
  connections s' = connections s
  /\ updates s' = updates s
  /\ predictions s' = predictions s
  /\ exists msgs, cout s' = cout s ++ msgs /\ shows_only (connections s) msgs.

Lemma same_network_refl s : same_network s s.
Proof.
  repeat split. exists []. split; [now rewrite app_nil_r | constructor].
Qed.

Lemma same_network_trans s1 s2 s3 :
  same_network s1 s2 -> same_network s2 s3 -> same_network s1 s3.
Proof.
  intros (Hc & Hu & Hp & m1 & Ho1 & Hs1) (Hc' & Hu' & Hp' & m2 & Ho2 & Hs2).
  repeat split; try congruence.
  exists (m1 ++ m2). split.
  - now rewrite Ho2, Ho1, app_assoc.
  - apply Forall_app. split; [exact Hs1 | now rewrite <- Hc].
Qed.

Lemma same_network_say m s :
  (forall c, m = print_connections c -> c = connections s) ->
  same_network s (say m s).
Proof.
  intros H. repeat split. exists [m]. split; [reflexivity |].
  constructor; [exact H | constructor].
Qed.

Lemma ask_same_network (input : list token) (s s' : shared) :
  ask input s = Continue s' -> same_network s s'.
Proof.
  revert s. induction input as [| t rest IH]; intros s H; [discriminate |].
  destruct t as [c | n]; [| discriminate]. cbn [ask] in H.
  assert (H0 : same_network s (say ask_command s))
    by (apply same_network_say; discriminate).
  destruct (Ascii.eqb c "P").
  { apply IH in H. eapply same_network_trans; [| exact H].
    eapply same_network_trans; [exact H0 |].
    apply same_network_say. now intros c' [= <-]. }
  destruct (Ascii.eqb c "E").
  { injection H as <-. eapply same_network_trans; [exact H0 |].
    repeat split. exists []. split; [cbn; now rewrite app_nil_r | constructor]. }
  destruct (Ascii.eqb c "R").
  { destruct rest as [| [c' | n] rest']; try discriminate.
    injection H as <-. eapply same_network_trans; [exact H0 |].
    repeat split. exists [ask_rep_count]. split; [reflexivity |].
    constructor; [discriminate | constructor]. }
  apply IH in H. eapply same_network_trans; [| exact H].
  eapply same_network_trans; [exact H0 |].
  apply same_network_say. discriminate.
Qed.

Lemma diagnostics_same_network (ds : dataset) (s s' : shared) :
  diagnostics ds s = Continue s' -> same_network s s'.
Proof.
  unfold diagnostics. cbv zeta.
  destruct (Histogram.create_histogram _ _) as [h | | |]; try discriminate.
  cbn [and_then]. intros [= <-].
  eapply same_network_trans; apply same_network_say; discriminate.
Qed.

(** Lines 388-437 leave [connections], [updates] and [predictions] as the
    loop of lines 382-386 left them. *)
Lemma combine_updates_spec (ds : dataset) (s s' : shared) :
  combine_updates ds s = Continue s' ->
  same_network (apply_updates s) s'.
Proof.
  unfold combine_updates. cbv zeta.
  set (s1 := apply_updates s).
  destruct (excess_reps s1 =? 0)%Z.
  - destruct (train s1); cbn [negb and_then].
    + destruct (ask (cin s1) s1) as [s2 | | |] eqn:Hask; try discriminate.
      cbn [and_then]. intros [= <-].
      apply ask_same_network in Hask.
      eapply same_network_trans; [exact Hask |].
      repeat split. exists []. split; [cbn; now rewrite app_nil_r | constructor].
    + destruct (diagnostics ds s1) as [s2 | | |] eqn:Hd; try discriminate.
      cbn [and_then].
      destruct (ask (cin s2) s2) as [s3 | | |] eqn:Hask; try discriminate.
      cbn [and_then]. intros [= <-].
      apply diagnostics_same_network in Hd. apply ask_same_network in Hask.
      eapply same_network_trans; [exact Hd |].
      eapply same_network_trans; [exact Hask |].
      repeat split. exists []. split; [cbn; now rewrite app_nil_r | constructor].
  - cbn [and_then]. intros [= <-].
    repeat split. exists []. split; [cbn; now rewrite app_nil_r | constructor].
Qed.

(** The loop of lines 382-386 adds, element by element, every buffer to
    [connections]. *)
Lemma nth_tabulate {A : Type} (n i : nat) (f : nat -> A) (default : A) :
  (i < n)%nat -> nth i (tabulate n f) default = f i.
Proof.
  intros H. unfold tabulate.
  rewrite (nth_indep _ default (f 0%nat)) by (now rewrite length_map, length_seq).
  rewrite (map_nth f), seq_nth by exact H. reflexivity.
Qed.

Lemma at3_for_all (f : nat -> nat -> nat -> R) (i j k : nat) :
  (i < depth - 1)%nat -> (j < variable_count)%nat -> (k < variable_count)%nat ->
  at3 (for_all_connections f) i j k = f i j k.
Proof.
  intros Hi Hj Hk. unfold at3, for_all_connections.
  now rewrite !nth_tabulate.
Qed.

Lemma at3_fold_add (us : list connections_t) (c : connections_t) (i j k : nat) :
  (i < depth - 1)%nat -> (j < variable_count)%nat -> (k < variable_count)%nat ->
  at3 (fold_left add_connections us c) i j k
  = at3 c i j k + fold_right Rplus 0 (map (fun u => at3 u i j k) us).
Proof.
  intros Hi Hj Hk. revert c.
  induction us as [| u us IH]; intros c; cbn [fold_left map fold_right].
  - lra.
  - rewrite IH. unfold add_connections at 1.
    rewrite at3_for_all by assumption. lra.
Qed.

Lemma barrier_step_waiting (ds : dataset) (p : pool) (r : run pool) :
  barrier_step ds p = Some r ->
  Forall (fun t => t = at_barrier) (threads p).
Proof.
  unfold barrier_step.
  destruct (forallb waiting (threads p)) eqn:Hw; [intros _ | discriminate].
  rewrite forallb_forall in Hw. apply List.Forall_forall.
  intros t Ht. apply Hw in Ht. now destruct t.
Qed.

Lemma barrier_step_continue (ds : dataset) (p p' : pool) :
  barrier_step ds p = Some (Continue p') ->
  combine_updates ds (state p) = Continue (state p')
  /\ threads p' = map (fun _ => at_reset) (threads p).
Proof.
  unfold barrier_step.
  destruct (forallb waiting (threads p)); [| discriminate].
  destruct (combine_updates ds (state p)); cbn [and_then]; try discriminate.
  now intros [= <-].
Qed.

(** C2, as amended.  The completion function runs when every thread is at
    the barrier, where none has a step of its own.  It first adds every
    gradient buffer to [connections], then it questions the operator, who
    is shown the connections after the addition; it leaves the buffers as
    they are.  Its return lets the threads go, each to line 543: there the
    thread sets its own buffer to zero, and only then is it back at the top
    of its inner loop. *)
Theorem completion_adds_then_asks_threads_reset_after
    (ds : dataset) (p p' : pool) :
  barrier_step ds p = Some (Continue p') ->
  Forall (fun t => t = at_barrier) (threads p)
  /\ (forall thread_no draw, iterate_step ds thread_no draw p = None)
  /\ connections (state p')
     = fold_left add_connections (updates (state p)) (connections (state p))
  /\ (forall i j k,
        (i < depth - 1)%nat -> (j < variable_count)%nat -> (k < variable_count)%nat ->
        at3 (connections (state p')) i j k
        = at3 (connections (state p)) i j k
          + fold_right Rplus 0 (map (fun u => at3 u i j k) (updates (state p))))
  /\ (exists msgs,
        cout (state p') = cout (state p) ++ msgs
        /\ shows_only (connections (state p')) msgs)
  /\ updates (state p') = updates (state p)
  /\ threads p' = map (fun _ => at_reset) (threads p)
  /\ (forall thread_no draw,
        (thread_no < length (threads p))%nat ->
        exists p'',
          iterate_step ds thread_no draw p' = Some (silent, p'')
          /\ updates (state p'') = <[thread_no := zero_connections]> (updates (state p'))
          /\ connections (state p'') = connections (state p')
          /\ threads p'' = <[thread_no := at_claim]> (threads p')).
Proof.
  intros H.
  pose proof (barrier_step_waiting _ _ _ H) as Hw.
  destruct (barrier_step_continue _ _ _ H) as [Hc Ht].
  destruct (combine_updates_spec _ _ _ Hc) as (Hconn & Hupd & _ & msgs & Hout & Hshow).
  cbn [apply_updates connections updates cout] in Hconn, Hupd, Hout, Hshow.
  split; [exact Hw |]. split.
  { intros thread_no draw. unfold iterate_step.
    destruct (threads p !! thread_no) as [t |] eqn:Hl; [| reflexivity].
    rewrite List.Forall_forall in Hw.
    rewrite (Hw t); [reflexivity |].
    apply list_elem_of_In, list_elem_of_lookup. eauto. }
  split; [exact Hconn |]. split.
  { intros i j k Hi Hj Hk. rewrite Hconn. now apply at3_fold_add. }
  split; [exists msgs; split; [exact Hout | now rewrite Hconn] |].
  split; [exact Hupd |]. split; [exact Ht |].
  intros thread_no draw Hlt. unfold iterate_step.
  assert (Hl : threads p' !! thread_no = Some at_reset).
  { rewrite Ht, list_lookup_fmap.
    destruct (lookup_lt_is_Some_2 (threads p) thread_no Hlt) as [t ->].
    reflexivity. }
  rewrite Hl. eexists. split; [reflexivity |]. repeat split.
Qed.

(** One thread at the barrier after a training phase on [ten] that left a
    gradient of ones in its buffer, the operator about to ask for an
    evaluation. *)
Definition ones : connections_t := for_all_connections (fun _ _ _ => 1).

Definition after_training : pool :=
  {| state :=
       {| connections := zero_connections; train := true; updates := [ones];
          predictions := [0]; reps := (-1)%Z; excess_reps := 0%Z;
          cin := [key "E"]; cout := [] |};
     threads := [at_barrier] |}.

Lemma ones_not_zero : ones <> zero_connections.
Proof.
  intros H. apply (f_equal (fun c => at3 c 0 0 0)) in H.
  unfold ones, zero_connections in H.
  rewrite !at3_for_all in H by (cbn; lia). lra.
Qed.

(** C2 as stated does not hold: when the completion function has returned
    and the thread is let go, its buffer still holds the gradient. *)
Lemma buffers_not_zero_at_release :
  exists p',
    barrier_step ten after_training = Some (Continue p')
    /\ threads p' = [at_reset]
    /\ updates (state p') = [ones]
    /\ ~ Forall (fun u => u = zero_connections) (updates (state p')).
Proof.
  eexists. split; [reflexivity |]. split; [reflexivity |].
  split; [reflexivity |]. cbn [state updates next_budget].
  intros H. inversion H as [| ? ? H1 _]; subst. now apply ones_not_zero.
Qed.

Lemma completion_adds_then_asks_threads_reset_after_witness :
  exists p' p'',
    barrier_step ten after_training = Some (Continue p')
    /\ updates (state p') = [ones]
    /\ iterate_step ten 0 0%Z p' = Some (silent, p'')
    /\ updates (state p'') = [zero_connections]
    /\ at3 (connections (state p'')) 0 0 0 = 1.
Proof.
  assert (H : exists p', barrier_step ten after_training = Some (Continue p'))
    by (eexists; reflexivity).
  destruct H as [p' H].
  destruct (completion_adds_then_asks_threads_reset_after ten after_training p' H)
    as (_ & _ & _ & Hsum & _ & Hupd & _ & Hreset).
  destruct (Hreset 0%nat 0%Z) as (p'' & Hstep & Hzero & Hconn & _); [cbn; lia |].
  exists p', p''. split; [exact H |]. split; [exact Hupd |].
  split; [exact Hstep |]. split; [now rewrite Hzero, Hupd |].
  rewrite Hconn, Hsum by (cbn; lia).
  cbn [after_training state connections updates map fold_right].
  unfold ones, zero_connections. rewrite !at3_for_all by (cbn; lia). lra.
Defined.

End Barrier.

(** ** Evaluate mode: one pass over the evaluation suffix *)

Section Evaluate.
Import Machine Process Data Net.

Variable ds : dataset.
Variable c0 : connections_t.

Definition cutoff : Z := train_cutoff_index ds.

(** The length of the evaluation suffix, which is that of [predictions]. *)
Definition suffix_length : nat := Z.to_nat (size ds - cutoff).

Definition slot_of (index : Z) : nat := Z.to_nat (index - cutoff).

(** The slots a thread has taken and not yet written, the threads that
    have arrived at the barrier, and the slots a run has written. *)
Definition taken (t : position) : list nat :=
  match t with
  | at_work index => [slot_of index]
  | _ => []
  end.

Definition pending (ts : list position) : list nat := flat_map taken ts.

Definition arrived (ts : list position) : nat := length (List.filter waiting ts).

Definition written (l : label) : list nat :=
  match l with
  | recorded slot => [slot]
  | silent => []
  end.

Definition slots (ls : list label) : list nat := flat_map written ls.

(** The score of the sample at place [k] of the suffix, under [c0]. *)
Definition score_at (k : nat) : R :=
  score_of (forward c0 (nth (Z.to_nat cutoff + k) (samples ds) zero_sample)).

Lemma cutoff_range : (0 <= cutoff <= size ds)%Z.
Proof.
  unfold cutoff, train_cutoff_index, wrap.
  assert (Hs : (0 <= size ds * 9)%Z) by (unfold size; lia).
  assert (Hp : (0 < 2 ^ 64)%Z) by reflexivity.
  pose proof (Z.mod_pos_bound (size ds * 9) (2 ^ 64) Hp) as [Hb _].
  pose proof (Z.mod_le (size ds * 9) (2 ^ 64) Hs Hp) as Hle.
  set (w := ((size ds * 9) mod 2 ^ 64)%Z) in *. clearbody w. clear Hp.
  split.
  - apply Z.div_pos; lia.
  - apply Z.div_le_upper_bound; lia.
Qed.

Lemma insert_middle {A : Type} (l : list A) (i : nat) (x y : A) :
  l !! i = Some x ->
  exists l1 l2, l = l1 ++ x :: l2 /\ <[i := y]> l = l1 ++ y :: l2.
Proof.
  intros H. exists (take i l), (drop (S i) l). split.
  - symmetry. now apply take_drop_middle.
  - apply insert_take_drop. apply lookup_lt_is_Some. eauto.
Qed.

Lemma pending_insert (ts : list position) (i : nat) (x y : position) :
  ts !! i = Some x ->
  Permutation (taken x ++ pending (<[i := y]> ts)) (taken y ++ pending ts).
Proof.
  intros H. destruct (insert_middle ts i x y H) as (l1 & l2 & E1 & E2).
  rewrite E2, E1. unfold pending.
  rewrite !flat_map_app. cbn [flat_map].
  rewrite (Permutation_app_swap_app (taken x) (flat_map taken l1)).
  rewrite (Permutation_app_swap_app (taken y) (flat_map taken l1)).
  apply Permutation_app_head. apply Permutation_app_swap_app.
Qed.

Lemma arrived_insert (ts : list position) (i : nat) (x y : position) :
  ts !! i = Some x ->
  (arrived (<[i := y]> ts) + (if waiting x then 1 else 0)
   = arrived ts + (if waiting y then 1 else 0))%nat.
Proof.
  intros H. destruct (insert_middle ts i x y H) as (l1 & l2 & E1 & E2).
  rewrite E2, E1. unfold arrived.
  rewrite !List.filter_app, !length_app. cbn [List.filter].
  destruct (waiting x), (waiting y); cbn [length]; lia.
Qed.

Lemma arrived_le (ts : list position) : (arrived ts <= length ts)%nat.
Proof. unfold arrived. apply List.filter_length_le. Qed.

(** The steps a thread still has before it, on its own account: the reset
    and the last look at [reps], or that look, or the work and that look. *)
Definition weight (t : position) : nat :=
  match t with
  | at_reset => 2
  | at_claim => 1
  | at_work _ => 2
  | at_barrier => 0
  end.

Definition load (ts : list position) : nat := list_sum (map weight ts).

Lemma load_insert (ts : list position) (i : nat) (x y : position) :
  ts !! i = Some x ->
  (load (<[i := y]> ts) + weight x = load ts + weight y)%nat.
Proof.
  intros H. destruct (insert_middle ts i x y H) as (l1 & l2 & E1 & E2).
  rewrite E2, E1. unfold load.
  rewrite !map_app, !list_sum_app. unfold list_sum. cbn [map fold_right]. lia.
Qed.

Lemma load_zero (ts : list position) :
  load ts = 0%nat -> Forall (fun t => t = at_barrier) ts.
Proof.
  unfold load, list_sum. induction ts as [| t ts IH]; cbn [map fold_right]; intros H.
  - constructor.
  - constructor; [destruct t; cbn in H; try lia; reflexivity | apply IH; lia].
Qed.

Lemma In_insert {A : Type} (l : list A) (i : nat) (x y t : A) :
  l !! i = Some x -> In t (<[i := y]> l) -> t = y \/ In t l.
Proof.
  intros H. destruct (insert_middle l i x y H) as (l1 & l2 & E1 & E2).
  rewrite E2, E1, !in_app_iff. cbn [In]. intuition.
Qed.

Lemma evaluate_claim (draw : Z) (s : shared) :
  train s = false ->
  (0 <= reps s)%Z -> (cutoff + reps s + 1 < 2 ^ 63)%Z ->
  claim_index ds draw s
  = (if (reps s <? size ds - cutoff)%Z then work (cutoff + reps s)%Z else leave,
     set_reps (reps s + 1) s).
Proof.
  intros Ht H0 Hfit. pose proof cutoff_range as Hc.
  assert (H63 : (2 ^ 63 < 2 ^ 64)%Z) by reflexivity.
  unfold claim_index. rewrite Ht. cbv zeta. fold cutoff.
  unfold size_add, size_of_ptrdiff, ptrdiff_add.
  rewrite (wrap_small (reps s)) by lia.
  rewrite wrap_small by lia. rewrite swrap_small by lia.
  destruct (Z.ltb_spec (reps s) (size ds - cutoff));
    destruct (Z.geb_spec (cutoff + reps s) (size ds)); try lia; reflexivity.
Qed.

Variable workers : nat.
Hypothesis fits : (size ds + Z.of_nat workers < 2 ^ 63)%Z.

(** What holds of a pool in the course of an evaluation phase, [done]
    being the slots written so far: the slots taken are 0, 1, 2, ... in
    turn, none twice; a thread leaves only once all slots are taken; and
    every slot written holds the score of its sample. *)
Record phase_inv (done : list nat) (p : pool) : Prop := {
  inv_train : train (state p) = false;
  inv_connections : connections (state p) = c0;
  inv_threads : length (threads p) = workers;
  inv_predictions : length (predictions (state p)) = suffix_length;
  inv_taken : (length done + length (pending (threads p)) <= suffix_length)%nat;
  inv_arrived :
    arrived (threads p) = 0%nat
    \/ (length done + length (pending (threads p)))%nat = suffix_length;
  inv_reps :
    reps (state p)
    = Z.of_nat (length done + length (pending (threads p)) + arrived (threads p));
  inv_perm :
    Permutation (done ++ pending (threads p))
      (seq 0 (length done + length (pending (threads p))));
  inv_work :
    forall index, In (at_work index) (threads p) -> (cutoff <= index < size ds)%Z;
  inv_scores :
    forall k, In k done -> predictions (state p) !! k = Some (score_at k)
}.

Lemma suffix_length_Z : Z.of_nat suffix_length = (size ds - cutoff)%Z.
Proof. unfold suffix_length. pose proof cutoff_range. lia. Qed.

(** The number of steps left in the phase: two for every slot not yet
    taken, and what the threads have before them. *)
Definition potential (done : list nat) (p : pool) : nat :=
  load (threads p)
  + 2 * (suffix_length - (length done + length (pending (threads p)))).

Lemma phase_step_claim (done : list nat) (p p' : pool) (thread_no : nat) (draw : Z) (l : label) :
  phase_inv done p ->
  threads p !! thread_no = Some at_claim ->
  iterate_step ds thread_no draw p = Some (l, p') ->
  l = silent /\ phase_inv done p' /\ (potential done p' < potential done p)%nat.
Proof.
  intros [Htr Hco Hth Hpr Htk Har Hre Hpe Hwo Hsc] Hl.
  unfold potential.
  pose proof cutoff_range as Hc. pose proof suffix_length_Z as Hn.
  set (m := (length done + length (pending (threads p)))%nat) in *.
  assert (Hroom : (arrived (threads p) + 1 <= workers)%nat).
  { pose proof (arrived_insert _ _ _ at_barrier Hl) as Ha.
    pose proof (arrived_le (<[thread_no := at_barrier]> (threads p))) as Hb.
    rewrite length_insert, Hth in Hb. cbn [waiting] in Ha. lia. }
  unfold iterate_step. rewrite Hl.
  rewrite evaluate_claim by (try assumption; lia).
  destruct (Z.ltb_spec (reps (state p)) (size ds - cutoff)) as [Hlt | Hge];
    intros [= <- <-]; (split; [reflexivity |]).
  - (* a slot is left: the thread takes slot [m] *)
    assert (Ha0 : arrived (threads p) = 0%nat) by lia.
    assert (Hr : reps (state p) = Z.of_nat m) by lia.
    pose proof (pending_insert _ _ _ (at_work (cutoff + reps (state p))) Hl) as Hp.
    pose proof (arrived_insert _ _ _ (at_work (cutoff + reps (state p))) Hl) as Ha.
    pose proof (load_insert _ _ _ (at_work (cutoff + reps (state p))) Hl) as Hw.
    cbn [taken waiting weight app] in Hp, Ha, Hw.
    assert (Hslot : slot_of (cutoff + reps (state p)) = m)
      by (unfold slot_of; lia).
    rewrite Hslot in Hp. pose proof (Permutation_length Hp) as Hlen.
    cbn [length] in Hlen.
    split; [| cbn [threads]; lia].
    constructor; cbn [state threads set_reps train connections predictions reps];
      rewrite ?length_insert; try assumption.
    + lia.
    + left. lia.
    + lia.
    + rewrite Hlen, Hp.
      replace (length done + S (length (pending (threads p))))%nat with (S m) by lia.
      rewrite seq_S. cbn [Nat.add].
      rewrite <- Permutation_middle, Permutation_cons_append.
      now apply Permutation_app_tail.
    + intros index Hin. apply (In_insert _ _ _ _ _ Hl) in Hin as [[= ->] | Hin].
      * lia.
      * now apply Hwo.
  - (* no slot is left: the thread goes to the barrier *)
    pose proof (pending_insert _ _ _ at_barrier Hl) as Hp.
    pose proof (arrived_insert _ _ _ at_barrier Hl) as Ha.
    pose proof (load_insert _ _ _ at_barrier Hl) as Hw.
    cbn [taken waiting weight app] in Hp, Ha, Hw.
    pose proof (Permutation_length Hp) as Hlen.
    split; [| cbn [threads]; lia].
    constructor; cbn [state threads set_reps train connections predictions reps];
      rewrite ?length_insert; try assumption.
    + lia.
    + right. lia.
    + lia.
    + now rewrite Hlen, Hp.
    + intros index Hin. apply (In_insert _ _ _ _ _ Hl) in Hin as [[=] | Hin].
      now apply Hwo.
Qed.

Lemma phase_step_work (done : list nat) (p p' : pool) (thread_no : nat) (draw index : Z) (l : label) :
  phase_inv done p ->
  threads p !! thread_no = Some (at_work index) ->
  iterate_step ds thread_no draw p = Some (l, p') ->
  l = recorded (slot_of index)
  /\ phase_inv (done ++ [slot_of index]) p'
  /\ (potential (done ++ [slot_of index]) p' < potential done p)%nat.
Proof.
  intros [Htr Hco Hth Hpr Htk Har Hre Hpe Hwo Hsc] Hl.
  unfold potential.
  pose proof cutoff_range as Hc.
  pose proof (pending_insert _ _ _ at_claim Hl) as Hp.
  pose proof (arrived_insert _ _ _ at_claim Hl) as Ha.
  pose proof (load_insert _ _ _ at_claim Hl) as Hw.
  cbn [taken waiting weight app] in Hp, Ha, Hw.
  pose proof (Permutation_length Hp) as Hlen. cbn [length] in Hlen.
  assert (Hin : In (at_work index) (threads p))
    by (apply list_elem_of_In, list_elem_of_lookup; eauto).
  apply Hwo in Hin.
  assert (Hmem : In (slot_of index) (done ++ pending (threads p)))
    by (rewrite <- Hp; apply in_or_app; right; now left).
  assert (Hbound : (slot_of index < suffix_length)%nat).
  { apply (Permutation_in _ Hpe), in_seq in Hmem. lia. }
  assert (Hfresh : ~ In (slot_of index) done).
  { assert (Hnd : List.NoDup (done ++ slot_of index :: pending (<[thread_no := at_claim]> (threads p)))).
    { rewrite Hp. apply (Permutation_NoDup (Permutation_sym Hpe)), seq_NoDup. }
    apply NoDup_remove_2 in Hnd. intros H. apply Hnd, in_or_app. now left. }
  unfold iterate_step. rewrite Hl, Htr. intros [= <- <-].
  split; [reflexivity |].
  unfold process_index. rewrite Htr. cbv zeta. fold cutoff. fold (slot_of index).
  split; [| cbn [threads]; rewrite length_app; cbn [length]; lia].
  constructor; cbn [state threads train connections predictions reps];
    rewrite ?length_insert, ?length_app; cbn [length];
    try assumption; try reflexivity.
  - lia.
  - destruct Har as [Har | Har]; [left | right]; lia.
  - lia.
  - replace (length done + 1 + length (pending (<[thread_no := at_claim]> (threads p))))%nat
      with (length done + length (pending (threads p)))%nat by lia.
    rewrite <- app_assoc. cbn [app]. now rewrite Hp.
  - intros index' Hin'. apply (In_insert _ _ _ _ _ Hl) in Hin' as [[=] | Hin'].
    now apply Hwo.
  - intros k Hk. apply in_app_or in Hk as [Hk | [<- | []]].
    + rewrite list_lookup_insert_ne by (intros E; apply Hfresh; now rewrite E).
      now apply Hsc.
    + rewrite list_lookup_insert_eq by (now rewrite Hpr).
      unfold score_at. rewrite Hco. do 4 f_equal. unfold slot_of. lia.
Qed.

Lemma phase_step_reset (done : list nat) (p p' : pool) (thread_no : nat) (draw : Z) (l : label) :
  phase_inv done p ->
  threads p !! thread_no = Some at_reset ->
  iterate_step ds thread_no draw p = Some (l, p') ->
  l = silent /\ phase_inv done p' /\ (potential done p' < potential done p)%nat.
Proof.
  intros [Htr Hco Hth Hpr Htk Har Hre Hpe Hwo Hsc] Hl.
  unfold potential.
  pose proof (pending_insert _ _ _ at_claim Hl) as Hp.
  pose proof (arrived_insert _ _ _ at_claim Hl) as Ha.
  pose proof (load_insert _ _ _ at_claim Hl) as Hw.
  cbn [taken waiting weight app] in Hp, Ha, Hw.
  pose proof (Permutation_length Hp) as Hlen.
  unfold iterate_step. rewrite Hl. intros [= <- <-].
  split; [reflexivity |].
  split; [| cbn [threads]; lia].
  constructor; cbn [state threads set_updates train connections predictions reps];
    rewrite ?length_insert; try assumption.
  - lia.
  - destruct Har as [Har | Har]; [left | right]; lia.
  - lia.
  - now rewrite Hlen, Hp.
  - intros index' Hin'. apply (In_insert _ _ _ _ _ Hl) in Hin' as [[=] | Hin'].
    now apply Hwo.
Qed.

Lemma phase_step (done : list nat) (p p' : pool) (thread_no : nat) (draw : Z) (l : label) :
  phase_inv done p ->
  iterate_step ds thread_no draw p = Some (l, p') ->
  phase_inv (done ++ written l) p'
  /\ (potential (done ++ written l) p' < potential done p)%nat.
Proof.
  intros Hinv Hstep.
  destruct (threads p !! thread_no) as [[| index | |] |] eqn:Hl.
  - destruct (phase_step_claim _ _ _ _ _ _ Hinv Hl Hstep) as (-> & H).
    cbn [written]. now rewrite app_nil_r.
  - destruct (phase_step_work _ _ _ _ _ _ _ Hinv Hl Hstep) as (-> & H).
    exact H.
  - unfold iterate_step in Hstep. now rewrite Hl in Hstep.
  - destruct (phase_step_reset _ _ _ _ _ _ Hinv Hl Hstep) as (-> & H).
    cbn [written]. now rewrite app_nil_r.
  - unfold iterate_step in Hstep. now rewrite Hl in Hstep.
Qed.

Lemma phase_run (schedule : list (nat * Z)) (done : list nat) (p p' : pool) (ls : list label) :
  phase_inv done p ->
  run_threads ds schedule p = Some (ls, p') ->
  phase_inv (done ++ slots ls) p'.
Proof.
  revert done p ls. induction schedule as [| [thread_no draw] rest IH];
    intros done p ls Hinv Hrun; cbn [run_threads] in Hrun.
  - injection Hrun as <- <-. cbn. now rewrite app_nil_r.
  - destruct (iterate_step ds thread_no draw p) as [[l p1] |] eqn:Hstep;
      [| discriminate].
    destruct (run_threads ds rest p1) as [[ls' p2] |] eqn:Hrest;
      [| discriminate].
    injection Hrun as <- <-.
    apply (phase_step _ _ _ _ _ _ Hinv) in Hstep as [Hstep _].
    apply (IH _ _ _ Hstep) in Hrest.
    unfold slots in *. cbn [flat_map]. now rewrite app_assoc.
Qed.

Lemma none_taken (ts : list position) :
  Forall (fun t => t = at_claim \/ t = at_reset) ts ->
  pending ts = [] /\ arrived ts = 0%nat.
Proof.
  unfold pending, arrived.
  induction 1 as [| t ts [-> | ->] _ [IH1 IH2]]; cbn; auto.
Qed.

Lemma phase_start (s0 : shared) (ts : list position) :
  train s0 = false -> reps s0 = 0%Z -> connections s0 = c0 ->
  length (predictions s0) = suffix_length ->
  length ts = workers ->
  Forall (fun t => t = at_claim \/ t = at_reset) ts ->
  phase_inv [] {| state := s0; threads := ts |}.
Proof.
  intros Htr Hre Hco Hpr Hth Hts.
  destruct (none_taken ts Hts) as [Hp Ha].
  constructor; cbn [state threads]; rewrite ?Hp, ?Ha; cbn [length app Nat.add seq];
    try assumption; try lia; try (now left).
  - constructor.
  - intros index Hin. rewrite List.Forall_forall in Hts.
    apply Hts in Hin as [[=] | [=]].
  - intros k [].
Qed.

Lemma all_arrived (ts : list position) :
  Forall (fun t => t = at_barrier) ts ->
  pending ts = [] /\ arrived ts = length ts.
Proof.
  unfold pending, arrived.
  induction 1 as [| t ts -> _ [IH1 IH2]]; cbn; [easy |].
  split; [exact IH1 | now rewrite IH2].
Qed.

Lemma find_running (ts : list position) :
  Forall (fun t => t = at_barrier) ts
  \/ exists i t, ts !! i = Some t /\ t <> at_barrier.
Proof.
  induction ts as [| t ts [IH | (i & t' & Hl & Hne)]].
  - left. constructor.
  - destruct t; try (right; exists 0%nat; eexists; split; [reflexivity | discriminate]).
    left. now constructor.
  - right. exists (S i), t'. now split.
Qed.

Lemma can_step (p : pool) (i : nat) (t : position) (draw : Z) :
  threads p !! i = Some t -> t <> at_barrier ->
  exists l p', iterate_step ds i draw p = Some (l, p').
Proof.
  intros Hl Hne. unfold iterate_step. rewrite Hl.
  destruct t; try contradiction; try (eexists; eexists; reflexivity).
  destruct (claim_index ds draw (state p)). eexists; eexists; reflexivity.
Qed.

(** From any pool of the phase, some schedule brings every thread to the
    barrier, in no more steps than the potential. *)
Lemma phase_completes (fuel : nat) (done : list nat) (p : pool) :
  phase_inv done p -> (potential done p <= fuel)%nat ->
  exists schedule ls p',
    run_threads ds schedule p = Some (ls, p')
    /\ Forall (fun t => t = at_barrier) (threads p')
    /\ (length schedule <= fuel)%nat.
Proof.
  revert done p. induction fuel as [| fuel IH]; intros done p Hinv Hpot;
    (destruct (find_running (threads p)) as [Hall | (i & t & Hl & Hne)];
     [exists [], [], p; cbn; repeat split; [assumption | lia] |]).
  - exfalso. apply Hne.
    assert (H0 : load (threads p) = 0%nat) by (unfold potential in Hpot; lia).
    apply load_zero in H0. rewrite List.Forall_forall in H0. apply H0.
    apply list_elem_of_In, list_elem_of_lookup. eauto.
  - destruct (can_step p i t 0%Z Hl Hne) as (l & p1 & Hstep).
    destruct (phase_step _ _ _ _ _ _ Hinv Hstep) as [Hinv1 Hless].
    destruct (IH _ _ Hinv1 ltac:(lia)) as (schedule & ls & p' & Hrun & Hend & Hlen).
    exists ((i, 0%Z) :: schedule), (l :: ls), p'. cbn [run_threads length].
    rewrite Hstep, Hrun. repeat split; [assumption | lia].
Qed.

(** C6: in Evaluate mode, with [reps] at 0 when the phase begins, a thread
    that reads [r] from [reps] leaves [r + 1] there and takes the index
    [train_cutoff_index + r] if [r] is below the length of the suffix, and
    goes to the barrier otherwise.  Some schedule brings all threads to the
    barrier; and whenever a schedule has done so, the slots of
    [predictions] written in the phase are every slot of the suffix, each
    exactly once, each slot holds the score of its own sample, and [reps]
    has been raised once for every slot and once for every thread. *)
Theorem evaluate_phase_scores_each_sample_once (s0 : shared) (ts : list position) :
  (1 <= workers)%nat ->
  train s0 = false -> reps s0 = 0%Z -> connections s0 = c0 ->
  length (predictions s0) = suffix_length ->
  length ts = workers ->
  Forall (fun t => t = at_claim \/ t = at_reset) ts ->
  let start := {| state := s0; threads := ts |} in
  (exists schedule ls p',
      run_threads ds schedule start = Some (ls, p')
      /\ Forall (fun t => t = at_barrier) (threads p'))
  /\ (forall schedule ls p',
        run_threads ds schedule start = Some (ls, p') ->
        Forall (fun t => t = at_barrier) (threads p') ->
        Permutation (slots ls) (seq 0 suffix_length)
        /\ predictions (state p') = map score_at (seq 0 suffix_length)
        /\ reps (state p') = Z.of_nat (suffix_length + workers))
  /\ (forall s draw,
        train s = false ->
        (0 <= reps s)%Z -> (cutoff + reps s + 1 < 2 ^ 63)%Z ->
        claim_index ds draw s
        = (if (reps s <? Z.of_nat suffix_length)%Z
           then work (cutoff + reps s)%Z else leave,
           set_reps (reps s + 1) s)).
Proof.
  intros Hw Htr Hre Hco Hpr Hth Hts start.
  pose proof (phase_start s0 ts Htr Hre Hco Hpr Hth Hts) as Hinv.
  fold start in Hinv. split; [| split].
  - destruct (phase_completes _ _ _ Hinv (le_n _))
      as (schedule & ls & p' & Hrun & Hend & _).
    now exists schedule, ls, p'.
  - intros schedule ls p' Hrun Hend.
    apply (phase_run _ _ _ _ _ Hinv) in Hrun. cbn [app] in Hrun.
    destruct Hrun as [_ _ Hth' Hpr' _ Har Hre' Hpe _ Hsc].
    destruct (all_arrived _ Hend) as [Hp Ha].
    rewrite Hp, Ha, Hth' in *. cbn [length] in *.
    rewrite Nat.add_0_r, app_nil_r in *.
    assert (Hlen : length (slots ls) = suffix_length) by (destruct Har; lia).
    rewrite Hlen in *. split; [exact Hpe |]. split; [| exact Hre'].
    apply (list_eq_same_length _ _ suffix_length);
      [now rewrite length_map, length_seq | exact Hpr' |].
    intros k x y Hk Hx Hy.
    rewrite Hsc in Hx
      by (apply (Permutation_in _ (Permutation_sym Hpe)), in_seq; lia).
    rewrite list_lookup_fmap, lookup_seq_lt in Hy by exact Hk.
    cbn in Hy. congruence.
  - intros s draw Ht H0 Hfit. rewrite suffix_length_Z.
    now apply evaluate_claim.
Qed.

End Evaluate.

(** ** An evaluation of [ten] by two threads *)

Section EvaluateTen.
Import Machine Process Data Net.

(** The state the command [E] leaves, the two threads let go by the
    barrier; then a schedule in which thread 0 takes the only sample of the
    suffix and thread 1 finds none left. *)
Definition evaluation_start : pool :=
  {| state :=
       {| connections := zero_connections; train := false;
          updates := [zero_connections; zero_connections];
          predictions := [0%R]; reps := 0; excess_reps := 0;
          cin := []; cout := [ask_command] |};
     threads := [at_reset; at_reset] |}.

Definition evaluation_schedule : list (nat * Z) :=
  [ (0%nat, 0%Z); (0%nat, 0%Z); (1%nat, 0%Z); (1%nat, 0%Z);
    (0%nat, 0%Z); (0%nat, 0%Z) ].

Lemma evaluation_runs :
  exists ls p',
    run_threads ten evaluation_schedule evaluation_start = Some (ls, p')
    /\ threads p' = [at_barrier; at_barrier].
Proof. eexists. eexists. split; reflexivity. Qed.

Lemma evaluate_phase_scores_each_sample_once_witness :
  exists ls p',
    run_threads ten evaluation_schedule evaluation_start = Some (ls, p')
    /\ Forall (fun t => t = at_barrier) (threads p')
    /\ Permutation (slots ls) [0%nat]
    /\ predictions (state p') = [score_at ten zero_connections 0]
    /\ reps (state p') = 3%Z.
Proof.
  destruct evaluation_runs as (ls & p' & Hrun & Hts).
  assert (Hend : Forall (fun t => t = at_barrier) (threads p'))
    by (rewrite Hts; repeat constructor).
  destruct (evaluate_phase_scores_each_sample_once ten zero_connections 2)
    with (s0 := state evaluation_start) (ts := threads evaluation_start)
    as (_ & Hsafe & _); try reflexivity.
  - cbn; lia.
  - constructor; [now right |]. constructor; [now right |]. constructor.
  - destruct (Hsafe evaluation_schedule ls p' Hrun Hend) as (Hperm & Hpred & Hreps).
    exists ls, p'. repeat split; assumption.
Defined.

End EvaluateTen.

(** * Further properties of the code *)

(** ** The power template and the shape of the activation *)

Section ActivationShape.
Import Activation.
Local Open Scope R_scope.

Lemma pow_pos_power (P : positive) (x : R) : pow_pos P x = x ^ Pos.to_nat P.
Proof.
  induction P as [p IH | p IH |]; cbn [pow_pos].
  - rewrite Pos2Nat.inj_xI, IH.
    replace (S (2 * Pos.to_nat p)) with (S (Pos.to_nat p + Pos.to_nat p)) by lia.
    rewrite <- tech_pow_Rmult, pow_add. ring.
  - rewrite Pos2Nat.inj_xO, IH.
    replace (2 * Pos.to_nat p)%nat with (Pos.to_nat p + Pos.to_nat p)%nat by lia.
    rewrite pow_add. ring.
  - rewrite Pos2Nat.inj_1, pow_1. ring.
Qed.

(** X1: [pow<P>(x)] is [x] to the power [P], for every [P]: the halving
    recursion of the template computes the same product as [P]
    multiplications. *)
Theorem pow_template_is_power (P : N) (x : R) :
  Activation.pow P x = x ^ N.to_nat P.
Proof.
  destruct P as [| p]; [reflexivity |]. apply pow_pos_power.
Qed.

Lemma logistic_zero : logistic 0 = 0.
Proof. rewrite logistic_closed, exp_0. lra. Qed.

(** X2: the shifted logistic is odd and vanishes at 0, and on its range
    (-1/2, 1/2) the derivative computed from the output is positive and at
    most 1/4, with 1/4 reached only at the output 0. *)
Theorem logistic_odd_and_derivative_bounds (x : R) :
  logistic (- x) = - logistic x
  /\ logistic 0 = 0
  /\ 0 < derivative_logistic_from_logistic (logistic x) <= / 4
  /\ (derivative_logistic_from_logistic (logistic x) = / 4 <-> x = 0).
Proof.
  pose proof (logistic_bounds x) as Hb.
  assert (Hodd : logistic (- x) = - logistic x).
  { rewrite !logistic_closed, exp_Ropp. pose proof (exp_pos x).
    field. split; lra. }
  split; [exact Hodd |]. split; [exact logistic_zero |].
  unfold derivative_logistic_from_logistic. rewrite literal_half.
  split; [split; nra |]. split.
  - intros H. assert (H0 : logistic x = 0) by nra.
    destruct (Rtotal_order x 0) as [Hlt | [Heq | Hgt]]; [| exact Heq |].
    + pose proof (logistic_increasing _ _ Hlt). rewrite logistic_zero in *. lra.
    + pose proof (logistic_increasing _ _ Hgt). rewrite logistic_zero in *. lra.
  - intros ->. rewrite logistic_zero. lra.
Qed.

End ActivationShape.

(** ** The forward pass: its rows and its inputs *)

Section ForwardShape.
Import Data Activation Net.
Local Open Scope R_scope.

Lemma forward_rows (c : connections_t) (e : sample) :
  forward c e
  = let r0 := input_nodes e in
    let r1 := next_nodes (nth 0 c []) r0 in
    let r2 := next_nodes (nth 1 c []) r1 in
    let r3 := next_nodes (nth 2 c []) r2 in
    let r4 := next_nodes (nth 3 c []) r3 in
    [r0; r1; r2; r3; r4].
Proof. reflexivity. Qed.

Lemma next_nodes_bounds (weights : list (list R)) (previous : layer) :
  length (next_nodes weights previous) = variable_count
  /\ Forall (fun x => - / 2 < x < / 2) (next_nodes weights previous).
Proof.
  unfold next_nodes. split; [apply length_tabulate |].
  unfold tabulate. apply List.Forall_forall. intros x Hx.
  apply in_map_iff in Hx as (j & <- & _). apply logistic_bounds.
Qed.

(** X3: whatever the sample and the connections, the forward pass fills
    [depth] rows of [variable_count] nodes each; the first row is the first
    [variable_count] entries of the sample, and every node of the later
    rows lies strictly between -1/2 and 1/2. *)
Theorem forward_fills_all_rows (c : connections_t) (e : sample) :
  length (forward c e) = depth
  /\ Forall (fun row => length row = variable_count) (forward c e)
  /\ nth 0 (forward c e) [] = map (fun i => nth i e 0) (seq 0 variable_count)
  /\ Forall (Forall (fun x => - / 2 < x < / 2)) (tl (forward c e)).
Proof.
  rewrite forward_rows. cbv zeta. split; [reflexivity |]. split; [| split].
  - constructor; [apply length_tabulate |].
    repeat (constructor; [apply next_nodes_bounds |]). constructor.
  - reflexivity.
  - cbn [tl]. repeat (constructor; [apply next_nodes_bounds |]). constructor.
Qed.

(** X4: the forward pass reads only the [variable_count] model inputs of a
    sample: two samples that agree on them get the same nodes and the same
    score, whatever their discriminant [Lb_M] and their label. *)
Theorem forward_ignores_discriminant_and_label (c : connections_t) (e e' : sample) :
  (forall i, (i < variable_count)%nat -> nth i e 0 = nth i e' 0) ->
  forward c e = forward c e'
  /\ score_of (forward c e) = score_of (forward c e').
Proof.
  intros H.
  assert (Hin : input_nodes e = input_nodes e').
  { unfold input_nodes, tabulate. apply map_ext_in. intros i Hi.
    apply in_seq in Hi. apply H. lia. }
  assert (Hf : forward c e = forward c e') by (unfold forward; now rewrite Hin).
  split; [exact Hf | now rewrite Hf].
Qed.

Lemma forward_ignores_discriminant_and_label_witness :
  score_of (forward ones [1; 1; 1; 1; 1; 1; 1; 1; 1; 1; 1; 1; 5000; 0])
  = score_of (forward ones [1; 1; 1; 1; 1; 1; 1; 1; 1; 1; 1; 1; 5619.60; 1]).
Proof.
  apply (forward_ignores_discriminant_and_label ones).
  intros i Hi. unfold variable_count, full_variable_count in Hi. cbn in Hi.
  do 12 (destruct i as [| i]; [reflexivity |]). lia.
Defined.

End ForwardShape.

(** ** The split of the dataset *)

Section Partition.
Import Machine Net.
Local Open Scope Z_scope.

(** X5: when nine times the size fits [std::size_t], [train_cutoff_index]
    is nine tenths of the size rounded down; the training prefix and the
    evaluation suffix make up the dataset; the suffix is empty only for the
    empty dataset, and the prefix is empty exactly when there is at most
    one sample. *)
Theorem cutoff_splits_nine_to_one (ds : dataset) :
  size ds * 9 < 2 ^ 64 ->
  train_cutoff_index ds = size ds * 9 / 10
  /\ 0 <= train_cutoff_index ds <= size ds
  /\ train_cutoff_index ds + (size ds - train_cutoff_index ds) = size ds
  /\ (1 <= size ds -> train_cutoff_index ds < size ds)
  /\ (train_cutoff_index ds = 0 <-> size ds <= 1)
  /\ 10 * train_cutoff_index ds <= 9 * size ds < 10 * train_cutoff_index ds + 10.
Proof.
  intros Hfit.
  assert (Hs : 0 <= size ds) by (unfold size; lia).
  assert (Hc : train_cutoff_index ds = size ds * 9 / 10).
  { unfold train_cutoff_index. rewrite wrap_small by lia. reflexivity. }
  rewrite Hc. clear Hc Hfit.
  pose proof (Z.div_mod (size ds * 9) 10 ltac:(lia)) as Hd.
  pose proof (Z.mod_pos_bound (size ds * 9) 10 ltac:(lia)) as Hm.
  set (q := size ds * 9 / 10) in *. set (r := (size ds * 9) mod 10) in *.
  clearbody q r. repeat split; lia.
Qed.

Lemma cutoff_splits_nine_to_one_witness :
  train_cutoff_index ten = 9 /\ size ten - train_cutoff_index ten = 1.
Proof.
  destruct (cutoff_splits_nine_to_one ten) as (H & _); [reflexivity |].
  rewrite H. split; reflexivity.
Defined.

End Partition.

(** ** Loading a file whose columns agree *)

Section LoadingBlocks.
Import Process Data.
Local Open Scope R_scope.

(** The column of the variable [k] in the file [f]. *)
Definition col (f : file) (k : nat) : list R :=
  uncompress f (nth k variable_names ""%string).

(** The sample [i] of a block once the variables [ks] have been stored, in
    that order. *)
Definition loaded_row (f : file) (ks : list nat) (i : nat) : sample :=
  fold_left (fun e k => <[k := nth i (col f k) 0]> e) ks zero_sample.

Lemma fold_alter_lookup {A : Type} (h : nat -> A -> A) (off m a : nat) (d : list A) (j : nat) :
  fold_left (fun d i => alter (h i) (off + i)%nat d) (seq a m) d !! j
  = if decide (off + a <= j < off + a + m)%nat
    then h (j - off)%nat <$> (d !! j) else d !! j.
Proof.
  revert a d. induction m as [| m IH]; intros a d; cbn [seq fold_left].
  - case_decide; [lia | reflexivity].
  - rewrite IH.
    destruct (decide (j = off + a)%nat) as [-> | Hne].
    + rewrite list_lookup_alter.
      replace (off + a - off)%nat with a by lia.
      repeat case_decide; try lia; reflexivity.
    + rewrite list_lookup_alter_ne by congruence.
      repeat case_decide; try lia; reflexivity.
Qed.

Lemma fold_alter_block {A : Type} (h : nat -> A -> A) (d0 : list A) (g : nat -> A) (n : nat) :
  fold_left (fun d i => alter (h i) (length d0 + i)%nat d) (seq 0 n)
    (d0 ++ map g (seq 0 n))
  = d0 ++ map (fun i => h i (g i)) (seq 0 n).
Proof.
  apply list_eq. intros j. rewrite fold_alter_lookup.
  destruct (Nat.lt_ge_cases j (length d0)) as [Hlt | Hge].
  - case_decide; [lia |]. now rewrite !lookup_app_l.
  - rewrite !lookup_app_r, !list_lookup_fmap by exact Hge.
    destruct (Nat.lt_ge_cases (j - length d0) n) as [Hin | Hout].
    + case_decide; [| lia].
      rewrite lookup_seq_lt by exact Hin. reflexivity.
    + case_decide; [lia |].
      rewrite lookup_seq_ge by exact Hout. reflexivity.
Qed.

Lemma store_column_block (d0 : list sample) (g : nat -> sample) (k : nat) (variables : list R) :
  store_column (length d0) k variables (d0 ++ map g (seq 0 (length variables)))
  = d0 ++ map (fun i => <[k := nth i variables 0]> (g i)) (seq 0 (length variables)).
Proof.
  unfold store_column.
  apply (fold_alter_block (fun i e => <[k := nth i variables 0]> e)).
Qed.

Lemma store_score_block (d0 : list sample) (g : nat -> sample) (n : nat) (score : bool) :
  store_score (length d0) score (d0 ++ map g (seq 0 n))
  = d0 ++ map (fun i => <[full_variable_count := double_of_bool score]> (g i)) (seq 0 n).
Proof.
  unfold store_score.
  rewrite length_app, length_map, length_seq.
  replace (length d0 + n - length d0)%nat with n by lia.
  apply list_eq. intros j.
  rewrite (fold_alter_lookup
             (fun _ e => <[full_variable_count := double_of_bool score]> e) 0).
  cbn [Nat.add].
  destruct (Nat.lt_ge_cases j (length d0)) as [Hlt | Hge].
  - case_decide; [lia |]. now rewrite !lookup_app_l.
  - rewrite !lookup_app_r, !list_lookup_fmap by exact Hge.
    destruct (Nat.lt_ge_cases (j - length d0) n) as [Hin | Hout].
    + case_decide; [| lia].
      rewrite lookup_seq_lt by exact Hin. reflexivity.
    + case_decide; [lia |].
      rewrite lookup_seq_ge by exact Hout. reflexivity.
Qed.

Lemma map_constant_seq {A : Type} (x : A) (a n : nat) :
  map (fun _ => x) (seq a n) = repeat x n.
Proof.
  revert a. induction n as [| n IH]; intros a; cbn; [reflexivity |].
  now rewrite IH.
Qed.

Lemma established_first (d0 : list sample) (variables : list R) :
  established (length d0) variables d0
  = d0 ++ map (fun _ => zero_sample) (seq 0 (length variables)).
Proof.
  unfold established, resize. rewrite Nat.eqb_refl.
  rewrite take_ge by lia. rewrite map_constant_seq.
  now replace (length d0 + length variables - length d0)%nat
    with (length variables) by lia.
Qed.

Lemma established_later (d0 : list sample) (g : nat -> sample) (variables : list R) :
  established (length d0) variables (d0 ++ map g (seq 0 (length variables)))
  = d0 ++ map g (seq 0 (length variables)).
Proof.
  unfold established, resize.
  destruct (Nat.eqb_spec (length (d0 ++ map g (seq 0 (length variables)))) (length d0))
    as [E | E]; [| reflexivity].
  rewrite length_app, length_map, length_seq in E.
  assert (E0 : length variables = 0%nat) by lia.
  rewrite E0. cbn [seq map]. rewrite app_nil_r, Nat.add_0_r.
  rewrite take_ge by lia. rewrite Nat.sub_diag. cbn. now rewrite app_nil_r.
Qed.

(** A call of [read_variable] that finds, or makes, a block of the length
    of its column stores the column and goes on. *)
Lemma read_variable_stores (f : file) (score : bool) (d0 : list sample) (g : nat -> sample) (k : nat) (w : loader) :
  established (length d0) (col f k) (data w)
  = d0 ++ map g (seq 0 (length (col f k))) ->
  read_variable f score (length d0) k w
  = Continue
      {| data := d0 ++ map (fun i => <[k := nth i (col f k) 0]> (g i))
                           (seq 0 (length (col f k)));
         output := output w
                   ++ [read_values (length (col f k)) score
                         (nth k variable_names ""%string)] |}.
Proof.
  intros He. unfold read_variable. cbv zeta. fold (col f k).
  fold (established (length d0) (col f k) (data w)). rewrite He.
  rewrite length_app, length_map, length_seq, Nat.eqb_refl. cbn [negb].
  unfold print. cbn [data output]. now rewrite store_column_block.
Qed.

(** The remaining columns, all of the length of the block. *)
Lemma read_columns_later (f : file) (score : bool) (d0 : list sample) (n : nat) (ks : list nat) :
  Forall (fun k => length (col f k) = n) ks ->
  forall (g : nat -> sample) (w : loader),
    data w = d0 ++ map g (seq 0 n) ->
    exists w',
      loop_threaded (read_variable f score (length d0)) ks w = Continue w'
      /\ data w'
         = d0 ++ map (fun i => fold_left (fun e k => <[k := nth i (col f k) 0]> e) ks (g i))
                     (seq 0 n).
Proof.
  induction 1 as [| k ks Hk _ IH]; intros g w Hw; cbn [loop_threaded].
  - exists w. now split.
  - rewrite (read_variable_stores f score d0 g k w)
      by (rewrite Hw, <- Hk; apply established_later).
    rewrite Hk.
    destruct (IH (fun i => <[k := nth i (col f k) 0]> (g i))
                 {| data := d0 ++ map (fun i => <[k := nth i (col f k) 0]> (g i)) (seq 0 n);
                    output := output w ++ [read_values n score (nth k variable_names ""%string)] |}
                 eq_refl) as (w' & Hrun & Hdata).
    exists w'. split; [exact Hrun | exact Hdata].
Qed.

Lemma fold_insert_length (v : nat -> R) (ks : list nat) (e : sample) :
  length (fold_left (fun e k => <[k := v k]> e) ks e) = length e.
Proof.
  unfold sample in *.
  revert e. induction ks as [| k ks IH]; intros e; cbn [fold_left]; [reflexivity |].
  now rewrite IH, length_insert.
Qed.

Lemma fold_insert_other (v : nat -> R) (ks : list nat) (e : sample) (j : nat) :
  ~ In j ks -> nth j (fold_left (fun e k => <[k := v k]> e) ks e) 0 = nth j e 0.
Proof.
  revert e. induction ks as [| k ks IH]; intros e Hj; cbn [fold_left]; [reflexivity |].
  cbn [In] in Hj. rewrite IH by tauto. apply nth_insert_other. tauto.
Qed.

Lemma fold_insert_same (v : nat -> R) (ks : list nat) (e : sample) (j : nat) :
  In j ks -> (j < length e)%nat ->
  nth j (fold_left (fun e k => <[k := v k]> e) ks e) 0 = v j.
Proof.
  revert e. induction ks as [| k ks IH]; intros e Hj Hlt; cbn [fold_left]; [easy |].
  destruct (in_dec Nat.eq_dec j ks) as [Hin | Hout].
  - apply IH; [exact Hin | unfold sample in *; now rewrite length_insert].
  - destruct Hj as [-> | Hj]; [| contradiction].
    rewrite fold_insert_other by exact Hout. now apply nth_insert_same.
Qed.

(** The sample [i] of a loaded block: the values at place [i] of the
    columns, in the order of [variable_names], then the score. *)
Definition block_row (f : file) (score : bool) (i : nat) : sample :=
  map (fun k => nth i (col f k) 0) (seq 0 full_variable_count)
  ++ [double_of_bool score].

Lemma loaded_row_full (f : file) (score : bool) (order : list nat) (i : nat) :
  Permutation order (seq 0 full_variable_count) ->
  <[full_variable_count := double_of_bool score]> (loaded_row f order i)
  = block_row f score i.
Proof.
  intros Hperm. unfold loaded_row, block_row.
  set (v := fun k => nth i (col f k) 0).
  assert (Hz : length zero_sample = S full_variable_count) by reflexivity.
  unfold sample in *.
  apply (nth_ext _ _ 0 0).
  - rewrite length_insert, fold_insert_length, length_app, length_map, length_seq.
    reflexivity.
  - rewrite length_insert, fold_insert_length. intros j Hj.
    rewrite Hz in Hj.
    destruct (Nat.eq_dec j full_variable_count) as [-> | Hne].
    + rewrite nth_insert_same by (rewrite fold_insert_length; exact Hj).
      rewrite app_nth2 by (rewrite length_map, length_seq; lia).
      rewrite length_map, length_seq, Nat.sub_diag. reflexivity.
    + rewrite nth_insert_other by congruence.
      rewrite fold_insert_same;
        [| apply (Permutation_in _ (Permutation_sym Hperm)), in_seq; lia
         | rewrite Hz; lia].
      rewrite app_nth1 by (rewrite length_map, length_seq; lia).
      rewrite (nth_indep (map v _) 0 (v 0%nat)) by (rewrite length_map, length_seq; lia).
      rewrite (map_nth v), seq_nth by lia. reflexivity.
Qed.

(** X6: when every column of a file holds [n] values, [read_from_file]
    goes on, whatever the order in which the threads take the variables,
    and it appends [n] samples to the samples already there, which it
    leaves untouched: the sample [i] of the block holds the values at place
    [i] of the thirteen columns, in the order of [variable_names], followed
    by the score of the file. *)
Theorem read_from_file_appends_block
    (order : list nat) (f : file) (score : bool) (w : loader) (n : nat) :
  Permutation order (seq 0 full_variable_count) ->
  (forall k, (k < full_variable_count)%nat -> length (col f k) = n) ->
  exists w',
    read_from_file order f score w = Continue w'
    /\ data w' = data w ++ map (block_row f score) (seq 0 n)
    /\ length (data w') = (length (data w) + n)%nat.
Proof.
  intros Hperm Hlen.
  assert (Hall : Forall (fun k => length (col f k) = n) order).
  { apply List.Forall_forall. intros k Hk.
    apply (Permutation_in _ Hperm), in_seq in Hk. apply Hlen. lia. }
  destruct order as [| k ks];
    [apply Permutation_length in Hperm; discriminate |].
  inversion Hall as [| ? ? Hk Hks]; subst.
  unfold read_from_file. cbv zeta.
  set (w0 := print (reading_from_file (get_path f)) w).
  change (data w0) with (data w). cbn [loop_threaded].
  rewrite (read_variable_stores f score (data w) (fun _ => zero_sample) k w0)
    by apply established_first.
  destruct (read_columns_later f score (data w) (length (col f k)) ks Hks
              (fun i => <[k := nth i (col f k) 0]> zero_sample)
              {| data := data w ++ map (fun i => <[k := nth i (col f k) 0]> zero_sample)
                                       (seq 0 (length (col f k)));
                 output := output w0
                           ++ [read_values (length (col f k)) score
                                 (nth k variable_names ""%string)] |}
              eq_refl) as (w1 & Hrun & Hdata).
  rewrite Hrun. cbn [and_then]. eexists. split; [reflexivity |].
  unfold print. cbn [data]. rewrite Hdata, store_score_block.
  assert (Hrows : data w
                  ++ map (fun i => <[full_variable_count := double_of_bool score]>
                                     (loaded_row f (k :: ks) i)) (seq 0 (length (col f k)))
                  = data w ++ map (block_row f score) (seq 0 (length (col f k)))).
  { f_equal. apply map_ext. intros i. now apply loaded_row_full. }
  split.
  - exact Hrows.
  - unfold loaded_row in Hrows. cbn [fold_left] in Hrows. rewrite Hrows.
    now rewrite length_app, length_map, length_seq.
Qed.

(** A file with two values in every column. *)
Definition even_file : file :=
  {| get_path := "even.root"; uncompress := fun _ => [1; 2] |}.

Lemma read_from_file_appends_block_witness :
  exists w',
    read_from_file (seq 0 full_variable_count) even_file true
      {| data := []; output := [] |} = Continue w'
    /\ data w' = [block_row even_file true 0; block_row even_file true 1].
Proof.
  destruct (read_from_file_appends_block (seq 0 full_variable_count) even_file true
              {| data := []; output := [] |} 2) as (w' & Hrun & Hdata & _).
  - reflexivity.
  - intros k _. reflexivity.
  - exists w'. split; [exact Hrun | exact Hdata].
Defined.

Lemma read_first_and_later (f : file) (score : bool) (w : loader) (k : nat) (ks : list nat) :
  Forall (fun k' => length (col f k') = length (col f k)) ks ->
  exists w1,
    loop_threaded (read_variable f score (length (data w))) (k :: ks) w = Continue w1
    /\ data w1
       = data w ++ map (loaded_row f (k :: ks)) (seq 0 (length (col f k))).
Proof.
  intros Hks. cbn [loop_threaded].
  rewrite (read_variable_stores f score (data w) (fun _ => zero_sample) k w)
    by apply established_first.
  destruct (read_columns_later f score (data w) (length (col f k)) ks Hks
              (fun i => <[k := nth i (col f k) 0]> zero_sample)
              {| data := data w ++ map (fun i => <[k := nth i (col f k) 0]> zero_sample)
                                       (seq 0 (length (col f k)));
                 output := output w
                           ++ [read_values (length (col f k)) score
                                 (nth k variable_names ""%string)] |}
              eq_refl) as (w1 & Hrun & Hdata).
  exists w1. split; [exact Hrun | exact Hdata].
Qed.

Lemma fold_alter_length {A : Type} (h : nat -> A -> A) (off : nat) (l : list nat) (d : list A) :
  length (fold_left (fun d i => alter (h i) (off + i)%nat d) l d) = length d.
Proof.
  revert d. induction l as [| i l IH]; intros d; cbn [fold_left]; [reflexivity |].
  now rewrite IH, length_alter.
Qed.

(** Once the block has a size, a call of [read_variable] leaves it, whether
    the call returns or ends the process. *)
Lemma read_variable_keeps_size (f : file) (score : bool) (old_size k : nat) (w w' : loader) :
  length (data w) <> old_size ->
  read_variable f score old_size k w = Continue w'
  \/ (exists status, read_variable f score old_size k w = Exit status w') ->
  length (data w') = length (data w).
Proof.
  intros Hne. unfold read_variable. cbv zeta.
  apply Nat.eqb_neq in Hne. rewrite Hne.
  destruct (negb _); intros [H | (status & H)]; try discriminate.
  - injection H as _ <-. reflexivity.
  - injection H as <-. cbn [data print]. unfold store_column.
    apply (fold_alter_length (fun i e => <[k := nth i _ 0]> e)).
Qed.

Lemma read_columns_keep_size (f : file) (score : bool) (old_size : nat) (order : list nat) :
  forall w w',
    length (data w) <> old_size ->
    loop_threaded (read_variable f score old_size) order w = Continue w'
    \/ (exists status, loop_threaded (read_variable f score old_size) order w = Exit status w') ->
    length (data w') = length (data w).
Proof.
  induction order as [| k order IH]; intros w w' Hne Hrun; cbn [loop_threaded] in Hrun.
  - destruct Hrun as [[= <-] | (status & [=])]. reflexivity.
  - destruct (read_variable f score old_size k w) as [w1 | st w1 | |] eqn:Hrv;
      [| | destruct Hrun as [H | (status & H)]; discriminate
         | destruct Hrun as [H | (status & H)]; discriminate].
    + rewrite <- (read_variable_keeps_size f score old_size k w w1 Hne (or_introl Hrv)).
      apply IH; [| exact Hrun].
      now rewrite (read_variable_keeps_size f score old_size k w w1 Hne (or_introl Hrv)).
    + assert (Hk : length (data w1) = length (data w))
        by (apply (read_variable_keeps_size f score old_size k); [exact Hne | right; eauto]).
      rewrite <- Hk. apply IH; [now rewrite Hk |].
      destruct (loop_threaded (read_variable f score old_size) order w1) as [w2 | st2 w2 | |];
        cbn [exiting] in Hrun.
      * destruct Hrun as [[=] | (status & [= _ <-])]. now left.
      * destruct Hrun as [[=] | (status & [= _ <-])]. right. eauto.
      * destruct Hrun as [[=] | (status & [=])].
      * destruct Hrun as [[=] | (status & [=])].
Qed.

(** X7: the first column read sets the size of the block.  If it holds at
    least one value, the first later column of another length, an empty one
    included, ends the process with [EXIT_FAILURE], and the error that
    names the file, the sizes and that column is printed.  The other
    workers are not stopped; whatever they still store, the block keeps the
    size the first column gave it. *)
Theorem first_column_sets_block_size
    (f : file) (score : bool) (w : loader) (k k' : nat) (pre post : list nat) :
  (0 < length (col f k))%nat ->
  Forall (fun j => length (col f j) = length (col f k)) pre ->
  length (col f k') <> length (col f k) ->
  exists stopped,
    read_from_file (k :: pre ++ k' :: post) f score w = Exit EXIT_FAILURE stopped
    /\ length (data stopped) = (length (data w) + length (col f k))%nat
    /\ In (inconsistent_variable_counts (get_path f) (length (data w))
             (length (col f k')) (length (data w) + length (col f k))
             (nth k' variable_names ""%string))
          (output stopped).
Proof.
  intros Hpos Hpre Hne.
  set (w0 := print (reading_from_file (get_path f)) w).
  destruct (read_first_and_later f score w0 k pre Hpre) as (w1 & Hrun & Hdata).
  change (data w0) with (data w) in Hrun, Hdata.
  assert (Hlen : length (data w1) = (length (data w) + length (col f k))%nat)
    by (rewrite Hdata, length_app, length_map, length_seq; reflexivity).
  assert (Hest : established (length (data w)) (col f k') (data w1) = data w1).
  { unfold established.
    destruct (Nat.eqb_spec (length (data w1)) (length (data w))); [lia | reflexivity]. }
  assert (Hmis : mismatch f (length (data w)) k' (data w1)).
  { unfold mismatch. cbv zeta. fold (col f k'). rewrite Hest, Hlen. lia. }
  pose proof (read_variable_mismatch f score _ _ w1 Hmis) as Hexit.
  set (w2 := {| data := data w1;
                output := output w1 ++ [diagnostic f (length (data w)) k' (data w1)] |}) in *.
  destruct (read_columns_total f score (length (data w)) post w2)
    as (stopped & later & Hrest & Hout & _).
  assert (Hkeep : length (data stopped) = length (data w2)).
  { apply (read_columns_keep_size f score (length (data w)) post).
    - cbn [w2 data]. lia.
    - destruct Hrest as [H | H]; [now left | right; eauto]. }
  exists stopped. split; [| split].
  - unfold read_from_file. cbv zeta. fold w0. change (data w0) with (data w).
    change (k :: pre ++ k' :: post) with ((k :: pre) ++ k' :: post).
    rewrite (loop_threaded_stops _ _ _ _ _ _ _ _ Hrun Hexit).
    destruct Hrest as [-> | ->]; reflexivity.
  - rewrite Hkeep. exact Hlen.
  - rewrite Hout. cbn [w2 output]. apply in_app_iff. left.
    apply in_app_iff. right. left.
    unfold diagnostic. cbv zeta. fold (col f k'). now rewrite Hest, Hlen.
Qed.

(** The second column of this file holds one value, the others two. *)
Definition short_second_file : file :=
  {| get_path := "short.root";
     uncompress := fun name => if String.eqb name "h1_P" then [1] else [1; 2] |}.

Lemma first_column_sets_block_size_witness :
  exists stopped,
    read_from_file (seq 0 full_variable_count) short_second_file false
      {| data := []; output := [] |} = Exit EXIT_FAILURE stopped
    /\ length (data stopped) = 2%nat
    /\ In (inconsistent_variable_counts "short.root" 0 1 2 "h1_P") (output stopped).
Proof.
  destruct (first_column_sets_block_size short_second_file false
              {| data := []; output := [] |} 0 1 [] (seq 2 11))
    as (stopped & Hrun & Hlen & Hin).
  - cbn. lia.
  - constructor.
  - cbn. lia.
  - exists stopped. split; [exact Hrun |]. split; [exact Hlen | exact Hin].
Defined.




End LoadingBlocks.

(** ** Normalization: the order of the tasks, and a second pass *)

Section NormalizationOrder.
Import Process Data.
Local Open Scope R_scope.

Lemma columns_ext (d1 d2 : list sample) :
  well_formed d1 -> well_formed d2 ->
  (forall j, column j d1 = column j d2) -> d1 = d2.
Proof.
  intros H1. revert d2. induction H1 as [| e1 d1 He1 _ IH]; intros d2 H2 Hcol.
  - destruct d2; [reflexivity |]. specialize (Hcol 0%nat). discriminate.
  - destruct H2 as [| e2 d2 He2 H2]; [specialize (Hcol 0%nat); discriminate |].
    f_equal.
    + apply (nth_ext _ _ 0 0); [congruence |]. intros j _.
      specialize (Hcol j). now injection Hcol.
    + apply IH; [exact H2 |]. intros j. specialize (Hcol j). now injection Hcol.
Qed.

Lemma order_facts (order : list nat) :
  Permutation order (seq 0 variable_count) ->
  List.NoDup order
  /\ Forall (fun j => (j <= full_variable_count)%nat) order
  /\ forall j, In j order <-> (j < variable_count)%nat.
Proof.
  intros Hperm.
  assert (Hmem : forall j, In j order <-> (j < variable_count)%nat).
  { intros j. split; intros H.
    - apply (Permutation_in _ Hperm), in_seq in H. lia.
    - apply (Permutation_in _ (Permutation_sym Hperm)), in_seq. lia. }
  split; [| split; [| exact Hmem]].
  - apply (Permutation_NoDup (Permutation_sym Hperm)), seq_NoDup.
  - apply List.Forall_forall. intros j Hj. apply Hmem in Hj.
    unfold variable_count in Hj. lia.
Qed.

(** X9: the result of the normalization does not depend on the order in
    which the threads take the variables: any two orders that take every
    model input once give the same dataset. *)
Theorem normalization_order_is_irrelevant (o1 o2 : list nat) (d : list sample) :
  well_formed d -> d <> [] ->
  Permutation o1 (seq 0 variable_count) ->
  Permutation o2 (seq 0 variable_count) ->
  exists d',
    loop_threaded normalize_variable o1 d = Continue d'
    /\ loop_threaded normalize_variable o2 d = Continue d'.
Proof.
  intros Hwf Hne H1 H2.
  destruct (order_facts o1 H1) as (Hnd1 & Hr1 & Hm1).
  destruct (order_facts o2 H2) as (Hnd2 & Hr2 & Hm2).
  destruct (normalize_loop_spec o1 d Hwf Hne Hnd1 Hr1) as (d1 & Hl1 & Hwf1 & _ & Hin1 & Hout1).
  destruct (normalize_loop_spec o2 d Hwf Hne Hnd2 Hr2) as (d2 & Hl2 & Hwf2 & _ & Hin2 & Hout2).
  exists d1. split; [exact Hl1 |]. rewrite Hl2. f_equal.
  apply columns_ext; try assumption. intros j.
  destruct (Nat.lt_ge_cases j variable_count) as [Hlt | Hge].
  - destruct (column_has_max j d Hne) as [M HM].
    rewrite (Hin1 j M), (Hin2 j M); try assumption; [reflexivity | |];
      [apply Hm2 | apply Hm1]; exact Hlt.
  - rewrite Hout1, Hout2; [reflexivity | |]; rewrite ?Hm1, ?Hm2; lia.
Qed.

Lemma normalization_order_is_irrelevant_witness :
  exists d',
    loop_threaded normalize_variable (seq 0 variable_count) positive_data = Continue d'
    /\ loop_threaded normalize_variable (rev (seq 0 variable_count)) positive_data = Continue d'.
Proof.
  apply normalization_order_is_irrelevant.
  - repeat constructor.
  - discriminate.
  - reflexivity.
  - symmetry. apply Permutation_rev.
Defined.

(** X10: when every model input has a positive maximum, a second
    normalization changes nothing. *)
Theorem normalization_is_idempotent (o1 o2 : list nat) (d : list sample) :
  well_formed d ->
  (forall i, (i < variable_count)%nat -> exists M, is_max M (column i d) /\ 0 < M) ->
  Permutation o1 (seq 0 variable_count) ->
  Permutation o2 (seq 0 variable_count) ->
  exists d',
    loop_threaded normalize_variable o1 d = Continue d'
    /\ loop_threaded normalize_variable o2 d' = Continue d'.
Proof.
  intros Hwf Hpos H1 H2.
  assert (Hne : d <> []).
  { destruct (Hpos 0%nat) as (M & [Hin _] & _); [cbn; lia |]. now destruct d. }
  destruct (order_facts o1 H1) as (Hnd1 & Hr1 & Hm1).
  destruct (order_facts o2 H2) as (Hnd2 & Hr2 & Hm2).
  destruct (normalize_loop_spec o1 d Hwf Hne Hnd1 Hr1) as (d1 & Hl1 & Hwf1 & Hne1 & Hin1 & Hout1).
  destruct (normalize_loop_spec o2 d1 Hwf1 Hne1 Hnd2 Hr2) as (d2 & Hl2 & Hwf2 & _ & Hin2 & Hout2).
  exists d1. split; [exact Hl1 |]. rewrite Hl2. f_equal.
  apply columns_ext; try assumption. intros j.
  destruct (Nat.lt_ge_cases j variable_count) as [Hlt | Hge].
  - destruct (Hpos j Hlt) as (M & HM & HMpos).
    assert (H1' : is_max 1 (column j d1)).
    { rewrite (Hin1 j M) by (try assumption; now apply Hm1).
      now apply is_max_div_pos. }
    rewrite (Hin2 j 1) by (try assumption; now apply Hm2).
    rewrite <- (map_id (column j d1)) at 2. apply map_ext. intros x. field.
  - apply Hout2. rewrite Hm2. lia.
Qed.

Lemma positive_data_maxima (i : nat) :
  (i < variable_count)%nat -> exists M, is_max M (column i positive_data) /\ 0 < M.
Proof.
  intros Hi. unfold variable_count, full_variable_count in Hi. cbn in Hi.
  destruct i as [| i].
  - exists 2. split; [| lra]. cbv [column positive_data map nth].
    split; [right; now left |].
    constructor; [lra |]. constructor; [lra |]. constructor.
  - exists 1. split; [| lra].
    do 11 (destruct i as [| i];
           [cbv [column positive_data map nth]; split; [now left |];
            constructor; [lra |]; constructor; [lra |]; constructor |]).
    lia.
Qed.

Lemma normalization_is_idempotent_witness :
  exists d',
    loop_threaded normalize_variable (seq 0 variable_count) positive_data = Continue d'
    /\ loop_threaded normalize_variable (seq 0 variable_count) d' = Continue d'.
Proof.
  apply normalization_is_idempotent.
  - repeat constructor.
  - exact positive_data_maxima.
  - reflexivity.
  - reflexivity.
Defined.

End NormalizationOrder.

(** ** The whole of [create_data] *)

Section Pipeline.
Import Process Data.
Local Open Scope R_scope.

(** A sample as loading leaves it: of full length, its score 0 or 1. *)
Definition labelled (e : sample) : Prop :=
  length e = S full_variable_count
  /\ (nth full_variable_count e 0 = 0 \/ nth full_variable_count e 0 = 1).

(** The discriminant and the score of a sample. *)
Definition tag (e : sample) : R * R :=
  (nth (full_variable_count - 1) e 0, nth full_variable_count e 0).

Lemma labelled_zero_sample : labelled zero_sample.
Proof. split; [reflexivity | now left]. Qed.

Lemma labelled_insert_variable (k : nat) (x : R) (e : sample) :
  (k < full_variable_count)%nat -> labelled e -> labelled (<[k := x]> e).
Proof.
  intros Hk [Hlen Hs]. unfold sample in *. split.
  - now rewrite length_insert.
  - rewrite nth_insert_other by lia. exact Hs.
Qed.

Lemma labelled_insert_score (score : bool) (e : sample) :
  labelled e -> labelled (<[full_variable_count := double_of_bool score]> e).
Proof.
  intros [Hlen Hs]. unfold sample in *. split.
  - now rewrite length_insert.
  - rewrite nth_insert_same by lia. destruct score; cbn; auto.
Qed.

Lemma Forall_fold_alter {A : Type} (P : A -> Prop) (h : nat -> A -> A) (at_ : nat -> nat) (l : list nat) (d : list A) :
  (forall i x, P x -> P (h i x)) ->
  Forall P d ->
  Forall P (fold_left (fun d i => alter (h i) (at_ i) d) l d).
Proof.
  intros Hh. revert d. induction l as [| i l IH]; intros d Hd; cbn [fold_left].
  - exact Hd.
  - apply IH. apply Forall_alter; [exact Hd |]. intros x _. apply Hh.
Qed.

Lemma read_variable_labelled (f : file) (score : bool) (old_size k : nat) (w w' : loader) :
  (k < full_variable_count)%nat ->
  Forall labelled (data w) ->
  read_variable f score old_size k w = Continue w' ->
  Forall labelled (data w').
Proof.
  intros Hk Hw. unfold read_variable. cbv zeta.
  destruct (negb _); [discriminate |]. intros [= <-]. cbn [data].
  unfold store_column. apply Forall_fold_alter.
  - intros i e. now apply labelled_insert_variable.
  - unfold print. cbn [data].
    destruct (length (data w) =? old_size)%nat; [| exact Hw].
    unfold resize. apply Forall_app. split.
    + now apply Forall_take.
    + apply List.Forall_forall. intros e He. apply repeat_spec in He. subst.
      exact labelled_zero_sample.
Qed.

Lemma loop_threaded_invariant {S : Type} (P : S -> Prop) (func : nat -> S -> run S) (order : list nat) (Q : nat -> Prop) :
  (forall i s s', Q i -> P s -> func i s = Continue s' -> P s') ->
  Forall Q order ->
  forall s s', P s -> loop_threaded func order s = Continue s' -> P s'.
Proof.
  intros Hstep. induction 1 as [| i order Hi _ IH]; intros s s' Hs Hrun;
    cbn [loop_threaded] in Hrun.
  - now injection Hrun as <-.
  - destruct (func i s) as [s1 | status s1 | |] eqn:Hf; try discriminate;
      [| now apply exiting_not_continue in Hrun].
    apply (IH s1); [| exact Hrun]. now apply (Hstep i s).
Qed.

Lemma read_from_file_labelled (order : list nat) (f : file) (score : bool) (w w' : loader) :
  Forall (fun k => (k < full_variable_count)%nat) order ->
  Forall labelled (data w) ->
  read_from_file order f score w = Continue w' ->
  Forall labelled (data w').
Proof.
  intros Horder Hw. unfold read_from_file. cbv zeta.
  destruct (loop_threaded _ order _) as [w1 | | |] eqn:Hloop; try discriminate.
  cbn [and_then]. intros [= <-]. unfold print. cbn [data].
  unfold store_score. apply Forall_fold_alter.
  - intros i e. apply labelled_insert_score.
  - apply (loop_threaded_invariant (fun w => Forall labelled (data w)) _ order
             (fun k => (k < full_variable_count)%nat)) in Hloop; try assumption.
    intros i s s' Hi Hs. now apply read_variable_labelled.
Qed.

Lemma read_all_labelled (env : environment) (files : list (string * bool)) (w w' : loader) :
  (forall path, Forall (fun k => (k < full_variable_count)%nat) (read_order env path)) ->
  Forall labelled (data w) ->
  read_all env files w = Continue w' ->
  Forall labelled (data w').
Proof.
  intros Horder. revert w. induction files as [| [path score] files IH];
    intros w Hw Hrun; cbn [read_all] in Hrun.
  - now injection Hrun as <-.
  - destruct (read_from_file _ _ score w) as [w1 | | |] eqn:Hf; try discriminate.
    cbn [and_then] in Hrun. apply (IH w1); [| exact Hrun].
    exact (read_from_file_labelled _ _ _ _ _ (Horder path) Hw Hf).
Qed.

Lemma same_tags (d d' : list sample) :
  column (full_variable_count - 1) d' = column (full_variable_count - 1) d ->
  column full_variable_count d' = column full_variable_count d ->
  map tag d' = map tag d.
Proof.
  revert d'. induction d as [| e d IH]; intros [| e' d'] H1 H2; try discriminate.
  - reflexivity.
  - unfold column in H1, H2. cbn [map] in H1, H2.
    injection H1 as H1 H1'. injection H2 as H2 H2'.
    cbn [map]. f_equal; [| now apply IH].
    unfold tag. f_equal; [exact H1 | exact H2].
Qed.

Lemma Forall_by_tag (Q : R * R -> Prop) (d d' : list sample) :
  map tag d' = map tag d ->
  Forall (fun e => Q (tag e)) d -> Forall (fun e => Q (tag e)) d'.
Proof.
  revert d'. induction d as [| e d IH]; intros [| e' d'] H Hd; try discriminate.
  - constructor.
  - cbn [map] in H.
    assert (Ht : tag e' = tag e) by congruence.
    assert (Hm : map tag d' = map tag d) by congruence.
    inversion Hd; subst. constructor; [now rewrite Ht | now apply IH].
Qed.

Lemma count_by_tag (d d' : list sample) :
  map tag d' = map tag d -> count_if is_real d' = count_if is_real d.
Proof.
  unfold count_if.
  revert d'. induction d as [| e d IH]; intros [| e' d'] H; try discriminate.
  - reflexivity.
  - cbn [map] in H.
    assert (Ht : tag e' = tag e) by congruence.
    assert (Hm : map tag d' = map tag d) by congruence.
    cbn [List.filter].
    assert (Hr : is_real e' = is_real e).
    { unfold is_real. apply (f_equal snd) in Ht. cbn [tag snd] in Ht.
      now rewrite Ht. }
    rewrite Hr. destruct (is_real e); cbn [length]; now rewrite (IH d').
Qed.

Lemma count_if_Permutation {A : Type} (p : A -> bool) (l l' : list A) :
  Permutation l l' -> count_if p l = count_if p l'.
Proof.
  unfold count_if. induction 1 as [| x l l' _ IH | x y l | l l' l'' _ IH1 _ IH2];
    cbn [List.filter].
  - reflexivity.
  - destruct (p x); cbn [length]; now rewrite IH.
  - destruct (p x), (p y); reflexivity.
  - now rewrite IH1.
Qed.

(** What the filter of line 162 leaves, said of the tag of a sample. *)
Definition consistent (t : R * R) : Prop :=
  (Rabs (fst t - 5619.60) < 300.0 <-> snd t = 1)
  /\ (300.0 <= Rabs (fst t - 5619.60) <-> snd t = 0).

Lemma kept_is_consistent (e : sample) :
  window_differs_from_score e = false -> consistent (tag e).
Proof.
  intros H. apply window_differs_false in H. unfold score_of_sample in H.
  unfold consistent, tag. cbn [fst snd]. rewrite <- H.
  rewrite double_of_bool_one, double_of_bool_zero.
  unfold in_window. now rewrite Rltb_true, Rltb_false.
Qed.

(** X11: [create_data] as a whole.  When the files load, the shuffle is a
    permutation and the filter leaves at least one sample, [create_data]
    returns; the dataset it returns has as many samples as the filter
    left, all of full length with a score of 0 or 1; each of them lies
    inside the window exactly when its score is 1 and outside exactly when
    its score is 0; and the fraction returned is the number of samples of
    score 0 in that dataset over its size, between 0 and 1. *)
Theorem create_data_returns_consistent_dataset (env : environment) (w : loader) :
  (forall path, Forall (fun k => (k < full_variable_count)%nat) (read_order env path)) ->
  (forall l, Permutation (shuffle env l) l) ->
  Permutation (normalize_order env) (seq 0 variable_count) ->
  read_all env sources {| data := []; output := [] |} = Continue w ->
  erase_if window_differs_from_score (data w) <> [] ->
  exists (out : loader) (fraction_background : R),
    create_data env = Continue (out, fraction_background)
    /\ length (data out) = length (erase_if window_differs_from_score (data w))
    /\ Forall labelled (data out)
    /\ Forall (fun e => consistent (tag e)) (data out)
    /\ fraction_background
       = INR (count_if is_real (data out)) / INR (length (data out))
    /\ 0 <= fraction_background <= 1.
Proof.
  intros Horder Hshuffle Hnorm Hread Hne.
  set (filtered := erase_if window_differs_from_score (data w)) in *.
  set (shuffled := shuffle env filtered).
  assert (Hperm : Permutation shuffled filtered) by apply Hshuffle.
  assert (Hlab0 : Forall labelled (data w)).
  { apply (read_all_labelled env sources _ _ Horder) in Hread; [exact Hread |].
    constructor. }
  assert (Hlab1 : Forall labelled filtered).
  { apply List.Forall_forall. intros e He. apply erase_if_In in He as [He _].
    rewrite List.Forall_forall in Hlab0. now apply Hlab0. }
  assert (Hcon1 : Forall (fun e => consistent (tag e)) filtered).
  { apply List.Forall_forall. intros e He. apply erase_if_In in He as [_ He].
    now apply kept_is_consistent. }
  assert (Hlab2 : Forall labelled shuffled)
    by (eapply Permutation_Forall; [symmetry; exact Hperm | exact Hlab1]).
  assert (Hcon2 : Forall (fun e => consistent (tag e)) shuffled)
    by (eapply Permutation_Forall; [symmetry; exact Hperm | exact Hcon1]).
  assert (Hne2 : shuffled <> []).
  { intros E. rewrite E in Hperm. apply Permutation_nil in Hperm. contradiction. }
  assert (Hwf2 : well_formed shuffled).
  { eapply Forall_impl; [exact Hlab2 |]. now intros e [He _]. }
  destruct (order_facts _ Hnorm) as (Hnd & Hr & Hmem).
  destruct (normalize_loop_spec _ shuffled Hwf2 Hne2 Hnd Hr)
    as (d' & Hloop & Hwf' & Hne' & _ & Hout).
  assert (Htags : map tag d' = map tag shuffled).
  { apply same_tags; apply Hout; rewrite Hmem; unfold variable_count;
      unfold full_variable_count; cbn; lia. }
  assert (Hlen : length d' = length filtered).
  { apply (f_equal (@length _)) in Htags. rewrite !length_map in Htags.
    rewrite Htags. now apply Permutation_length. }
  assert (Hcount : count_if is_real d' = count_if is_real filtered).
  { rewrite (count_by_tag _ _ Htags). now apply count_if_Permutation. }
  eexists. eexists. split.
  { unfold create_data. rewrite Hread. cbn [and_then]. cbv zeta.
    fold filtered. fold shuffled. rewrite Hloop. cbn [and_then]. reflexivity. }
  unfold print. cbn [data].
  split; [exact Hlen |]. split; [| split; [| split]].
  - apply List.Forall_forall. intros e He.
    unfold well_formed in Hwf'. rewrite List.Forall_forall in Hwf'.
    split; [now apply Hwf' |].
    assert (Hs : Forall (fun e => (fun t => snd t = 0 \/ snd t = 1) (tag e)) d').
    { apply (Forall_by_tag (fun t => snd t = 0 \/ snd t = 1) shuffled);
        [exact Htags |].
      eapply Forall_impl; [exact Hlab2 |]. now intros x [_ Hx]. }
    rewrite List.Forall_forall in Hs. now apply Hs.
  - now apply (Forall_by_tag consistent shuffled).
  - now rewrite Hcount.
  - assert (Hle : (count_if is_real filtered <= length filtered)%nat)
      by apply List.filter_length_le.
    assert (Hpos : 0 < INR (length d')).
    { apply lt_0_INR. destruct d'; [contradiction | cbn; lia]. }
    assert (H0 : 0 <= INR (count_if is_real filtered)) by apply pos_INR.
    assert (H1 : INR (count_if is_real filtered) <= INR (length d'))
      by (apply le_INR; lia).
    split.
    + apply Rmult_le_reg_r with (INR (length d')); [exact Hpos |].
      unfold Rdiv. rewrite Rmult_assoc, Rinv_l by lra. lra.
    + apply Rmult_le_reg_r with (INR (length d')); [exact Hpos |].
      unfold Rdiv. rewrite Rmult_assoc, Rinv_l by lra. lra.
Qed.

(** Four files of one event each: the real ones outside the window, the
    simulated ones at its centre. *)
Definition is_simulated (path : string) : bool :=
  String.eqb path "../data/Lb2pKmm_sim_mgUp_2018.root"
  || String.eqb path "../data/Lb2pKmm_sim_mgDn_2018.root".

Definition small_env : environment :=
  {| open_file := fun path =>
       {| get_path := path;
          uncompress := fun name =>
            if String.eqb name "Lb_M"
            then (if is_simulated path then [5619.60] else [5000])
            else [1] |};
     read_order := fun _ => seq 0 full_variable_count;
     normalize_order := seq 0 variable_count;
     shuffle := fun d => d |}.

Definition real_event : sample := [1; 1; 1; 1; 1; 1; 1; 1; 1; 1; 1; 1; 5000; 0].
Definition simulated_event : sample := [1; 1; 1; 1; 1; 1; 1; 1; 1; 1; 1; 1; 5619.60; 1].

Lemma small_env_loads :
  exists w,
    read_all small_env sources {| data := []; output := [] |} = Continue w
    /\ data w = [real_event; simulated_event; real_event; simulated_event].
Proof.
  eexists. split; [cbv -[IZR Q2R]; reflexivity | reflexivity].
Qed.

Lemma real_event_kept : window_differs_from_score real_event = false.
Proof.
  apply window_differs_false.
  assert (Hout : in_window real_event = false).
  { unfold in_window. apply Rltb_false.
    change (nth (full_variable_count - 1) real_event 0) with 5000.
    unfold Rabs. destruct (Rcase_abs _); lra. }
  rewrite Hout. reflexivity.
Qed.

Lemma small_env_order (path : string) :
  Forall (fun k => (k < full_variable_count)%nat) (read_order small_env path).
Proof.
  apply List.Forall_forall. intros k Hk. apply in_seq in Hk. lia.
Qed.

Lemma create_data_returns_consistent_dataset_witness :
  exists out fraction_background,
    create_data small_env = Continue (out, fraction_background)
    /\ Forall (fun e => consistent (tag e)) (data out)
    /\ 0 <= fraction_background <= 1.
Proof.
  destruct small_env_loads as (w & Hread & Hdata).
  destruct (create_data_returns_consistent_dataset small_env w)
    as (out & fb & Hrun & _ & _ & Hcon & _ & Hfb).
  - exact small_env_order.
  - reflexivity.
  - reflexivity.
  - exact Hread.
  - intros E.
    assert (Hin : In real_event (erase_if window_differs_from_score (data w))).
    { apply erase_if_In. split; [rewrite Hdata; now left | exact real_event_kept]. }
    rewrite E in Hin. exact Hin.
  - exists out, fb. split; [exact Hrun |]. split; [exact Hcon | exact Hfb].
Defined.

(** X12: when no sample is left after the filter, the first task of the
    normalization takes the maximum of an empty range: [create_data] has
    no defined result. *)
Theorem create_data_needs_a_sample (env : environment) (w : loader) :
  (forall l, Permutation (shuffle env l) l) ->
  normalize_order env <> [] ->
  read_all env sources {| data := []; output := [] |} = Continue w ->
  erase_if window_differs_from_score (data w) = [] ->
  create_data env = Undefined.
Proof.
  intros Hshuffle Hnorm Hread Hempty.
  unfold create_data. rewrite Hread. cbn [and_then]. cbv zeta. rewrite Hempty.
  assert (Hs : shuffle env [] = []).
  { apply Permutation_nil. symmetry. apply Hshuffle. }
  rewrite Hs. destruct (normalize_order env) as [| i rest]; [contradiction |].
  reflexivity.
Qed.

(** Four files without events. *)
Definition empty_env : environment :=
  {| open_file := fun path => {| get_path := path; uncompress := fun _ => [] |};
     read_order := fun _ => seq 0 full_variable_count;
     normalize_order := seq 0 variable_count;
     shuffle := fun d => d |}.

Lemma create_data_needs_a_sample_witness : create_data empty_env = Undefined.
Proof.
  assert (H : exists w,
             read_all empty_env sources {| data := []; output := [] |} = Continue w
             /\ data w = [])
    by (eexists; split; [cbv -[IZR Q2R]; reflexivity | reflexivity]).
  destruct H as (w & Hread & Hdata).
  apply (create_data_needs_a_sample empty_env w).
  - reflexivity.
  - discriminate.
  - exact Hread.
  - now rewrite Hdata.
Defined.

End Pipeline.

(** ** The operator's commands and the budget of a phase *)

Section Operator.
Import Machine Process Data Net.
Local Open Scope Z_scope.

(** A key that is neither [E] nor [R]: [P], or an invalid one. *)
Definition undecided (t : token) : Prop :=
  exists c, t = key c /\ Ascii.eqb c "E" = false /\ Ascii.eqb c "R" = false.

Lemma ask_undecided (junk rest : list token) (s : shared) :
  Forall undecided junk ->
  exists s1,
    ask (junk ++ rest) s = ask rest s1
    /\ train s1 = train s /\ reps s1 = reps s /\ excess_reps s1 = excess_reps s.
Proof.
  intros Hj. revert s. induction Hj as [| t junk (c & -> & HE & HR) _ IH]; intros s.
  - exists s. now repeat split.
  - cbn [app ask]. rewrite HE, HR.
    destruct (Ascii.eqb c "P").
    + destruct (IH (say (print_connections (connections (say ask_command s)))
                      (say ask_command s))) as (s1 & -> & H1 & H2 & H3).
      exists s1. now repeat split.
    + destruct (IH (say invalid_input (say ask_command s))) as (s1 & -> & H1 & H2 & H3).
      exists s1. now repeat split.
Qed.

(** X13: at the barrier after a training phase with nothing queued, the
    keys [P] and the invalid keys change neither the mode nor the budget;
    [E] switches to evaluation with [reps] at 0; [R] followed by a count
    [n] switches to training with a budget of [min(n, 100)] and queues the
    rest, [n - min(n, 100)]; and when the input ends before one of the two,
    the barrier never returns. *)
Theorem operator_sets_mode_and_budget
    (ds : dataset) (s : shared) (junk rest : list token) (n : Z) :
  excess_reps s = 0 -> train s = true ->
  Forall undecided junk ->
  - 2 ^ 63 <= n < 2 ^ 63 ->
  (cin s = junk ++ key "E" :: rest ->
   exists s',
     combine_updates ds s = Continue s'
     /\ train s' = false /\ reps s' = 0 /\ excess_reps s' = 0 /\ cin s' = rest)
  /\ (cin s = junk ++ key "R" :: number n :: rest ->
      exists s',
        combine_updates ds s = Continue s'
        /\ train s' = true /\ reps s' = Z.min n 100
        /\ excess_reps s' = n - Z.min n 100
        /\ reps s' + excess_reps s' = n
        /\ cin s' = rest)
  /\ (cin s = junk -> combine_updates ds s = Blocked).
Proof.
  intros He Ht Hj Hn.
  unfold combine_updates. cbv zeta.
  change (excess_reps (apply_updates s)) with (excess_reps s).
  change (train (apply_updates s)) with (train s).
  rewrite He, Ht. cbn [Z.eqb negb and_then].
  change (cin (apply_updates s)) with (cin s).
  split; [| split]; intros Hin; rewrite Hin.
  - destruct (ask_undecided junk (key "E" :: rest) (apply_updates s) Hj)
      as (s1 & -> & H1 & H2 & H3).
    cbn [ask Ascii.eqb Bool.eqb andb and_then]. eexists. split; [reflexivity |].
    unfold next_budget, std_min, ptrdiff_sub. cbn [train reps excess_reps cin say].
    change (excess_reps (apply_updates s)) with (excess_reps s) in H3.
    rewrite H3, He. cbn. now repeat split.
  - destruct (ask_undecided junk (key "R" :: number n :: rest) (apply_updates s) Hj)
      as (s1 & -> & H1 & H2 & H3).
    cbn [ask Ascii.eqb Bool.eqb andb and_then]. eexists. split; [reflexivity |].
    unfold next_budget, std_min, ptrdiff_sub. cbn [train reps excess_reps cin say].
    destruct (Z.ltb_spec 100 n).
    + rewrite Z.min_r by lia. rewrite swrap_small by lia. repeat split; lia.
    + rewrite Z.min_l by lia. rewrite swrap_small by lia. repeat split; lia.
  - destruct (ask_undecided junk [] (apply_updates s) Hj) as (s1 & H & _).
    rewrite app_nil_r in H. rewrite H. reflexivity.
Qed.

Lemma operator_sets_mode_and_budget_witness :
  exists s',
    combine_updates ten
      (initial ten 1 zero_connections [key "P"; key "x"; key "R"; number 250])
    = Continue s'
    /\ train s' = true /\ reps s' = 100 /\ excess_reps s' = 150.
Proof.
  destruct (operator_sets_mode_and_budget ten
              (initial ten 1 zero_connections [key "P"; key "x"; key "R"; number 250])
              [key "P"; key "x"] [] 250)
    as (_ & HR & _).
  - reflexivity.
  - reflexivity.
  - constructor; [exists "P"%char; now repeat split |].
    constructor; [exists "x"%char; now repeat split | constructor].
  - lia.
  - destruct (HR eq_refl) as (s' & Hrun & Ht & Hr & He & _).
    exists s'. split; [exact Hrun |]. split; [exact Ht |]. split; [exact Hr | exact He].
Defined.

(** X14: while repetitions are queued the barrier does not consult the
    operator: it takes [min(queue, 100)] of them as the budget of the next
    phase and leaves the rest queued, the mode, the input and the output as
    they are; a positive queue gives a budget between 1 and 100 and gets
    shorter. *)
Theorem queued_repetitions_need_no_operator (ds : dataset) (s : shared) :
  excess_reps s <> 0 ->
  - 2 ^ 63 <= excess_reps s < 2 ^ 63 ->
  exists s',
    combine_updates ds s = Continue s'
    /\ cin s' = cin s /\ cout s' = cout s /\ train s' = train s
    /\ reps s' = Z.min (excess_reps s) 100
    /\ reps s' + excess_reps s' = excess_reps s
    /\ (0 < excess_reps s ->
        0 < reps s' <= 100 /\ 0 <= excess_reps s' < excess_reps s).
Proof.
  intros Hne Hr. unfold combine_updates. cbv zeta.
  change (excess_reps (apply_updates s)) with (excess_reps s).
  destruct (Z.eqb_spec (excess_reps s) 0) as [E | _]; [contradiction |].
  cbn [and_then]. eexists. split; [reflexivity |].
  unfold next_budget, std_min, ptrdiff_sub, apply_updates.
  cbn [train reps excess_reps cin cout].
  destruct (Z.ltb_spec 100 (excess_reps s)).
  - rewrite Z.min_r by lia. rewrite swrap_small by lia. repeat split; lia.
  - rewrite Z.min_l by lia. rewrite swrap_small by lia. repeat split; lia.
Qed.

Lemma queued_repetitions_need_no_operator_witness :
  exists s',
    combine_updates ten
      {| connections := zero_connections; train := true;
         updates := [zero_connections]; predictions := [0%R];
         reps := -1; excess_reps := 150; cin := []; cout := [] |}
    = Continue s'
    /\ reps s' = 100 /\ excess_reps s' = 50.
Proof.
  destruct (queued_repetitions_need_no_operator ten
              {| connections := zero_connections; train := true;
                 updates := [zero_connections]; predictions := [0%R];
                 reps := -1; excess_reps := 150; cin := []; cout := [] |})
    as (s' & Hrun & _ & _ & _ & Hreps & Hsum & _).
  - discriminate.
  - cbn. lia.
  - exists s'. split; [exact Hrun |]. cbn [excess_reps] in Hreps, Hsum.
    split; [exact Hreps | lia].
Defined.

End Operator.

(** ** Train mode: one phase *)

Section TrainPhase.
Import Machine Process Data Net.

Variable ds : dataset.
Variable c0 : connections_t.
Variable workers : nat.
Variable B : Z.

Hypothesis budget_fits : (- 2 ^ 63 <= Z.min B 0 - Z.of_nat workers)%Z /\ (B < 2 ^ 63)%Z.

(** What the pass on the sample [index] adds to the buffer of its thread,
    the connections being [c0]. *)
Definition gradient_of (index : Z) : connections_t :=
  let e := nth (Z.to_nat index) (samples ds) zero_sample in
  let nodes := forward c0 e in
  gradient (backward c0 nodes (output_error (fraction_background ds) e (score_of nodes)))
    nodes.

(** The indices of the passes made along a schedule, in the order of their
    completion. *)
Fixpoint passes (schedule : list (nat * Z)) (p : pool) : list Z :=
  match schedule with
  | [] => []
  | (thread_no, draw) :: rest =>
      match iterate_step ds thread_no draw p with
      | Some (_, p') =>
          match threads p !! thread_no with
          | Some (at_work index) => index :: passes rest p'
          | _ => passes rest p'
          end
      | None => []
      end
  end.

Definition is_working (t : position) : bool :=
  match t with
  | at_work _ => true
  | _ => false
  end.

Definition working (ts : list position) : nat := length (List.filter is_working ts).

Definition resetting (t : position) : bool :=
  match t with
  | at_reset => true
  | _ => false
  end.

(** The element [(i, j, k)] summed over a list of buffers, and over the
    buffers of the threads that are past their reset. *)
Definition total (i j k : nat) (us : list connections_t) : R :=
  fold_right Rplus 0%R (map (fun u => at3 u i j k) us).

Definition share (i j k : nat) (t : position) (u : connections_t) : R :=
  if resetting t then 0%R else at3 u i j k.

Fixpoint live (i j k : nat) (ts : list position) (us : list connections_t) : R :=
  match ts, us with
  | t :: ts', u :: us' => (share i j k t u + live i j k ts' us')%R
  | _, _ => 0%R
  end.

Lemma working_insert (ts : list position) (n : nat) (x y : position) :
  ts !! n = Some x ->
  (working (<[n := y]> ts) + (if is_working x then 1 else 0)
   = working ts + (if is_working y then 1 else 0))%nat.
Proof.
  intros H. destruct (insert_middle ts n x y H) as (l1 & l2 & E1 & E2).
  rewrite E2, E1. unfold working.
  rewrite !List.filter_app, !length_app. cbn [List.filter].
  destruct (is_working x), (is_working y); cbn [length]; lia.
Qed.

Lemma live_update (i j k : nat) (ts : list position) (us : list connections_t) (n : nat) (x y : position) (u u' : connections_t) :
  ts !! n = Some x -> us !! n = Some u ->
  (live i j k (<[n := y]> ts) (<[n := u']> us) + share i j k x u
   = live i j k ts us + share i j k y u')%R.
Proof.
  revert us n. induction ts as [| t ts IH]; intros [| u0 us] [| n] Ht Hu;
    try discriminate; cbn in Ht, Hu.
  - injection Ht as ->. injection Hu as ->. cbn [live]. 
    change (<[0%nat := y]> (x :: ts)) with (y :: ts).
    change (<[0%nat := u']> (u :: us)) with (u' :: us). cbn [live]. lra.
  - change (<[S n := y]> (t :: ts)) with (t :: <[n := y]> ts).
    change (<[S n := u']> (u0 :: us)) with (u0 :: <[n := u']> us).
    cbn [live]. pose proof (IH us n Ht Hu). lra.
Qed.

Lemma alter_as_insert {A : Type} (f : A -> A) (l : list A) (n : nat) (x : A) :
  l !! n = Some x -> alter f n l = <[n := f x]> l.
Proof.
  revert n. induction l as [| a l IH]; intros [| n] H; try discriminate; cbn in H.
  - now injection H as ->.
  - cbn. f_equal. now apply IH.
Qed.

Lemma live_all_arrived (i j k : nat) (ts : list position) (us : list connections_t) :
  length us = length ts ->
  Forall (fun t => t = at_barrier) ts ->
  live i j k ts us = total i j k us.
Proof.
  intros Hlen Hall. revert us Hlen.
  induction Hall as [| t ts -> _ IH]; intros [| u us] Hlen; try discriminate.
  - reflexivity.
  - cbn [live]. unfold total. cbn [map fold_right]. unfold share. cbn [resetting].
    f_equal. apply IH. now injection Hlen.
Qed.

Lemma total_app (i j k : nat) (us vs : list connections_t) :
  total i j k (us ++ vs) = (total i j k us + total i j k vs)%R.
Proof.
  unfold total. induction us as [| u us IH]; cbn [app map fold_right].
  - lra.
  - fold (total i j k). unfold total in *. rewrite IH. lra.
Qed.

Definition in_range (i j k : nat) : Prop :=
  (i < depth - 1)%nat /\ (j < variable_count)%nat /\ (k < variable_count)%nat.

(** What holds of a pool in the course of a training phase, [done] being
    the indices of the passes completed so far. *)
Record train_inv (done : list Z) (p : pool) : Prop := {
  ti_train : train (state p) = true;
  ti_connections : connections (state p) = c0;
  ti_threads : length (threads p) = workers;
  ti_updates : length (updates (state p)) = workers;
  ti_started :
    (Z.of_nat (length done + working (threads p)) <= Z.max B 0)%Z;
  ti_arrived :
    arrived (threads p) = 0%nat
    \/ Z.of_nat (length done + working (threads p)) = Z.max B 0;
  ti_reps :
    reps (state p)
    = (B - Z.of_nat (length done + working (threads p))
       - Z.of_nat (arrived (threads p)))%Z;
  ti_sum :
    forall i j k, in_range i j k ->
      live i j k (threads p) (updates (state p))
      = total i j k (map gradient_of done)
}.

Lemma at3_zero (i j k : nat) : in_range i j k -> at3 zero_connections i j k = 0%R.
Proof. intros (Hi & Hj & Hk). unfold zero_connections. now apply at3_for_all. Qed.

Lemma at3_add (u g : connections_t) (i j k : nat) :
  in_range i j k ->
  at3 (add_connections u g) i j k = (at3 u i j k + at3 g i j k)%R.
Proof. intros (Hi & Hj & Hk). unfold add_connections. now apply at3_for_all. Qed.

Lemma train_step_claim (done : list Z) (p p' : pool) (n : nat) (draw : Z) (l : label) :
  train_inv done p ->
  threads p !! n = Some at_claim ->
  iterate_step ds n draw p = Some (l, p') ->
  train_inv done p'.
Proof.
  intros [Htr Hco Hth Hup Hst Har Hre Hsum] Hl.
  destruct budget_fits as [Hlow Hhigh].
  assert (Hroom : (arrived (threads p) + 1 <= workers)%nat).
  { pose proof (arrived_insert _ _ _ at_barrier Hl) as Ha.
    pose proof (arrived_le (<[n := at_barrier]> (threads p))) as Hb.
    rewrite length_insert, Hth in Hb. cbn [waiting] in Ha. lia. }
  destruct (lookup_lt_is_Some_2 (updates (state p)) n) as [u Hu].
  { rewrite Hup, <- Hth. apply lookup_lt_is_Some. eauto. }
  assert (Hsub : ptrdiff_sub (reps (state p)) 1 = (reps (state p) - 1)%Z)
    by (unfold ptrdiff_sub; apply swrap_small; lia).
  unfold iterate_step. rewrite Hl, (train_claim _ _ _ Htr), Hsub.
  destruct (Z.leb_spec (reps (state p)) 0) as [Hle | Hgt]; intros [= <- <-].
  - pose proof (arrived_insert _ _ _ at_barrier Hl) as Ha.
    pose proof (working_insert _ _ _ at_barrier Hl) as Hw.
    cbn [waiting is_working] in Ha, Hw.
    constructor; cbn [state threads set_reps train connections updates reps];
      rewrite ?length_insert; try assumption.
    + lia.
    + right. lia.
    + lia.
    + intros i j k Hr. rewrite <- (Hsum i j k Hr).
      rewrite <- (list_insert_id _ _ _ Hu) at 1.
      pose proof (live_update i j k _ _ _ _ at_barrier _ u Hl Hu) as Hlive.
      unfold share in Hlive. cbn [resetting] in Hlive. lra.
  - pose proof (arrived_insert _ _ _ (at_work draw) Hl) as Ha.
    pose proof (working_insert _ _ _ (at_work draw) Hl) as Hw.
    cbn [waiting is_working] in Ha, Hw.
    constructor; cbn [state threads set_reps train connections updates reps];
      rewrite ?length_insert; try assumption.
    + lia.
    + left. lia.
    + lia.
    + intros i j k Hr. rewrite <- (Hsum i j k Hr).
      rewrite <- (list_insert_id _ _ _ Hu) at 1.
      pose proof (live_update i j k _ _ _ _ (at_work draw) _ u Hl Hu) as Hlive.
      unfold share in Hlive. cbn [resetting] in Hlive. lra.
Qed.

Lemma train_step_work (done : list Z) (p p' : pool) (n : nat) (draw index : Z) (l : label) :
  train_inv done p ->
  threads p !! n = Some (at_work index) ->
  iterate_step ds n draw p = Some (l, p') ->
  train_inv (done ++ [index]) p'.
Proof.
  intros [Htr Hco Hth Hup Hst Har Hre Hsum] Hl.
  destruct (lookup_lt_is_Some_2 (updates (state p)) n) as [u Hu].
  { rewrite Hup, <- Hth. apply lookup_lt_is_Some. eauto. }
  assert (Hproc : process_index ds n index (state p)
                  = set_updates
                      (<[n := add_connections u (gradient_of index)]> (updates (state p)))
                      (state p)).
  { unfold process_index, gradient_of. rewrite Htr, Hco. cbv zeta.
    now rewrite (alter_as_insert _ _ _ _ Hu). }
  pose proof (arrived_insert _ _ _ at_claim Hl) as Ha.
  pose proof (working_insert _ _ _ at_claim Hl) as Hw.
  cbn [waiting is_working] in Ha, Hw.
  unfold iterate_step. rewrite Hl, Hproc. intros [= <- <-].
  constructor; cbn [state threads set_updates train connections updates reps];
    rewrite ?length_insert, ?length_app; cbn [length]; try assumption.
  - lia.
  - destruct Har as [Har | Har]; [left | right]; lia.
  - lia.
  - intros i j k Hr. rewrite map_app, total_app, <- (Hsum i j k Hr).
    pose proof (live_update i j k _ _ _ _ at_claim _
                  (add_connections u (gradient_of index)) Hl Hu) as Hlive.
    unfold share in Hlive. cbn [resetting] in Hlive.
    rewrite at3_add in Hlive by exact Hr.
    unfold total. cbn [map fold_right]. lra.
Qed.

Lemma train_step_reset (done : list Z) (p p' : pool) (n : nat) (draw : Z) (l : label) :
  train_inv done p ->
  threads p !! n = Some at_reset ->
  iterate_step ds n draw p = Some (l, p') ->
  train_inv done p'.
Proof.
  intros [Htr Hco Hth Hup Hst Har Hre Hsum] Hl.
  destruct (lookup_lt_is_Some_2 (updates (state p)) n) as [u Hu].
  { rewrite Hup, <- Hth. apply lookup_lt_is_Some. eauto. }
  pose proof (arrived_insert _ _ _ at_claim Hl) as Ha.
  pose proof (working_insert _ _ _ at_claim Hl) as Hw.
  cbn [waiting is_working] in Ha, Hw.
  unfold iterate_step. rewrite Hl. intros [= <- <-].
  constructor; cbn [state threads set_updates train connections updates reps];
    rewrite ?length_insert; try assumption.
  - lia.
  - destruct Har as [Har | Har]; [left | right]; lia.
  - lia.
  - intros i j k Hr. rewrite <- (Hsum i j k Hr).
    pose proof (live_update i j k _ _ _ _ at_claim _ zero_connections Hl Hu) as Hlive.
    unfold share in Hlive. cbn [resetting] in Hlive.
    rewrite at3_zero in Hlive by exact Hr. lra.
Qed.

Lemma train_run (schedule : list (nat * Z)) (done : list Z) (p p' : pool) (ls : list label) :
  train_inv done p ->
  run_threads ds schedule p = Some (ls, p') ->
  train_inv (done ++ passes schedule p) p'.
Proof.
  revert done p ls. induction schedule as [| [n draw] rest IH];
    intros done p ls Hinv Hrun; cbn [run_threads passes] in *.
  - injection Hrun as <- <-. now rewrite app_nil_r.
  - destruct (iterate_step ds n draw p) as [[l p1] |] eqn:Hstep; [| discriminate].
    destruct (run_threads ds rest p1) as [[ls' p2] |] eqn:Hrest; [| discriminate].
    injection Hrun as <- <-.
    destruct (threads p !! n) as [[| index | |] |] eqn:Hl.
    + apply (IH _ _ _ (train_step_claim _ _ _ _ _ _ Hinv Hl Hstep) Hrest).
    + change (index :: passes rest p1) with ([index] ++ passes rest p1).
      rewrite app_assoc.
      apply (IH _ _ _ (train_step_work _ _ _ _ _ _ _ Hinv Hl Hstep) Hrest).
    + unfold iterate_step in Hstep. now rewrite Hl in Hstep.
    + apply (IH _ _ _ (train_step_reset _ _ _ _ _ _ Hinv Hl Hstep) Hrest).
    + unfold iterate_step in Hstep. now rewrite Hl in Hstep.
Qed.

(** The pool at the beginning of a phase: every thread either let go by the
    barrier and about to clear its buffer, or, before the first phase, at
    the top of its loop with a buffer of zeros. *)
Definition fresh (ts : list position) (us : list connections_t) : Prop :=
  Forall2 (fun t u => t = at_reset \/ (t = at_claim /\ u = zero_connections)) ts us.

Lemma fresh_facts (ts : list position) (us : list connections_t) :
  fresh ts us ->
  length us = length ts /\ working ts = 0%nat /\ arrived ts = 0%nat
  /\ forall i j k, in_range i j k -> live i j k ts us = 0%R.
Proof.
  unfold working, arrived.
  induction 1 as [| t u ts us Htu _ (IH1 & IH2 & IH3 & IH4)].
  - repeat split; intros; reflexivity.
  - split; [cbn; lia |].
    destruct Htu as [-> | [-> ->]]; cbn [List.filter is_working waiting];
      (split; [exact IH2 |]); (split; [exact IH3 |]);
      intros i j k Hr; cbn [live]; unfold share; cbn [resetting];
      rewrite ?at3_zero by exact Hr; rewrite IH4 by exact Hr; lra.
Qed.

Lemma train_start (s0 : shared) (ts : list position) :
  train s0 = true -> reps s0 = B -> connections s0 = c0 ->
  length ts = workers -> fresh ts (updates s0) ->
  train_inv [] {| state := s0; threads := ts |}.
Proof.
  intros Htr Hre Hco Hth Hfresh.
  destruct (fresh_facts _ _ Hfresh) as (Hlen & Hw & Ha & Hlive).
  constructor; cbn [state threads length map]; rewrite ?Hw, ?Ha;
    try assumption; try lia; try (now left).
Qed.

Lemma none_working (ts : list position) :
  Forall (fun t => t = at_barrier) ts -> working ts = 0%nat.
Proof.
  unfold working. induction 1 as [| t ts -> _ IH]; cbn; [reflexivity | exact IH].
Qed.

(** The steps left in the phase: two for every pass of the budget not yet
    begun, and what the threads have before them. *)
Definition train_potential (done : list Z) (p : pool) : nat :=
  load (threads p)
  + 2 * (Z.to_nat (Z.max B 0) - (length done + working (threads p))).

Lemma train_step_potential (done : list Z) (p p' : pool) (n : nat) (draw : Z) (l : label) :
  train_inv done p ->
  iterate_step ds n draw p = Some (l, p') ->
  exists done',
    train_inv done' p' /\ (train_potential done' p' < train_potential done p)%nat.
Proof.
  intros Hinv Hstep. unfold train_potential.
  destruct (threads p !! n) as [[| index | |] |] eqn:Hl.
  - exists done. split; [exact (train_step_claim _ _ _ _ _ _ Hinv Hl Hstep) |].
    destruct Hinv as [Htr Hco Hth Hup Hst Har Hre Hsum].
    unfold iterate_step in Hstep. rewrite Hl, (train_claim _ _ _ Htr) in Hstep.
    destruct (Z.leb_spec (reps (state p)) 0) as [Hle | Hgt];
      injection Hstep as <- <-; cbn [threads].
    + pose proof (working_insert _ _ _ at_barrier Hl) as Hw.
      pose proof (load_insert _ _ _ at_barrier Hl) as Hld.
      cbn [is_working weight] in Hw, Hld. lia.
    + pose proof (working_insert _ _ _ (at_work draw) Hl) as Hw.
      pose proof (load_insert _ _ _ (at_work draw) Hl) as Hld.
      cbn [is_working weight] in Hw, Hld. lia.
  - exists (done ++ [index]).
    split; [exact (train_step_work _ _ _ _ _ _ _ Hinv Hl Hstep) |].
    unfold iterate_step in Hstep. rewrite Hl in Hstep.
    injection Hstep as <- <-. cbn [threads].
    pose proof (working_insert _ _ _ at_claim Hl) as Hw.
    pose proof (load_insert _ _ _ at_claim Hl) as Hld.
    cbn [is_working weight] in Hw, Hld. rewrite length_app. cbn [length]. lia.
  - unfold iterate_step in Hstep. now rewrite Hl in Hstep.
  - exists done. split; [exact (train_step_reset _ _ _ _ _ _ Hinv Hl Hstep) |].
    unfold iterate_step in Hstep. rewrite Hl in Hstep.
    injection Hstep as <- <-. cbn [threads].
    pose proof (working_insert _ _ _ at_claim Hl) as Hw.
    pose proof (load_insert _ _ _ at_claim Hl) as Hld.
    cbn [is_working weight] in Hw, Hld. lia.
  - unfold iterate_step in Hstep. now rewrite Hl in Hstep.
Qed.

Lemma train_completes (fuel : nat) (done : list Z) (p : pool) :
  train_inv done p -> (train_potential done p <= fuel)%nat ->
  exists schedule ls p',
    run_threads ds schedule p = Some (ls, p')
    /\ Forall (fun t => t = at_barrier) (threads p').
Proof.
  revert done p. induction fuel as [| fuel IH]; intros done p Hinv Hpot;
    (destruct (find_running (threads p)) as [Hall | (i & t & Hl & Hne)];
     [exists [], [], p; cbn; now split |]).
  - exfalso. apply Hne.
    assert (H0 : load (threads p) = 0%nat) by (unfold train_potential in Hpot; lia).
    apply load_zero in H0. rewrite List.Forall_forall in H0. apply H0.
    apply list_elem_of_In, list_elem_of_lookup. eauto.
  - destruct (can_step ds p i t 0%Z Hl Hne) as (l & p1 & Hstep).
    destruct (train_step_potential _ _ _ _ _ _ Hinv Hstep) as (done' & Hinv1 & Hless).
    destruct (IH _ _ Hinv1 ltac:(lia)) as (schedule & ls & p' & Hrun & Hend).
    exists ((i, 0%Z) :: schedule), (l :: ls), p'. cbn [run_threads].
    rewrite Hstep, Hrun. now split.
Qed.

(** X15: a training phase makes exactly as many passes as its budget says,
    as long as [reps] does not wrap in it.  With [reps] at [B] when the
    phase begins, [B] below 2^63 and [min(B, 0)] less the number of threads
    not below -2^63, some schedule brings all threads to the barrier, and whenever a schedule has done so the threads
    have made [max(B, 0)] forward and backward passes between them, [reps]
    is left at [min(B, 0)] less the number of threads, and [connections]
    has not been written. *)
Theorem train_phase_makes_budget_passes (s0 : shared) (ts : list position) :
  (1 <= workers)%nat ->
  train s0 = true -> reps s0 = B -> connections s0 = c0 ->
  length ts = workers -> fresh ts (updates s0) ->
  let start := {| state := s0; threads := ts |} in
  (exists schedule ls p',
      run_threads ds schedule start = Some (ls, p')
      /\ Forall (fun t => t = at_barrier) (threads p'))
  /\ (forall schedule ls p',
        run_threads ds schedule start = Some (ls, p') ->
        Forall (fun t => t = at_barrier) (threads p') ->
        Z.of_nat (length (passes schedule start)) = Z.max B 0
        /\ reps (state p') = (Z.min B 0 - Z.of_nat workers)%Z
        /\ connections (state p') = c0
        /\ train (state p') = true).
Proof.
  intros Hw Htr Hre Hco Hth Hfresh start.
  pose proof (train_start s0 ts Htr Hre Hco Hth Hfresh) as Hinv.
  fold start in Hinv. split.
  - apply (train_completes _ _ _ Hinv (le_n _)).
  - intros schedule ls p' Hrun Hend.
    apply (train_run _ _ _ _ _ Hinv) in Hrun. cbn [app] in Hrun.
    destruct Hrun as [Htr' Hco' Hth' _ _ Har Hre' _].
    destruct (all_arrived ds _ Hend) as [_ Ha].
    rewrite (none_working _ Hend), Ha, Hth', Nat.add_0_r in *.
    assert (Hlen : Z.of_nat (length (passes schedule start)) = Z.max B 0)
      by (destruct Har; lia).
    repeat split; try assumption. lia.
Qed.

(** X16: the gradients of a training phase reach the connections once,
    whole: when the phase has ended, every element of [connections] after
    the barrier is its value before the phase plus the sum, over the
    passes made, of the gradient each pass computed from the connections
    of the phase. *)
Theorem train_phase_adds_every_gradient_once
    (s0 : shared) (ts : list position)
    (schedule : list (nat * Z)) (ls : list label) (p' p'' : pool) :
  train s0 = true -> reps s0 = B -> connections s0 = c0 ->
  length ts = workers -> fresh ts (updates s0) ->
  let start := {| state := s0; threads := ts |} in
  run_threads ds schedule start = Some (ls, p') ->
  barrier_step ds p' = Some (Continue p'') ->
  forall i j k, in_range i j k ->
    total i j k (updates (state p'))
    = total i j k (map gradient_of (passes schedule start))
    /\ at3 (connections (state p'')) i j k
       = (at3 c0 i j k + total i j k (map gradient_of (passes schedule start)))%R.
Proof.
  intros Htr Hre Hco Hth Hfresh start Hrun Hbar i j k Hr. subst start.
  pose proof (train_start s0 ts Htr Hre Hco Hth Hfresh) as Hinv.
  apply (train_run _ _ _ _ _ Hinv) in Hrun. cbn [app] in Hrun.
  destruct Hrun as [_ Hco' Hth' Hup' _ _ _ Hsum].
  pose proof (barrier_step_waiting _ _ _ Hbar) as Hend.
  assert (Htotal : total i j k (updates (state p'))
                   = total i j k (map gradient_of
                                    (passes schedule {| state := s0; threads := ts |}))).
  { rewrite <- (Hsum i j k Hr). symmetry.
    apply live_all_arrived; [congruence | exact Hend]. }
  clear Hsum.
  split; [exact Htotal |].
  destruct (barrier_step_continue _ _ _ Hbar) as [Hc _].
  destruct (combine_updates_spec _ _ _ Hc) as (Hconn & _).
  cbn [apply_updates connections] in Hconn. rewrite Hconn.
  destruct Hr as (Hi & Hj & Hk).
  rewrite at3_fold_add by assumption. rewrite Hco'.
  fold (total i j k (updates (state p'))). now rewrite Htotal.
Qed.

End TrainPhase.

(** ** A training phase on [ten] with a budget of one *)

Section TrainTen.
Import Machine Process Data Net.

Definition training_start : pool :=
  {| state := set_reps 1 (initial ten 1 zero_connections [key "E"]);
     threads := [at_claim] |}.

Definition training_schedule : list (nat * Z) :=
  [ (0%nat, 3%Z); (0%nat, 0%Z); (0%nat, 0%Z) ].

Lemma training_runs :
  exists ls p' p'',
    run_threads ten training_schedule training_start = Some (ls, p')
    /\ threads p' = [at_barrier]
    /\ passes ten training_schedule training_start = [3%Z]
    /\ barrier_step ten p' = Some (Continue p'').
Proof.
  eexists. eexists. eexists.
  split; [reflexivity |]. split; [reflexivity |]. split; reflexivity.
Qed.

Lemma training_fits : (- 2 ^ 63 <= Z.min 1 0 - Z.of_nat 1)%Z /\ (1 < 2 ^ 63)%Z.
Proof. split; lia. Qed.

Lemma training_fresh : fresh (threads training_start) (updates (state training_start)).
Proof.
  change (updates (state training_start)) with [zero_connections].
  constructor; [right; now split | constructor].
Qed.

Lemma train_phase_makes_budget_passes_witness :
  exists ls p',
    run_threads ten training_schedule training_start = Some (ls, p')
    /\ Z.of_nat (length (passes ten training_schedule training_start)) = 1%Z
    /\ reps (state p') = (-1)%Z.
Proof.
  destruct training_runs as (ls & p' & _ & Hrun & Hts & _).
  destruct (train_phase_makes_budget_passes ten zero_connections 1 1 training_fits
              (state training_start) (threads training_start)
              (le_n 1) eq_refl eq_refl eq_refl eq_refl training_fresh)
    as (_ & Hsafe).
  destruct (Hsafe training_schedule ls p' Hrun) as (Hlen & Hreps & _).
  - rewrite Hts. now constructor.
  - exists ls, p'. split; [exact Hrun |]. split; [exact Hlen | exact Hreps].
Defined.

Lemma train_phase_adds_every_gradient_once_witness :
  exists p'',
    at3 (connections (state p'')) 0 0 0
    = (at3 zero_connections 0 0 0
       + total 0 0 0 [gradient_of ten zero_connections 3])%R.
Proof.
  destruct training_runs as (ls & p' & p'' & Hrun & _ & Hpasses & Hbar).
  exists p''.
  assert (Hr : in_range 0 0 0) by (repeat split; cbn; lia).
  destruct (train_phase_adds_every_gradient_once ten zero_connections 1 1 training_fits
              (state training_start) (threads training_start)
              training_schedule ls p' p''
              eq_refl eq_refl eq_refl eq_refl training_fresh Hrun Hbar
              0%nat 0%nat 0%nat Hr)
    as (_ & Hconn).
  change {| state := state training_start; threads := threads training_start |}
    with training_start in Hconn.
  now rewrite Hpasses in Hconn.
Defined.

End TrainTen.

(** ** The predictions and the pictures made from them *)

Section Diagnostics.
Import Machine Process Data Activation Histogram Net.
Local Open Scope R_scope.

Variable ds : dataset.

(** [predictions] has the length of the evaluation suffix and holds
    numbers of [0, 1). *)
Definition scored (s : shared) : Prop :=
  length (predictions s) = suffix_length ds
  /\ Forall (fun p => 0 <= p < 1) (predictions s).

Lemma score_of_range (nodes : list layer) : 0 < score_of nodes < 1.
Proof.
  unfold score_of. rewrite literal_half.
  match goal with |- context [logistic ?x] => pose proof (logistic_bounds x) end.
  lra.
Qed.

Lemma scored_initial (thread_count : nat) (random : connections_t) (input : list token) :
  scored (initial ds thread_count random input).
Proof.
  split; cbn [initial predictions].
  - now rewrite repeat_length.
  - apply List.Forall_forall. intros p Hp. apply repeat_spec in Hp. subst. lra.
Qed.

Lemma scored_process (thread_no : nat) (index : Z) (s : shared) :
  scored s -> scored (process_index ds thread_no index s).
Proof.
  intros [Hlen Hall]. unfold process_index. cbv zeta.
  destruct (train s); split; cbn [predictions set_updates]; try assumption.
  - now rewrite length_insert.
  - apply Forall_insert; [exact Hall |].
    match goal with |- context [score_of ?n] => pose proof (score_of_range n) end.
    lra.
Qed.

Lemma scored_step (thread_no : nat) (draw : Z) (p p' : pool) (l : label) :
  scored (state p) ->
  iterate_step ds thread_no draw p = Some (l, p') ->
  scored (state p').
Proof.
  intros Hs. unfold iterate_step.
  destruct (threads p !! thread_no) as [[| index | |] |]; try discriminate.
  - unfold claim_index.
    destruct (train (state p)); cbv zeta;
      match goal with |- context [if ?c then _ else _] => destruct c end;
      intros [= <- <-]; exact Hs.
  - intros [= <- <-]. now apply scored_process.
  - intros [= <- <-]. exact Hs.
Qed.

Lemma ask_goes_on_or_waits (input : list token) (s : shared) :
  (exists s', ask input s = Continue s') \/ ask input s = Blocked.
Proof.
  revert s. induction input as [| t rest IH]; intros s; [now right |].
  destruct t as [c | n]; [| now right]. cbn [ask].
  destruct (Ascii.eqb c "P"); [apply IH |].
  destruct (Ascii.eqb c "E"); [left; eexists; reflexivity |].
  destruct (Ascii.eqb c "R"); [| apply IH].
  destruct rest as [| [c' | n] rest]; [now right | now right |].
  left. eexists. reflexivity.
Qed.

Definition scores_are_labels : Prop :=
  Forall (fun e => nth full_variable_count e 0 = 0 \/ nth full_variable_count e 0 = 1)
    (samples ds).

Lemma diagnostics_go_on (s : shared) :
  scored s -> scores_are_labels ->
  exists s', diagnostics ds s = Continue s'.
Proof.
  intros [Hlen Hall] Hlab. unfold diagnostics. cbv zeta.
  pose proof (cutoff_range ds) as Hc. unfold cutoff in Hc.
  set (suffix := drop (Z.to_nat (train_cutoff_index ds)) (samples ds)).
  assert (Hsl : length suffix = length (predictions s)).
  { unfold suffix. rewrite length_drop, Hlen. unfold suffix_length, cutoff, size. lia. }
  assert (Hsuffix : Forall (fun e => nth full_variable_count e 0 = 0
                                      \/ nth full_variable_count e 0 = 1) suffix)
    by (unfold suffix; now apply Forall_drop).
  unfold create_histogram. rewrite <- Hsl, Nat.eqb_refl. cbn [negb].
  destruct (fill_in_bounds (INR (count_if is_real suffix) / INR (length suffix))
              (predictions s) suffix empty_histogram Hall Hsuffix) as [h ->].
  cbn [and_then]. eexists. reflexivity.
Qed.

Lemma scored_run (schedule : list (nat * Z)) :
  forall (p p' : pool) (ls : list label),
    scored (state p) ->
    run_threads ds schedule p = Some (ls, p') ->
    scored (state p').
Proof.
  induction schedule as [| [thread_no draw] rest IH]; intros p p' ls Hs Hrun;
    cbn [run_threads] in Hrun.
  - now injection Hrun as _ <-.
  - destruct (iterate_step ds thread_no draw p) as [[l p1] |] eqn:Hstep;
      [| discriminate].
    destruct (run_threads ds rest p1) as [[ls' p2] |] eqn:Hrest; [| discriminate].
    injection Hrun as _ <-.
    exact (IH _ _ _ (scored_step _ _ _ _ _ Hs Hstep) Hrest).
Qed.

(** X17: the predictions stay fit for the pictures.  From the start of
    [main] on, every step of a thread, every run of the threads and every
    return of the barrier leaves [predictions] with the length of the
    evaluation suffix and with entries in [0, 1); so, the scores of the
    samples being 0 or 1, the pictures are always made: the barrier never
    ends the process on the size test of [create_histogram] and never
    reads outside the histogram; it returns, or it waits for the
    operator. *)
Theorem barrier_never_fails_on_predictions :
  (forall thread_count random input, scored (initial ds thread_count random input))
  /\ (forall thread_no draw p p' l,
        scored (state p) ->
        iterate_step ds thread_no draw p = Some (l, p') -> scored (state p'))
  /\ (forall schedule p p' ls,
        scored (state p) ->
        run_threads ds schedule p = Some (ls, p') -> scored (state p'))
  /\ (forall p p',
        scored (state p) ->
        barrier_step ds p = Some (Continue p') -> scored (state p'))
  /\ (forall s,
        scored s -> scores_are_labels ->
        (exists s', diagnostics ds s = Continue s')
        /\ ((exists s', combine_updates ds s = Continue s')
            \/ combine_updates ds s = Blocked)).
Proof.
  split; [exact scored_initial |]. split; [exact scored_step |].
  split; [intros schedule p p' ls; apply scored_run |]. split.
  - intros p p' Hs Hbar.
    destruct (barrier_step_continue _ _ _ Hbar) as [Hc _].
    destruct (combine_updates_spec _ _ _ Hc) as (_ & _ & Hp & _).
    cbn [apply_updates predictions] in Hp. unfold scored. now rewrite Hp.
  - intros s Hs Hlab. split; [now apply diagnostics_go_on |].
    unfold combine_updates. cbv zeta.
    set (s1 := apply_updates s).
    assert (Hs1 : scored s1) by exact Hs.
    destruct (excess_reps s1 =? 0)%Z; [| left; eexists; reflexivity].
    destruct (train s1); cbn [negb and_then].
    + destruct (ask_goes_on_or_waits (cin s1) s1) as [[s2 ->] | ->];
        [left; eexists; reflexivity | now right].
    + destruct (diagnostics_go_on s1 Hs1 Hlab) as [s2 ->]. cbn [and_then].
      destruct (ask_goes_on_or_waits (cin s2) s2) as [[s3 ->] | ->];
        [left; eexists; reflexivity | now right].
Qed.

End Diagnostics.

Section DiagnosticsTen.
Import Process Data Net.
Local Open Scope R_scope.

Lemma ten_labels : scores_are_labels ten.
Proof.
  unfold scores_are_labels. cbn [samples ten].
  apply Forall_app. split; apply List.Forall_forall; intros e He;
    apply repeat_spec in He; subst e; [left | right]; reflexivity.
Qed.

(** [main] with one thread on the ten samples, the operator typing [E]
    twice.  The thread finds no budget and goes to the barrier, where the
    first [E] starts the evaluation; let go, the thread resets its buffer,
    takes the only sample of the suffix, writes its score, finds no other
    and comes back to the barrier, which makes the pictures. *)
Definition main_start : pool :=
  {| state := initial ten 1 zero_connections [key "E"; key "E"];
     threads := [at_claim] |}.

Definition evaluation_turns : list (nat * Z) :=
  [ (0%nat, 0%Z); (0%nat, 0%Z); (0%nat, 0%Z); (0%nat, 0%Z) ].

Lemma main_evaluates :
  exists ls0 p0 p1 ls p2,
    run_threads ten [(0%nat, 0%Z)] main_start = Some (ls0, p0)
    /\ barrier_step ten p0 = Some (Continue p1)
    /\ run_threads ten evaluation_turns p1 = Some (ls, p2)
    /\ threads p2 = [at_barrier]
    /\ train (state p2) = false
    /\ ls = [silent; silent; recorded 0; silent]
    /\ predictions (state p2)
       = [score_of (forward (connections (state p1)) (nth 9 (samples ten) zero_sample))].
Proof.
  do 5 eexists.
  split; [reflexivity |]. split; [reflexivity |]. split; [reflexivity |].
  split; [reflexivity |]. split; [reflexivity |]. split; reflexivity.
Qed.

Lemma barrier_never_fails_on_predictions_witness :
  exists ls0 p0 p1 ls p2 s',
    run_threads ten [(0%nat, 0%Z)] main_start = Some (ls0, p0)
    /\ barrier_step ten p0 = Some (Continue p1)
    /\ run_threads ten evaluation_turns p1 = Some (ls, p2)
    /\ train (state p2) = false
    /\ predictions (state p2)
       = [score_of (forward (connections (state p1)) (nth 9 (samples ten) zero_sample))]
    /\ scored ten (state p2)
    /\ diagnostics ten (state p2) = Continue s'.
Proof.
  destruct main_evaluates as (ls0 & p0 & p1 & ls & p2 & Hrun0 & Hbar & Hrun & _ & Htrain & _ & Hpred).
  destruct (barrier_never_fails_on_predictions ten)
    as (Hinitial & _ & Hruns & Hbarrier & Hsafe).
  assert (Hs2 : scored ten (state p2)).
  { assert (Hs0 : scored ten (state p0))
      by exact (Hruns _ main_start p0 ls0
                  (Hinitial 1%nat zero_connections [key "E"; key "E"]) Hrun0).
    exact (Hruns _ p1 p2 ls (Hbarrier p0 p1 Hs0 Hbar) Hrun). }
  destruct (Hsafe _ Hs2 ten_labels) as [[s' Hdiag] _].
  exists ls0, p0, p1, ls, p2, s'.
  split; [exact Hrun0 |]. split; [exact Hbar |]. split; [exact Hrun |].
  split; [exact Htrain |]. split; [exact Hpred |]. split; [exact Hs2 | exact Hdiag].
Defined.

End DiagnosticsTen.

(** ** The weights of the histogram *)

Section HistogramWeights.
Import Process Data Histogram.
Local Open Scope R_scope.

(** The sum of one column of the histogram: column 1 collects the
    simulated events, column 0 the real ones. *)
Definition mass (t : nat) (h : histogram_t) : R :=
  fold_right Rplus 0 (map (fun row => nth t row 0) h).

Definition pairs (h : histogram_t) : Prop := Forall (fun row => length row = 2%nat) h.

Lemma nth_alter_same (f : R -> R) (t : nat) (row : list R) :
  (t < length row)%nat -> nth t (alter f t row) 0 = f (nth t row 0).
Proof.
  revert t. induction row as [| x row IH]; intros [| t] Ht; cbn in *; try lia.
  - reflexivity.
  - apply IH. lia.
Qed.

Lemma nth_alter_other (f : R -> R) (t t' : nat) (row : list R) :
  t <> t' -> nth t' (alter f t row) 0 = nth t' row 0.
Proof.
  revert t t'. induction row as [| x row IH]; intros [| t] [| t'] Ht; cbn;
    try reflexivity; try congruence.
  apply IH. congruence.
Qed.

Lemma mass_alter_same (x : R) (t b : nat) (h : histogram_t) :
  pairs h -> (b < length h)%nat -> (t < 2)%nat ->
  mass t (alter (alter (fun y => y + x) t) b h) = mass t h + x.
Proof.
  unfold mass. intros Hp. revert b.
  induction Hp as [| row h Hrow Hp IH]; intros [| b] Hb Ht; cbn in Hb; try lia.
  - cbn [alter list_alter map fold_right].
    change (list_alter ?f ?i ?l) with (alter f i l).
    rewrite nth_alter_same by lia. lra.
  - cbn [alter list_alter map fold_right].
    change (list_alter ?f ?i ?l) with (alter f i l).
    rewrite IH by lia. lra.
Qed.

Lemma mass_alter_other (f : R -> R) (t t' b : nat) (h : histogram_t) :
  t <> t' -> mass t' (alter (alter f t) b h) = mass t' h.
Proof.
  unfold mass. intros Ht. revert b.
  induction h as [| row h IH]; intros [| b]; cbn [alter list_alter map fold_right];
    change (list_alter ?f ?i ?l) with (alter f i l); try reflexivity.
  - now rewrite nth_alter_other.
  - now rewrite IH.
Qed.

Lemma pairs_alter (f : R -> R) (t b : nat) (h : histogram_t) :
  pairs h -> pairs (alter (alter f t) b h).
Proof.
  intros Hp. apply Forall_alter; [exact Hp |].
  intros row _ Hrow. now rewrite length_alter.
Qed.

Lemma mass_empty (t n : nat) : mass t (repeat (repeat 0 2%nat) n) = 0.
Proof.
  unfold mass.
  assert (Hrow : nth t (repeat 0 2%nat) 0 = 0)
    by (destruct t as [| [| [| t]]]; reflexivity).
  set (row := repeat 0 2%nat) in *. clearbody row.
  induction n as [| n IH]; [reflexivity |].
  cbn [repeat map fold_right]. rewrite IH, Hrow. lra.
Qed.

Lemma size_of_double_zero : size_of_double 0 = Some 0%nat.
Proof. apply size_of_double_nat; cbn; try lia; lra. Qed.

Lemma size_of_double_unit : size_of_double 1 = Some 1%nat.
Proof. apply size_of_double_nat; cbn; try lia; lra. Qed.

Lemma bool_of_double_zero : bool_of_double 0 = false.
Proof. unfold bool_of_double. now rewrite (proj2 (Reqb_true 0 0) eq_refl). Qed.

Lemma bool_of_double_unit : bool_of_double 1 = true.
Proof.
  unfold bool_of_double.
  destruct (Reqb 1 0) eqn:E; [apply Reqb_true in E; lra | reflexivity].
Qed.

(** The simulated events of a range, next to [count_if is_real]. *)
Definition simulated (d : list sample) : nat := count_if (fun e => negb (is_real e)) d.

Lemma classes_add_up (d : list sample) :
  (count_if is_real d + simulated d = length d)%nat.
Proof.
  unfold simulated, count_if.
  induction d as [| e d IH]; [reflexivity |].
  cbn [List.filter]. destruct (is_real e); cbn [negb length]; lia.
Qed.

Lemma fill_mass (fb : R) (predictions : list R) (d : list sample) :
  length predictions = length d ->
  Forall (fun e => nth full_variable_count e 0 = 0 \/ nth full_variable_count e 0 = 1) d ->
  forall h h',
    pairs h -> length h = bucket_count ->
    fill fb h predictions d = Continue h' ->
    mass 0 h' = mass 0 h + INR (count_if is_real d) * (1 - fb)
    /\ mass 1 h' = mass 1 h + INR (simulated d) * fb.
Proof.
  intros Hlen Hd. revert predictions Hlen.
  induction Hd as [| e d He Hd IH]; intros [| p predictions] Hlen h h' Hp Hh Hfill;
    cbn [length] in Hlen; try discriminate.
  - cbn [fill] in Hfill. injection Hfill as <-.
    unfold simulated, count_if. cbn. lra.
  - cbn [fill] in Hfill.
    destruct (add_prediction fb h p e) as [h1 | | |] eqn:Hadd; try discriminate.
    unfold add_prediction in Hadd. cbv zeta in Hadd.
    destruct (bucket_of p) as [b |]; [| discriminate].
    assert (Hstep : (b < bucket_count)%nat
                    /\ ((nth full_variable_count e 0 = 0
                         /\ h1 = alter (alter (fun x => x + (1 - fb)) 0%nat) b h)
                        \/ (nth full_variable_count e 0 = 1
                            /\ h1 = alter (alter (fun x => x + fb) 1%nat) b h))).
    { destruct He as [He | He]; rewrite He in Hadd.
      - rewrite size_of_double_zero, bool_of_double_zero in Hadd.
        destruct (b <? bucket_count)%nat eqn:Hb; cbn [andb] in Hadd; [| discriminate].
        apply Nat.ltb_lt in Hb. split; [exact Hb |]. left. split; [exact He |].
        cbn in Hadd. congruence.
      - rewrite size_of_double_unit, bool_of_double_unit in Hadd.
        destruct (b <? bucket_count)%nat eqn:Hb; cbn [andb] in Hadd; [| discriminate].
        apply Nat.ltb_lt in Hb. split; [exact Hb |]. right. split; [exact He |].
        cbn in Hadd. congruence. }
    destruct Hstep as (Hb & Hstep).
    assert (Hp1 : pairs h1) by (destruct Hstep as [[_ ->] | [_ ->]]; now apply pairs_alter).
    assert (Hh1 : length h1 = bucket_count)
      by (destruct Hstep as [[_ ->] | [_ ->]]; unfold histogram_t in *;
          now rewrite length_alter).
    destruct (IH predictions ltac:(lia) h1 h' Hp1 Hh1 Hfill) as (IH0 & IH1).
    rewrite IH0, IH1. unfold simulated, count_if, is_real. cbn [List.filter].
    destruct Hstep as [[He' ->] | [He' ->]]; rewrite He'.
    + rewrite bool_of_double_zero. cbn [negb length].
      rewrite mass_alter_same by (try assumption; lia).
      rewrite mass_alter_other by lia.
      rewrite S_INR. split; lra.
    + rewrite bool_of_double_unit. cbn [negb length].
      rewrite mass_alter_same by (try assumption; lia).
      rewrite mass_alter_other by lia.
      rewrite S_INR. split; lra.
Qed.

(** X18: the histogram gives both classes the same total weight.  With as
    many predictions as samples, predictions in [0, 1) and scores 0 or 1,
    [create_histogram] returns a histogram whose real column sums to
    (number of real events) * (1 - fraction_background) and whose
    simulated column sums to (number of simulated events) *
    fraction_background; the two sums are the same number (over the
    reals), however uneven the classes are. *)
Theorem histogram_weighs_classes_equally (predictions : list R) (d : list sample) :
  length predictions = length d ->
  Forall (fun p => 0 <= p < 1) predictions ->
  Forall (fun e => nth full_variable_count e 0 = 0 \/ nth full_variable_count e 0 = 1) d ->
  let fraction_background := INR (count_if is_real d) / INR (length d) in
  exists h,
    create_histogram predictions d = Continue h
    /\ mass 0 h = INR (count_if is_real d) * (1 - fraction_background)
    /\ mass 1 h = INR (simulated d) * fraction_background
    /\ mass 0 h = mass 1 h.
Proof.
  intros Hlen Hpred Hd fb.
  unfold create_histogram. rewrite Hlen, Nat.eqb_refl. cbn [negb]. fold fb.
  destruct (fill_in_bounds fb predictions d empty_histogram Hpred Hd) as [h Hfill].
  exists h. split; [exact Hfill |].
  assert (Hpairs : pairs empty_histogram).
  { unfold pairs, empty_histogram. apply List.Forall_forall. intros row Hrow.
    apply repeat_spec in Hrow. now subst. }
  assert (Hsize : length empty_histogram = bucket_count)
    by (unfold empty_histogram; apply repeat_length).
  destruct (fill_mass fb predictions d Hlen Hd _ _ Hpairs Hsize Hfill) as (H0 & H1).
  unfold empty_histogram in H0, H1. rewrite mass_empty in H0, H1.
  rewrite Rplus_0_l in H0, H1.
  split; [exact H0 |]. split; [exact H1 |].
  rewrite H0, H1.
  pose proof (classes_add_up d) as Hsum.
  unfold fb.
  destruct (Nat.eq_dec (length d) 0%nat) as [Hz | Hnz].
  - assert (Hb : count_if is_real d = 0%nat) by lia.
    assert (Hs : simulated d = 0%nat) by lia.
    rewrite Hb, Hs. cbn [INR]. lra.
  - assert (Hn : INR (length d) <> 0) by now apply not_0_INR.
    apply (f_equal INR) in Hsum. rewrite plus_INR in Hsum.
    set (nb := INR (count_if is_real d)) in *.
    set (ns := INR (simulated d)) in *.
    set (n := INR (length d)) in *.
    assert (Hns : ns = n - nb) by lra.
    rewrite Hns. field. exact Hn.
Qed.

Definition uneven_predictions : list R := [0.25; 0.5; 0.75].

Definition uneven_samples : list sample :=
  [ [0; 0; 0; 0; 0; 0; 0; 0; 0; 0; 0; 0; 5000; 0];
    [0; 0; 0; 0; 0; 0; 0; 0; 0; 0; 0; 0; 5100; 0];
    [0; 0; 0; 0; 0; 0; 0; 0; 0; 0; 0; 0; 5600; 1] ].

Lemma histogram_weighs_classes_equally_witness :
  exists h,
    create_histogram uneven_predictions uneven_samples = Continue h
    /\ mass 0 h = mass 1 h.
Proof.
  assert (Hp : Forall (fun p => 0 <= p < 1) uneven_predictions).
  { unfold uneven_predictions. constructor; [lra |]. constructor; [lra |].
    constructor; [lra |]. constructor. }
  assert (Hd : Forall (fun e => nth full_variable_count e 0 = 0
                                 \/ nth full_variable_count e 0 = 1) uneven_samples).
  { unfold uneven_samples. constructor; [left; reflexivity |].
    constructor; [left; reflexivity |]. constructor; [right; reflexivity |].
    constructor. }
  destruct (histogram_weighs_classes_equally uneven_predictions uneven_samples
              eq_refl Hp Hd) as (h & Hh & _ & _ & Heq).
  exists h. split; [exact Hh | exact Heq].
Defined.

End HistogramWeights.

(** ** The curve of [create_ROC_curve] *)

Section Curve.
Import Process Data ROC.
Local Open Scope R_scope.

Lemma split_predictions_spec (predictions : list R) (d : list sample) :
  length predictions = length d ->
  let (signal, background) := split_predictions predictions d in
  length background = count_if is_real d
  /\ (length signal + length background = length d)%nat
  /\ (forall v, In v signal \/ In v background -> In v predictions).
Proof.
  revert d. induction predictions as [| p predictions IH]; intros [| e d] Hlen;
    cbn [length] in Hlen; try discriminate.
  - cbn. repeat split; try reflexivity. intros v [[] | []].
  - cbn [split_predictions]. specialize (IH d ltac:(lia)).
    destruct (split_predictions predictions d) as [signal background].
    destruct IH as (Hb & Hsum & Hin).
    unfold count_if, is_real in *. cbn [List.filter].
    destruct (bool_of_double (nth full_variable_count e 0)); cbn [negb length In].
    + repeat split; [exact Hb | lia |]. intros v [[-> | Hv] | Hv]; auto.
    + repeat split; [lia | lia |]. intros v [Hv | [-> | Hv]]; auto.
Qed.

(** Every point lies weakly left of and below the one before it, and in
    the unit square. *)
Fixpoint descending (previous : R * R) (g : list (R * R)) : Prop :=
  match g with
  | [] => True
  | q :: g' =>
      0 <= fst q <= fst previous /\ 0 <= snd q <= snd previous /\ descending q g'
  end.

Lemma last_default {A : Type} (x : A) (l : list A) (d d' : A) :
  List.last (x :: l) d = List.last (x :: l) d'.
Proof.
  revert x. induction l as [| y l IH]; intros x; [reflexivity |].
  change (List.last (y :: l) d = List.last (y :: l) d'). apply IH.
Qed.

Lemma descending_snoc (previous q : R * R) (g : list (R * R)) :
  descending previous g ->
  0 <= fst q <= fst (List.last g previous) ->
  0 <= snd q <= snd (List.last g previous) ->
  descending previous (g ++ [q]).
Proof.
  revert previous. induction g as [| r g IH]; intros previous Hg H1 H2.
  - cbn in *. tauto.
  - cbn [app descending] in *. destruct Hg as (Ha & Hb & Hg).
    split; [exact Ha |]. split; [exact Hb |].
    assert (Hlast : List.last (r :: g) previous = List.last g r).
    { destruct g as [| r0 g]; [reflexivity |].
      change (List.last (r0 :: g) previous = List.last (r0 :: g) r).
      apply last_default. }
    rewrite Hlast in H1, H2. now apply IH.
Qed.

Lemma INR_point_count : INR point_count = 10000.
Proof.
  rewrite INR_IZR_INZ. unfold point_count. now rewrite Z2Nat.id by lia.
Qed.

Lemma length_erase_if {A : Type} (pred : A -> bool) (l : list A) :
  (length (erase_if pred l) <= length l)%nat.
Proof. unfold erase_if. apply List.filter_length_le. Qed.

Lemma erase_below_one (l : list R) :
  Forall (fun p => 0 <= p < 1) l -> erase_if (fun v => Rltb v 1) l = [].
Proof.
  unfold erase_if. induction 1 as [| p l Hp Hl IH]; [reflexivity |].
  cbn [List.filter]. rewrite (proj2 (Rltb_true p 1)) by lra. exact IH.
Qed.

Lemma Forall_erase_if {A : Type} (P : A -> Prop) (pred : A -> bool) (l : list A) :
  Forall P l -> Forall P (erase_if pred l).
Proof.
  rewrite !List.Forall_forall. intros H e He. apply erase_if_In in He. now apply H.
Qed.

Lemma curve_loop_points (signal_count background_count : nat) (indices : list nat) (c : curve) :
  length (graph (fold_left (add_point (INR signal_count) (INR background_count)) indices c))
  = (length (graph c) + length indices)%nat.
Proof.
  revert c. induction indices as [| i indices IH]; intros c; cbn [fold_left length];
    [lia |].
  rewrite IH. unfold add_point. cbn [graph]. rewrite length_app. cbn [length]. lia.
Qed.

Section Loop.

Variables signal_count background_count : nat.
Hypothesis some_signal : (0 < signal_count)%nat.
Hypothesis some_background : (0 < background_count)%nat.

(** What the loop keeps. *)
Record curve_inv (c : curve) : Prop := {
  inv_signal : prev_signal c = INR (length (signal_predictions c)) / INR signal_count;
  inv_background :
    prev_background c = INR (length (background_predictions c)) / INR background_count;
  inv_signal_size : (length (signal_predictions c) <= signal_count)%nat;
  inv_background_size : (length (background_predictions c) <= background_count)%nat;
  inv_signal_range : Forall (fun p => 0 <= p < 1) (signal_predictions c);
  inv_background_range : Forall (fun p => 0 <= p < 1) (background_predictions c);
  inv_area : 0 <= area c <= 1 - prev_background c;
  inv_graph : descending (1, 1) (graph c);
  inv_last : List.last (graph c) (1, 1) = (prev_background c, prev_signal c)
}.

Lemma rate_range (n total : nat) :
  (0 < total)%nat -> (n <= total)%nat -> 0 <= INR n / INR total <= 1.
Proof.
  intros Ht Hn. apply lt_INR in Ht. apply le_INR in Hn. cbn [INR] in Ht.
  pose proof (pos_INR n) as Hpos.
  split.
  - apply Rmult_le_pos; [exact Hpos |]. left. now apply Rinv_0_lt_compat.
  - apply (Rmult_le_reg_r (INR total)); [exact Ht |].
    unfold Rdiv. rewrite Rmult_assoc, Rinv_l by lra. lra.
Qed.

Lemma rate_monotone (n m total : nat) :
  (0 < total)%nat -> (n <= m)%nat -> INR n / INR total <= INR m / INR total.
Proof.
  intros Ht Hn. apply lt_INR in Ht. apply le_INR in Hn. cbn [INR] in Ht.
  unfold Rdiv. apply Rmult_le_compat_r; [| exact Hn].
  left. now apply Rinv_0_lt_compat.
Qed.

Lemma add_point_inv (c : curve) (i : nat) :
  curve_inv c -> curve_inv (add_point (INR signal_count) (INR background_count) c i).
Proof.
  intros [Hs Hb Hss Hbs Hsr Hbr Ha Hg Hl].
  set (cut := INR i / INR point_count).
  pose proof (length_erase_if (fun v => Rltb v cut) (signal_predictions c)) as Hes.
  pose proof (length_erase_if (fun v => Rltb v cut) (background_predictions c)) as Heb.
  pose proof (rate_range _ _ some_signal Hss) as Rs.
  pose proof (rate_range _ _ some_background Hbs) as Rb.
  pose proof (rate_range (length (erase_if (fun v => Rltb v cut) (signal_predictions c)))
                _ some_signal ltac:(lia)) as Rs'.
  pose proof (rate_range (length (erase_if (fun v => Rltb v cut) (background_predictions c)))
                _ some_background ltac:(lia)) as Rb'.
  pose proof (rate_monotone _ _ _ some_signal Hes) as Ms.
  pose proof (rate_monotone _ _ _ some_background Heb) as Mb.
  rewrite <- Hs in Rs, Ms. rewrite <- Hb in Rb, Mb.
  unfold add_point. cbv zeta. fold cut.
  set (next_signal :=
         INR (length (erase_if (fun v => Rltb v cut) (signal_predictions c)))
         / INR signal_count) in *.
  set (next_background :=
         INR (length (erase_if (fun v => Rltb v cut) (background_predictions c)))
         / INR background_count) in *.
  constructor; cbn [signal_predictions background_predictions area prev_signal
                      prev_background graph].
  - reflexivity.
  - reflexivity.
  - lia.
  - lia.
  - now apply Forall_erase_if.
  - now apply Forall_erase_if.
  - assert (Hstep : 0 <= (prev_background c - next_background)
                         * (next_signal + prev_signal c) / 2
                    <= prev_background c - next_background) by nra.
    lra.
  - apply descending_snoc; [exact Hg | |]; rewrite Hl; cbn [fst snd]; lra.
  - apply last_last.
Qed.

Lemma curve_loop_inv (indices : list nat) (c : curve) :
  curve_inv c ->
  curve_inv (fold_left (add_point (INR signal_count) (INR background_count)) indices c).
Proof.
  revert c. induction indices as [| i indices IH]; intros c Hc; [exact Hc |].
  cbn [fold_left]. apply IH. now apply add_point_inv.
Qed.

Lemma last_point (c : curve) :
  curve_inv c ->
  let c' := add_point (INR signal_count) (INR background_count) c point_count in
  prev_signal c' = 0 /\ prev_background c' = 0
  /\ signal_predictions c' = [] /\ background_predictions c' = [].
Proof.
  intros [Hs Hb Hss Hbs Hsr Hbr Ha Hg Hl]. unfold add_point. cbv zeta.
  cbn [signal_predictions background_predictions prev_signal prev_background].
  assert (Hcut : INR point_count / INR point_count = 1)
    by (rewrite INR_point_count; lra).
  rewrite Hcut, !erase_below_one by assumption.
  cbn [length INR]. repeat split; lra.
Qed.

End Loop.

(** X19: the curve of [create_ROC_curve] runs down to the origin and its
    area is a number of [0, 1].  With as many predictions as samples,
    predictions in [0, 1) and at least one event of each class, the
    function returns; the graph has [point_count] = 10000 points; every
    point lies in the unit square, weakly left of and below the point
    before it (the first one below (1, 1)); the last point is (0, 0),
    since the last cut, 1, removes every prediction; and the area written
    on the picture lies between 0 and 1. *)
Theorem ROC_curve_descends_to_origin (predictions : list R) (d : list sample) :
  length predictions = length d ->
  Forall (fun p => 0 <= p < 1) predictions ->
  (0 < count_if is_real d < length d)%nat ->
  exists c,
    create_ROC_curve predictions d = Continue c
    /\ length (graph c) = point_count
    /\ descending (1, 1) (graph c)
    /\ List.last (graph c) (1, 1) = (0, 0)
    /\ 0 <= area c <= 1.
Proof.
  intros Hlen Hpred Hclasses.
  unfold create_ROC_curve. rewrite Hlen, Nat.eqb_refl. cbn [negb].
  pose proof (split_predictions_spec predictions d Hlen) as Hsplit.
  destruct (split_predictions predictions d) as [signal background].
  destruct Hsplit as (Hb & Hsum & Hin).
  eexists. split; [reflexivity |].
  assert (Hs0 : (0 < length signal)%nat) by lia.
  assert (Hb0 : (0 < length background)%nat) by lia.
  assert (Hstart : curve_inv (length signal) (length background)
                     (first_curve signal background)).
  { rewrite List.Forall_forall in Hpred.
    constructor; cbn [first_curve signal_predictions background_predictions area
                        prev_signal prev_background graph List.last descending].
    - apply lt_INR in Hs0. cbn [INR] in Hs0. field. lra.
    - apply lt_INR in Hb0. cbn [INR] in Hb0. field. lra.
    - lia.
    - lia.
    - apply List.Forall_forall. intros v Hv. apply Hpred, Hin. now left.
    - apply List.Forall_forall. intros v Hv. apply Hpred, Hin. now right.
    - lra.
    - exact I.
    - reflexivity. }
  assert (Hcount : point_count = S (point_count - 1)) by (unfold point_count; lia).
  split; [rewrite curve_loop_points, List.length_seq; reflexivity |].
  pose proof (curve_loop_inv _ _ Hs0 Hb0 (seq 1 point_count) _ Hstart) as Hend.
  split; [apply Hend |].
  revert Hend. rewrite Hcount at 1 2 3 4. rewrite seq_S, fold_left_app.
  cbn [fold_left]. replace (1 + (point_count - 1))%nat with point_count by lia.
  intros Hend.
  pose proof (curve_loop_inv _ _ Hs0 Hb0 (seq 1 (point_count - 1)) _ Hstart) as Hbefore.
  destruct (last_point _ _ _ Hbefore) as (Hps & Hpb & _).
  destruct Hend as [_ _ _ _ _ _ Harea _ Hlast].
  rewrite Hlast, Hps, Hpb. split; [reflexivity |].
  rewrite Hpb in Harea. lra.
Qed.

Lemma uneven_classes :
  (0 < count_if is_real uneven_samples < length uneven_samples)%nat.
Proof.
  assert (H : count_if is_real uneven_samples = 2%nat).
  { unfold count_if, uneven_samples, is_real. cbn [List.filter].
    change (nth full_variable_count [0; 0; 0; 0; 0; 0; 0; 0; 0; 0; 0; 0; 5000; 0] 0) with 0.
    change (nth full_variable_count [0; 0; 0; 0; 0; 0; 0; 0; 0; 0; 0; 0; 5100; 0] 0) with 0.
    change (nth full_variable_count [0; 0; 0; 0; 0; 0; 0; 0; 0; 0; 0; 0; 5600; 1] 0) with 1.
    rewrite bool_of_double_zero, bool_of_double_unit. reflexivity. }
  rewrite H. cbn. lia.
Qed.

Lemma uneven_range : Forall (fun p => 0 <= p < 1) uneven_predictions.
Proof.
  unfold uneven_predictions. constructor; [lra |]. constructor; [lra |].
  constructor; [lra |]. constructor.
Qed.

Lemma ROC_curve_descends_to_origin_witness :
  exists c,
    create_ROC_curve uneven_predictions uneven_samples = Continue c
    /\ List.last (graph c) (1, 1) = (0, 0)
    /\ 0 <= area c <= 1.
Proof.
  destruct (ROC_curve_descends_to_origin uneven_predictions uneven_samples
              eq_refl uneven_range uneven_classes) as (c & Hc & _ & _ & Hlast & Harea).
  exists c. split; [exact Hc |]. split; [exact Hlast | exact Harea].
Defined.

End Curve.

(** ** The backward pass *)

Section BackwardShape.
Import Data Activation Net.
Local Open Scope R_scope.

Lemma backward_rows (c : connections_t) (nodes : list layer) (error : R) :
  backward c nodes error
  = let last :=
      tabulate variable_count (fun i =>
        error / INR variable_count
        * derivative_logistic_from_logistic (nth i (back nodes) 0)) in
    let row (i : nat) (next : layer) :=
      tabulate variable_count (fun j =>
        accumulate (fun k => nth k next 0 * at3 c i k j)
        * derivative_logistic_from_logistic (nth j (nth i nodes []) 0)) in
    let r3 := row 3%nat last in
    let r2 := row 2%nat r3 in
    let r1 := row 1%nat r2 in
    [r1; r2; r3; last].
Proof. reflexivity. Qed.

Lemma derivative_from_logistic_pos (x : R) :
  - / 2 < x < / 2 -> 0 < derivative_logistic_from_logistic x <= / 4.
Proof.
  intros Hx. unfold derivative_logistic_from_logistic. rewrite literal_half.
  split; [apply Rmult_lt_0_compat; lra |].
  pose proof (Rle_0_sqr x) as Hsq. unfold Rsqr in Hsq. lra.
Qed.

Lemma INR_variable_count : INR variable_count = 12.
Proof. rewrite INR_IZR_INZ. reflexivity. Qed.

(** X20: the error sent backwards points to the label and is small.  With
    0 < fraction_background < 1, whatever the connections: for a simulated
    event (score 1) the output error lies in (0, 1/4) and every error of
    the last row is positive; for a real event (score 0) the output error
    lies in (-1/4, 0) and every error of the last row is negative.  The
    errors fill [depth - 1] rows of [variable_count] entries. *)
Theorem backward_error_points_to_label (fb : R) (c : connections_t) (e : sample) :
  0 < fb < 1 ->
  let nodes := forward c e in
  let error := output_error fb e (score_of nodes) in
  let errors := backward c nodes error in
  length errors = (depth - 1)%nat
  /\ Forall (fun row => length row = variable_count) errors
  /\ (nth full_variable_count e 0 = 1 ->
      0 < error < / 4 /\ Forall (fun x => 0 < x) (nth (depth - 2) errors []))
  /\ (nth full_variable_count e 0 = 0 ->
      - / 4 < error < 0 /\ Forall (fun x => x < 0) (nth (depth - 2) errors [])).
Proof.
  intros Hfb nodes error errors.
  pose proof (score_of_range nodes) as Hs.
  pose proof (back_forward_bounds c e) as Hback. fold nodes in Hback.
  rewrite List.Forall_forall in Hback.
  assert (Hlast : forall x, In x (nth (depth - 2) errors []) ->
                    exists n, - / 2 < n < / 2
                              /\ x = error / INR variable_count
                                     * derivative_logistic_from_logistic n).
  { unfold errors. rewrite backward_rows. cbv zeta.
    change (depth - 2)%nat with 3%nat. cbn [nth].
    unfold tabulate. intros x Hx. apply in_map_iff in Hx as (i & <- & Hi).
    apply in_seq in Hi. exists (nth i (back nodes) 0). split; [| reflexivity].
    apply Hback, nth_In. unfold nodes. rewrite length_back_forward. lia. }
  split; [unfold errors; now rewrite backward_rows |].
  split.
  { unfold errors. rewrite backward_rows. cbv zeta.
    repeat (constructor; [apply length_tabulate |]). constructor. }
  assert (Hd : derivative_logistic_from_logistic (score_of nodes - 0.5)
               = score_of nodes * (1 - score_of nodes)).
  { unfold derivative_logistic_from_logistic. rewrite literal_half. field. }
  split; intros He.
  - assert (Herr : error = (1 - score_of nodes) * fb
                           * (score_of nodes * (1 - score_of nodes))).
    { unfold error, output_error. cbv zeta. rewrite He, Hd.
      now rewrite (bool_of_double_unit). }
    assert (Hrange : 0 < error < / 4).
    { rewrite Herr. set (s := score_of nodes) in *. clearbody s.
      assert (0 < s * (1 - s) <= / 4).
      { split; [apply Rmult_lt_0_compat; lra |].
        pose proof (Rle_0_sqr (s - / 2)) as Hsq. unfold Rsqr in Hsq. lra. }
      assert (0 < (1 - s) * fb < 1).
      { split; [apply Rmult_lt_0_compat; lra |].
        assert ((1 - s) * fb < 1 * 1) by (apply Rmult_le_0_lt_compat; lra). lra. }
      split; nra. }
    split; [exact Hrange |].
    apply List.Forall_forall. intros x Hx.
    destruct (Hlast x Hx) as (n & Hn & ->).
    pose proof (derivative_from_logistic_pos n Hn) as Hdn.
    rewrite INR_variable_count.
    apply Rmult_lt_0_compat; [lra | lra].
  - assert (Herr : error = - (score_of nodes * (1 - fb)
                              * (score_of nodes * (1 - score_of nodes)))).
    { unfold error, output_error. cbv zeta. rewrite He, Hd.
      rewrite bool_of_double_zero, literal_one. ring. }
    assert (Hrange : - / 4 < error < 0).
    { rewrite Herr. set (s := score_of nodes) in *. clearbody s.
      assert (0 < s * (1 - s) <= / 4).
      { split; [apply Rmult_lt_0_compat; lra |].
        pose proof (Rle_0_sqr (s - / 2)) as Hsq. unfold Rsqr in Hsq. lra. }
      assert (0 < s * (1 - fb) < 1).
      { split; [apply Rmult_lt_0_compat; lra |].
        assert (s * (1 - fb) < 1 * 1) by (apply Rmult_le_0_lt_compat; lra). lra. }
      split; nra. }
    split; [exact Hrange |].
    apply List.Forall_forall. intros x Hx.
    destruct (Hlast x Hx) as (n & Hn & ->).
    pose proof (derivative_from_logistic_pos n Hn) as Hdn.
    rewrite INR_variable_count.
    assert (0 < - (error / 12) * derivative_logistic_from_logistic n)
      by (apply Rmult_lt_0_compat; lra).
    lra.
Qed.

Lemma backward_error_points_to_label_witness :
  let e := [0; 0; 0; 0; 0; 0; 0; 0; 0; 0; 0; 0; 5600; 1] in
  0 < output_error 0.5 e (score_of (forward zero_connections e)) < / 4.
Proof.
  intros e.
  assert (Hfb : 0 < 0.5 < 1) by lra.
  destruct (backward_error_points_to_label 0.5 zero_connections e Hfb)
    as (_ & _ & Hone & _).
  exact (proj1 (Hone eq_refl)).
Defined.

End BackwardShape.

(** ** The threads of [loop_threaded] *)

Section LoopThreads.
Import Machine Process Loop.

Definition held (t : place) : list nat :=
  match t with
  | at_call index => [Z.to_nat index]
  | _ => []
  end.

Definition in_hand (ts : list place) : list nat := flat_map held ts.

Definition gone (ts : list place) : nat := length (List.filter ended ts).

Definition steps_left (t : place) : nat :=
  match t with
  | at_fetch => 1
  | at_call _ => 2
  | _ => 0
  end.

(** The places of a thread that runs [func] as one step and has not called
    [std::exit]. *)
Definition plain (t : place) : Prop :=
  match t with
  | at_fetch | at_call _ | at_return => True
  | _ => False
  end.

Lemma in_hand_insert (ts : list place) (i : nat) (x y : place) :
  ts !! i = Some x ->
  Permutation (held x ++ in_hand (<[i := y]> ts)) (held y ++ in_hand ts).
Proof.
  intros H. destruct (insert_middle ts i x y H) as (l1 & l2 & E1 & E2).
  rewrite E2, E1. unfold in_hand. rewrite !flat_map_app. cbn [flat_map].
  rewrite !app_assoc.
  rewrite (Permutation_app_comm (held x) (flat_map held l1)).
  rewrite (Permutation_app_comm (held y) (flat_map held l1)).
  rewrite <- !app_assoc.
  apply Permutation_app_head.
  rewrite !app_assoc. apply Permutation_app_tail, Permutation_app_comm.
Qed.

Lemma gone_insert (ts : list place) (i : nat) (x y : place) :
  ts !! i = Some x ->
  (gone (<[i := y]> ts) + (if ended x then 1 else 0)
   = gone ts + (if ended y then 1 else 0))%nat.
Proof.
  intros H. destruct (insert_middle ts i x y H) as (l1 & l2 & E1 & E2).
  rewrite E2, E1. unfold gone.
  rewrite !List.filter_app, !length_app. cbn [List.filter].
  destruct (ended x), (ended y); cbn [length]; lia.
Qed.

Lemma gone_le (ts : list place) : (gone ts <= length ts)%nat.
Proof. unfold gone. apply List.filter_length_le. Qed.

Lemma steps_insert (ts : list place) (i : nat) (x y : place) :
  ts !! i = Some x ->
  (list_sum (map steps_left (<[i := y]> ts)) + steps_left x
   = list_sum (map steps_left ts) + steps_left y)%nat.
Proof.
  intros H. destruct (insert_middle ts i x y H) as (l1 & l2 & E1 & E2).
  rewrite E2, E1.
  rewrite !map_app, !list_sum_app. unfold list_sum. cbn [map fold_right]. lia.
Qed.

Lemma outcome_exiting {S : Type} (status : Z) (r : run (workers S)) :
  outcome (exiting status r) = exiting status (outcome r).
Proof. now destruct r. Qed.

(** What the calls of a run did is what [Process.loop_threaded] does on
    them, in the order they were made: in both, a call that ends the
    process is followed by the calls the other threads still make. *)
Lemma run_workers_sequential {S : Type} (func : nat -> S -> run S) (n : Z) (schedule : list nat) :
  forall (w : workers S) (r : run (workers S)) (calls : list nat),
    run_workers func n schedule w = (r, calls) ->
    loop_threaded func calls (target w) = outcome r.
Proof.
  induction schedule as [| thread_no rest IH]; intros w r calls Hrun;
    cbn [run_workers] in Hrun.
  - now injection Hrun as <- <-.
  - destruct (loop_threads w !! thread_no) as [[| index | index | |] |];
      try (exact (IH _ _ _ Hrun)).
    cbv zeta in Hrun. cbn [loop_threaded].
    destruct (func (Z.to_nat index) (target w)) as [s | status s | |] eqn:Hcall.
    + destruct (run_workers func n rest (returned thread_no s w)) as [r' calls'] eqn:Hrest.
      injection Hrun as <- <-. cbn [loop_threaded]. rewrite Hcall.
      exact (IH _ _ _ Hrest).
    + destruct (run_workers func n rest (exited thread_no s w)) as [r' calls'] eqn:Hrest.
      injection Hrun as <- <-. cbn [loop_threaded]. rewrite Hcall, outcome_exiting.
      f_equal. exact (IH _ _ _ Hrest).
    + injection Hrun as <- <-. cbn [loop_threaded]. now rewrite Hcall.
    + injection Hrun as <- <-. cbn [loop_threaded]. now rewrite Hcall.
Qed.

Variable State : Type.
Variable func : nat -> State -> run State.
Variables n thread_count : nat.
Variable s0 : State.

Hypothesis fits : (Z.of_nat n + Z.of_nat thread_count < 2 ^ 64)%Z.

(** The turns the threads still have before them: two for every index not
    yet handed out, and those of each thread on its own account. *)
Definition turns (w : workers State) : nat :=
  (2 * (n - Z.to_nat (global_index w)) + list_sum (map steps_left (loop_threads w)))%nat.

(** What every run keeps; [done] are the calls made so far. *)
Record loop_inv (done : list nat) (w : workers State) : Prop := {
  li_threads : length (loop_threads w) = thread_count;
  li_index :
    (0 <= global_index w <= Z.of_nat n + Z.of_nat (gone (loop_threads w)))%Z;
  li_gone : (0 < gone (loop_threads w))%nat -> (Z.of_nat n <= global_index w)%Z;
  li_calls :
    Permutation (done ++ in_hand (loop_threads w))
      (seq 0 (Z.to_nat (Z.min (global_index w) (Z.of_nat n))))
}.

Lemma start_inv : loop_inv [] (start thread_count s0).
Proof.
  assert (Hh : forall k, in_hand (repeat at_fetch k) = []).
  { unfold in_hand. induction k as [| k IH]; [reflexivity | exact IH]. }
  assert (Hg : forall k, gone (repeat at_fetch k) = 0%nat).
  { unfold gone. induction k as [| k IH]; [reflexivity | exact IH]. }
  constructor; cbn [start global_index loop_threads target].
  - apply repeat_length.
  - rewrite Hg. lia.
  - rewrite Hg. lia.
  - rewrite Hh. replace (Z.min 0 (Z.of_nat n)) with 0%Z by lia. constructor.
Qed.

Lemma fetch_add_inv (done : list nat) (w : workers State) (thread_no : nat) :
  loop_inv done w ->
  loop_threads w !! thread_no = Some at_fetch ->
  loop_inv done (fetch_add (Z.of_nat n) thread_no w)
  /\ (turns (fetch_add (Z.of_nat n) thread_no w) + 1 = turns w)%nat.
Proof.
  intros [Hlen Hidx Hgone Hcalls] Hat.
  pose proof (gone_insert _ _ _ at_return Hat) as Hg1.
  pose proof (gone_le (<[thread_no := at_return]> (loop_threads w))) as Hg2.
  rewrite length_insert, Hlen in Hg2. cbn [ended] in Hg1.
  assert (Hwrap : wrap 64 (global_index w + 1) = (global_index w + 1)%Z)
    by (apply wrap_small; lia).
  unfold fetch_add, turns. cbv zeta. cbn [global_index loop_threads target].
  rewrite Hwrap.
  destruct (Z.of_nat n <=? global_index w)%Z eqn:Hcmp.
  - apply Z.leb_le in Hcmp.
    pose proof (in_hand_insert _ _ _ at_return Hat) as Hh. cbn [held app] in Hh.
    pose proof (steps_insert _ _ _ at_return Hat) as Hs. cbn [steps_left] in Hs.
    split; [| lia].
    constructor; cbn [global_index loop_threads target].
    + now rewrite length_insert.
    + lia.
    + lia.
    + rewrite Hh.
      replace (Z.min (global_index w + 1) (Z.of_nat n)) with
        (Z.min (global_index w) (Z.of_nat n)) by lia.
      exact Hcalls.
  - apply Z.leb_gt in Hcmp.
    pose proof (gone_insert _ _ _ (at_call (global_index w)) Hat) as Hg3.
    cbn [ended] in Hg3.
    pose proof (in_hand_insert _ _ _ (at_call (global_index w)) Hat) as Hh.
    cbn [held app] in Hh.
    pose proof (steps_insert _ _ _ (at_call (global_index w)) Hat) as Hs.
    cbn [steps_left] in Hs.
    split; [| lia].
    constructor; cbn [global_index loop_threads target].
    + now rewrite length_insert.
    + lia.
    + intros Hpos. lia.
    + rewrite Hh.
      replace (Z.min (global_index w + 1) (Z.of_nat n)) with (global_index w + 1)%Z by lia.
      replace (Z.min (global_index w) (Z.of_nat n)) with (global_index w) in Hcalls by lia.
      replace (Z.to_nat (global_index w + 1)) with (S (Z.to_nat (global_index w))) by lia.
      rewrite seq_S. cbn [Nat.add].
      rewrite <- Hcalls.
      rewrite <- Permutation_middle. apply Permutation_cons_append.
Qed.

(** The end of a call, by its return or inside [std::exit]: the index is
    among the calls made. *)
Lemma call_inv (done : list nat) (w : workers State) (thread_no : nat) (index : Z) (s : State) :
  loop_inv done w ->
  loop_threads w !! thread_no = Some (at_call index) ->
  loop_inv (done ++ [Z.to_nat index]) (returned thread_no s w)
  /\ loop_inv (done ++ [Z.to_nat index]) (exited thread_no s w)
  /\ (turns (returned thread_no s w) + 1 = turns w)%nat.
Proof.
  intros [Hlen Hidx Hgone Hcalls] Hat.
  pose proof (gone_insert _ _ _ at_fetch Hat) as Hg. cbn [ended] in Hg.
  pose proof (in_hand_insert _ _ _ at_fetch Hat) as Hh. cbn [held app] in Hh.
  pose proof (steps_insert _ _ _ at_fetch Hat) as Hs. cbn [steps_left] in Hs.
  pose proof (gone_insert _ _ _ at_exit Hat) as Hg'. cbn [ended] in Hg'.
  pose proof (in_hand_insert _ _ _ at_exit Hat) as Hh'. cbn [held app] in Hh'.
  unfold returned, exited, turns. cbn [global_index loop_threads target].
  split; [| split; [| lia]].
  - constructor; cbn [global_index loop_threads target].
    + now rewrite length_insert.
    + lia.
    + intros Hpos. apply Hgone. lia.
    + rewrite <- app_assoc. cbn [app]. rewrite Hh. exact Hcalls.
  - constructor; cbn [global_index loop_threads target].
    + now rewrite length_insert.
    + lia.
    + intros Hpos. apply Hgone. lia.
    + rewrite <- app_assoc. cbn [app]. rewrite Hh'. exact Hcalls.
Qed.

Lemma held_below (done : list nat) (w : workers State) (thread_no : nat) (index : Z) :
  loop_inv done w ->
  loop_threads w !! thread_no = Some (at_call index) ->
  (Z.to_nat index < n)%nat /\ ~ In (Z.to_nat index) done.
Proof.
  intros [Hlen Hidx Hgone Hcalls] Hat.
  destruct (insert_middle _ _ _ at_fetch Hat) as (l1 & l2 & E1 & _).
  assert (Hin : In (Z.to_nat index) (in_hand (loop_threads w))).
  { rewrite E1. unfold in_hand. rewrite flat_map_app, in_app_iff. right.
    cbn [flat_map held app]. now left. }
  split.
  - assert (Hseq : In (Z.to_nat index)
                     (seq 0 (Z.to_nat (Z.min (global_index w) (Z.of_nat n))))).
    { eapply Permutation_in; [exact Hcalls |]. rewrite in_app_iff. now right. }
    apply in_seq in Hseq. lia.
  - intros Hd.
    assert (Hnd : List.NoDup (done ++ in_hand (loop_threads w))).
    { eapply Permutation_NoDup; [symmetry; exact Hcalls | apply seq_NoDup]. }
    apply in_split in Hd as (d1 & d2 & ->).
    rewrite <- app_assoc in Hnd. cbn [app] in Hnd.
    apply NoDup_remove_2 in Hnd. apply Hnd.
    rewrite !in_app_iff. right. now right.
Qed.

Lemma done_facts (done : list nat) (w : workers State) :
  loop_inv done w ->
  List.NoDup done /\ (forall i, In i done -> (i < n)%nat).
Proof.
  intros [Hlen Hidx Hgone Hcalls].
  assert (Hnd : List.NoDup (done ++ in_hand (loop_threads w))).
  { eapply Permutation_NoDup; [symmetry; exact Hcalls | apply seq_NoDup]. }
  split; [now apply NoDup_app_remove_r in Hnd |].
  intros i Hi.
  assert (Hseq : In i (seq 0 (Z.to_nat (Z.min (global_index w) (Z.of_nat n))))).
  { eapply Permutation_in; [exact Hcalls |]. rewrite in_app_iff. now left. }
  apply in_seq in Hseq. lia.
Qed.

(** The state a run has come to, whether a call has ended the process or
    not. *)
Definition reached (r : run (workers State)) (w : workers State) : Prop :=
  r = Continue w \/ exists status, r = Exit status w.

Lemma reached_exiting (status : Z) (r : run (workers State)) (w : workers State) :
  reached (exiting status r) w -> reached r w.
Proof.
  destruct r as [w1 | st w1 | |]; cbn [exiting];
    intros [H | (st' & H)]; try discriminate.
  - injection H as _ <-. now left.
  - injection H as _ <-. right. eauto.
Qed.

Lemma run_workers_inv (schedule : list nat) :
  forall (done : list nat) (w : workers State) (r : run (workers State)) (calls : list nat),
    loop_inv done w ->
    run_workers func (Z.of_nat n) schedule w = (r, calls) ->
    List.NoDup (done ++ calls)
    /\ (forall i, In i (done ++ calls) -> (i < n)%nat)
    /\ (forall w', reached r w' -> loop_inv (done ++ calls) w').
Proof.
  induction schedule as [| thread_no rest IH]; intros done w r calls Hinv Hrun.
  - cbn [run_workers] in Hrun. injection Hrun as <- <-. rewrite app_nil_r.
    destruct (done_facts _ _ Hinv) as (Hnd & Hlt).
    split; [exact Hnd |]. split; [exact Hlt |].
    intros w' [[= <-] | (status & [=])]. exact Hinv.
  - cbn [run_workers] in Hrun.
    destruct (loop_threads w !! thread_no) as [[| index | index | |] |] eqn:Hat;
      try (exact (IH done w r calls Hinv Hrun)).
    + apply (IH done _ r calls (proj1 (fetch_add_inv _ _ _ Hinv Hat)) Hrun).
    + destruct (held_below _ _ _ _ Hinv Hat) as (Hbelow & Hfresh).
      destruct (done_facts _ _ Hinv) as (Hnd & Hlt).
      assert (Hstop : List.NoDup (done ++ [Z.to_nat index])
                      /\ (forall i, In i (done ++ [Z.to_nat index]) -> (i < n)%nat)).
      { split.
        - apply Permutation_NoDup with (Z.to_nat index :: done);
            [apply Permutation_cons_append | now constructor].
        - intros i Hi. apply in_app_iff in Hi as [Hi | [<- | []]]; auto. }
      cbv zeta in Hrun.
      destruct (func (Z.to_nat index) (target w)) as [s | status s | |] eqn:Hcall.
      * destruct (run_workers func (Z.of_nat n) rest (returned thread_no s w))
          as [r' calls'] eqn:Hrest.
        injection Hrun as <- <-.
        destruct (IH _ _ _ _ (proj1 (call_inv _ _ _ _ s Hinv Hat)) Hrest)
          as (H2 & H3 & H4).
        rewrite <- app_assoc in H2, H3, H4. cbn [app] in H2, H3, H4.
        split; [exact H2 |]. split; [exact H3 | exact H4].
      * destruct (run_workers func (Z.of_nat n) rest (exited thread_no s w))
          as [r' calls'] eqn:Hrest.
        injection Hrun as <- <-.
        destruct (IH _ _ _ _ (proj1 (proj2 (call_inv _ _ _ _ s Hinv Hat))) Hrest)
          as (H2 & H3 & H4).
        rewrite <- app_assoc in H2, H3, H4. cbn [app] in H2, H3, H4.
        split; [exact H2 |]. split; [exact H3 |].
        intros w' Hw'. apply H4. now apply (reached_exiting status).
      * injection Hrun as <- <-.
        split; [apply Hstop |]. split; [apply Hstop |].
        intros w' [[=] | (status & [=])].
      * injection Hrun as <- <-.
        split; [apply Hstop |]. split; [apply Hstop |].
        intros w' [[=] | (status & [=])].
Qed.

Lemma joined_gone (w : workers State) :
  joined w = true -> gone (loop_threads w) = length (loop_threads w)
                     /\ in_hand (loop_threads w) = []
                     /\ list_sum (map steps_left (loop_threads w)) = 0%nat.
Proof.
  unfold joined, gone, in_hand. induction (loop_threads w) as [| t ts IH];
    [easy |].
  cbn [forallb]. intros H. apply andb_true_iff in H as (Ht & Hts).
  destruct t; try discriminate. destruct (IH Hts) as (IH1 & IH2 & IH3).
  cbn [List.filter ended length flat_map held app map steps_left].
  split; [now rewrite IH1 |]. split; [exact IH2 |].
  unfold list_sum in *. cbn [fold_right]. exact IH3.
Qed.

Lemma find_unended (ts : list place) :
  forallb ended ts = true \/ exists i t, ts !! i = Some t /\ ended t = false.
Proof.
  induction ts as [| t ts [IH | (i & t' & Hl & Hne)]].
  - now left.
  - destruct t; try (right; exists 0%nat; eexists; split; reflexivity).
    left. exact IH.
  - right. exists (Datatypes.S i), t'. now split.
Qed.

(** X21: [loop_threaded] calls [func] at most once on an index, and on
    every index once it returns.  Whatever the interleaving of the
    threads ([n + thread_count] fitting [std::size_t]; a call of [func]
    taken as one step of its thread): the indices [func] has been called
    on are distinct and below [n]; what the calls did, in the order they
    were made, is what [Process.loop_threaded] does on that order, a call
    that ends the process being followed, there as here, by the calls the
    other threads still make; and when all threads have ended (there being
    at least one), the calls are a rearrangement of [0 .. n - 1]. *)
Theorem loop_threaded_calls_each_index_once (schedule : list nat) (r : run (workers State)) (calls : list nat) :
  run_workers func (Z.of_nat n) schedule (start thread_count s0) = (r, calls) ->
  loop_threaded func calls s0 = outcome r
  /\ List.NoDup calls
  /\ (forall i, In i calls -> (i < n)%nat)
  /\ (forall w, r = Continue w -> joined w = true -> (0 < thread_count)%nat ->
       Permutation calls (seq 0 n)).
Proof.
  intros Hrun.
  destruct (run_workers_inv schedule [] _ r calls start_inv Hrun) as (H2 & H3 & H4).
  cbn [app] in H2, H3, H4.
  split; [exact (run_workers_sequential func _ schedule _ r calls Hrun) |].
  split; [exact H2 |]. split; [exact H3 |].
  intros w -> Hj Hpos.
  destruct (H4 w (or_introl eq_refl)) as [Hlen Hidx Hgone Hcalls].
  destruct (joined_gone w Hj) as (Hg & Hh & _).
  rewrite Hh, app_nil_r in Hcalls.
  replace (Z.to_nat (Z.min (global_index w) (Z.of_nat n))) with n in Hcalls by lia.
  exact Hcalls.
Qed.

Lemma run_workers_plain (schedule : list nat) :
  forall (w w' : workers State) (calls : list nat),
    Forall plain (loop_threads w) ->
    run_workers func (Z.of_nat n) schedule w = (Continue w', calls) ->
    Forall plain (loop_threads w').
Proof.
  induction schedule as [| thread_no rest IH]; intros w w' calls Hplain Hrun;
    cbn [run_workers] in Hrun.
  - now injection Hrun as <- _.
  - destruct (loop_threads w !! thread_no) as [[| index | index | |] |];
      try (exact (IH _ _ _ Hplain Hrun)).
    + refine (IH _ _ _ _ Hrun). cbn [fetch_add loop_threads].
      apply Forall_insert; [exact Hplain |].
      now destruct (Z.of_nat n <=? global_index w)%Z.
    + cbv zeta in Hrun.
      destruct (func (Z.to_nat index) (target w)) as [s | status s | |];
        try discriminate.
      * destruct (run_workers func (Z.of_nat n) rest (returned thread_no s w))
          as [r' calls'] eqn:Hrest.
        injection Hrun as -> _.
        refine (IH _ _ _ _ Hrest). cbn [returned loop_threads].
        now apply Forall_insert.
      * destruct (run_workers func (Z.of_nat n) rest (exited thread_no s w))
          as [r' calls'] eqn:Hrest.
        injection Hrun as Hr _. now apply exiting_not_continue in Hr.
Qed.

Hypothesis some_thread : (0 < thread_count)%nat.
Hypothesis func_returns :
  forall i s, (i < n)%nat -> exists s', func i s = Continue s'.

Lemma run_completes (k : nat) :
  forall (done : list nat) (w : workers State),
    loop_inv done w -> Forall plain (loop_threads w) -> turns w = k ->
    exists more w' calls,
      length more = k
      /\ run_workers func (Z.of_nat n) more w = (Continue w', calls)
      /\ joined w' = true.
Proof.
  induction k as [| k IH]; intros done w Hinv Hplain Hturns.
  - exists [], w, []. split; [reflexivity |]. split; [reflexivity |].
    unfold turns in Hturns. unfold joined.
    destruct (find_unended (loop_threads w)) as [Hall | (i & t & Hat & Hne)];
      [exact Hall |].
    pose proof (steps_insert _ _ _ at_return Hat) as Hs.
    pose proof (Forall_lookup_1 _ _ _ _ Hplain Hat) as Ht.
    destruct t; try discriminate; try contradiction; cbn [steps_left] in Hs; lia.
  - destruct (find_unended (loop_threads w)) as [Hall | (i & t & Hat & Hne)].
    + destruct (joined_gone w Hall) as (Hg & _ & Hsum).
      destruct Hinv as [Hlen Hidx Hgone Hcalls].
      unfold turns in Hturns. rewrite Hsum in Hturns.
      assert (Z.of_nat n <= global_index w)%Z by (apply Hgone; lia).
      lia.
    + pose proof (Forall_lookup_1 _ _ _ _ Hplain Hat) as Ht.
      destruct t as [| index | index | |]; try discriminate; try contradiction.
      * destruct (fetch_add_inv _ _ _ Hinv Hat) as (Hinv' & Hturns').
        assert (Hplain' : Forall plain (loop_threads (fetch_add (Z.of_nat n) i w))).
        { cbn [fetch_add loop_threads]. apply Forall_insert; [exact Hplain |].
          now destruct (Z.of_nat n <=? global_index w)%Z. }
        destruct (IH done _ Hinv' Hplain' ltac:(lia))
          as (more & w' & calls & Hl & Hrun & Hj).
        exists (i :: more), w', calls. split; [cbn [length]; lia |].
        split; [| exact Hj]. cbn [run_workers]. rewrite Hat. exact Hrun.
      * destruct (held_below _ _ _ _ Hinv Hat) as (Hbelow & _).
        destruct (func_returns (Z.to_nat index) (target w) Hbelow) as (s & Hcall).
        destruct (call_inv _ _ _ _ s Hinv Hat) as (Hinv' & _ & Hturns').
        assert (Hplain' : Forall plain (loop_threads (returned i s w)))
          by (cbn [returned loop_threads]; now apply Forall_insert).
        destruct (IH _ _ Hinv' Hplain' ltac:(lia))
          as (more & w' & calls & Hl & Hrun & Hj).
        exists (i :: more), w', (Z.to_nat index :: calls). split; [cbn [length]; lia |].
        split; [| exact Hj]. cbn [run_workers]. rewrite Hat. cbv zeta.
        now rewrite Hcall, Hrun.
Qed.

(** X22: [loop_threaded] returns.  With at least one thread and a [func]
    that returns on every index below [n], every run of the threads, as
    far as it has come, goes on to the end of all threads: in exactly the
    number of turns left, two for every index not yet handed out and one
    or two for each thread that has not ended; from the start, that is
    [2 * n + thread_count] turns. *)
Theorem loop_threaded_returns (schedule : list nat) (w : workers State) (calls : list nat) :
  run_workers func (Z.of_nat n) schedule (start thread_count s0) = (Continue w, calls) ->
  turns (start thread_count s0) = (2 * n + thread_count)%nat
  /\ exists more w' calls',
       length more = turns w
       /\ run_workers func (Z.of_nat n) more w = (Continue w', calls')
       /\ joined w' = true.
Proof.
  intros Hrun. split.
  - unfold turns, start. cbn [global_index loop_threads].
    assert (Hsum : forall k, list_sum (map steps_left (repeat at_fetch k)) = k).
    { induction k as [| k IH]; [reflexivity |].
      cbn [repeat map steps_left]. unfold list_sum in *. cbn [fold_right].
      now rewrite IH. }
    rewrite Hsum. change (Z.to_nat 0) with 0%nat. lia.
  - destruct (run_workers_inv schedule [] _ _ calls start_inv Hrun) as (_ & _ & H4).
    assert (Hstart : Forall plain (loop_threads (start thread_count s0))).
    { cbn [start loop_threads]. apply List.Forall_forall. intros t Ht.
      apply repeat_spec in Ht. now subst. }
    apply (run_completes (turns w) _ w (H4 w (or_introl eq_refl))
             (run_workers_plain schedule _ _ _ Hstart Hrun) eq_refl).
Qed.

End LoopThreads.

Section LoopThreadsTwo.
Import Process Loop.

Definition note (i : nat) (s : list nat) : run (list nat) := Continue (s ++ [i]).

(** A task that ends the process on the index 1, with the status 7. *)
Definition note_or_exit (i : nat) (s : list nat) : run (list nat) :=
  if (i =? 1)%nat then Exit 7 (s ++ [i]) else Continue (s ++ [i]).

Lemma two_fit : (Z.of_nat 2 + Z.of_nat 2 < 2 ^ 64)%Z.
Proof. reflexivity. Qed.

Lemma three_fit : (Z.of_nat 3 + Z.of_nat 2 < 2 ^ 64)%Z.
Proof. reflexivity. Qed.

(** Two threads and three indices: the second thread ends the process in
    its call on the index 1, and the first goes on to the indices 0 and 2;
    and two threads that both return. *)
Lemma loop_threaded_calls_each_index_once_witness :
  (loop_threaded note_or_exit [1; 0; 2]%nat [] = Exit 7 [1; 0; 2]%nat
   /\ List.NoDup [1; 0; 2]%nat)
  /\ loop_threaded note [1; 0]%nat [] = Continue [1; 0]%nat
  /\ Permutation [1; 0]%nat (seq 0 2).
Proof.
  split.
  - destruct (loop_threaded_calls_each_index_once (list nat) note_or_exit 3 2 [] three_fit
                [0; 1; 1; 0; 0; 0]%nat _ _ eq_refl) as (H1 & H2 & _).
    split; [exact H1 | exact H2].
  - destruct (loop_threaded_calls_each_index_once (list nat) note 2 2 [] two_fit
                [0; 1; 1; 0; 1; 0]%nat _ _ eq_refl) as (H1 & _ & _ & H4).
    split; [exact H1 |].
    exact (H4 _ eq_refl eq_refl (le_S 1 1 (le_n 1))).
Defined.

Lemma note_returns (i : nat) (s : list nat) :
  (i < 2)%nat -> exists s', note i s = Continue s'.
Proof. intros _. eexists. reflexivity. Qed.

Lemma loop_threaded_returns_witness :
  exists more w' calls',
    length more = 4%nat
    /\ run_workers note 2 more
         (fetch_add 2 1 (fetch_add 2 0 (start 2 []))) = (Continue w', calls')
    /\ joined w' = true.
Proof.
  exact (proj2 (loop_threaded_returns (list nat) note 2 2 [] two_fit
                  (le_S 1 1 (le_n 1)) note_returns
                  [0; 1]%nat _ [] eq_refl)).
Defined.

End LoopThreadsTwo.
